(** * VaultDAO frontend: a shallow embedding and its checked properties

    The development follows the TypeScript sources

    - [frontend/src/hooks/useVaultContract.ts] (two revisions of the hook,
      called [Rev1] and [Rev2] below), and
    - [frontend/src/app/dashboard/Proposals.tsx],

    and, for the spending-limit tracker of the Soroban contract (whose Rust
    sources are not part of the tree at hand), the prose of the design
    document.

    Layout: part I holds the definitions (JavaScript values, the event
    decoders, the proposal list, the RPC monad and the hook's operations,
    the spending-limit tracker); part II holds the statements. *)

From Stdlib Require Import Ascii String.
From stdpp Require Import gmap strings list pretty.

Set Warnings "-register-all".

Open Scope Z_scope.

(* ===================================================================== *)
(** * Part I. Definitions                                                  *)
(* ===================================================================== *)

(* --------------------------------------------------------------------- *)
(** ** JavaScript values                                                   *)
(* --------------------------------------------------------------------- *)

(** A thrown JavaScript [Error]; only its message is observable here. *)
Inductive JsError : Type :=
| Error (message : string).

(** The outcome of an expression that may throw. *)
Inductive Result (A : Type) : Type :=
| Ok (a : A)
| Throw (e : JsError).

Arguments Ok {A} a.
Arguments Throw {A} e.

(** A JavaScript [number]: the integers the program computes with, and NaN
    (what [parseInt] yields on a string without digits).  Integers are held
    exactly; a JavaScript number does so for the safe integers (magnitude
    below 2^53, which covers ledger sequences, page limits and event
    counts), and the statements on arithmetic are made for those. *)
Inductive Number : Type :=
| Fin (z : Z)
| NaN.

(** The values the decoders inspect (the result of [scValToNative] has type
    [any]).  An object carries its own properties and the string the
    [toString] it inherits yields ("[object Object]" for a plain object); a
    function carries the outcome of calling it without arguments and its
    source text. *)
Inductive JsVal : Type :=
| JUndefined
| JNull
| JBool (b : bool)
| JNumber (n : Number)
| JBigInt (n : Z)
| JString (s : string)
| JArray (xs : list JsVal)
| JObject (props : list (string * JsVal)) (rendering : string)
| JFunction (call : Result string) (src : string).

Inductive JsType : Type :=
| TUndefined | TObject | TBoolean | TNumber | TBigint | TString | TFunction.

#[global] Instance JsType_eq_dec : EqDecision JsType.
Proof. solve_decision. Defined.

(** [typeof v]. *)
Definition typeof (v : JsVal) : JsType :=
  match v with
  | JUndefined => TUndefined
  | JNull | JArray _ | JObject _ _ => TObject
  | JBool _ => TBoolean
  | JNumber _ => TNumber
  | JBigInt _ => TBigint
  | JString _ => TString
  | JFunction _ _ => TFunction
  end.

(** [v == null], i.e. [v] is [null] or [undefined]. *)
Definition nullish (v : JsVal) : bool :=
  match v with
  | JUndefined | JNull => true
  | _ => false
  end.

(** [a ?? b]. *)
Definition coalesce (a b : JsVal) : JsVal := if nullish a then b else a.

Definition Number_toString (n : Number) : string :=
  match n with
  | Fin z => pretty z
  | NaN => "NaN"
  end.

(** First binding of a key in a property list. *)
Fixpoint assoc (k : string) (props : list (string * JsVal)) : JsVal :=
  match props with
  | [] => JUndefined
  | (k', v) :: rest => if (k =? k')%string then v else assoc k rest
  end.

(** Whether an object has the own property [k]. *)
Definition has_own (k : string) (props : list (string * JsVal)) : bool :=
  existsb (fun kv => (k =? kv.1)%string) props.

(** The [TypeError] of a conversion that finds no primitive. *)
Definition not_primitive : JsError :=
  Error "Cannot convert object to primitive value".

(** [String(o)] on an object: the conversion asks [toString], then
    [valueOf].  An own [toString] hides the inherited one; when it is not
    callable the conversion goes on to [valueOf], and the inherited
    [valueOf], which returns the object itself, does not help. *)
Definition Object_toString (props : list (string * JsVal)) (rendering : string)
  : Result string :=
  if has_own "toString" props then
    match assoc "toString" props with
    | JFunction call _ => call
    | _ =>
        match assoc "valueOf" props with
        | JFunction call _ => call
        | _ => Throw not_primitive
        end
    end
  else Ok rendering.

(** [String(v)].  An array renders as its elements joined by commas, with
    [null] and [undefined] elements rendered empty; the conversion of an
    element may throw, and so may that of an object. *)
Fixpoint js_String (v : JsVal) : Result string :=
  match v with
  | JUndefined => Ok "undefined"
  | JNull => Ok "null"
  | JBool true => Ok "true"
  | JBool false => Ok "false"
  | JNumber n => Ok (Number_toString n)
  | JBigInt z => Ok (pretty z)
  | JString s => Ok s
  | JArray xs =>
      (fix join (l : list JsVal) : Result string :=
         match l with
         | [] => Ok ""
         | x :: l' =>
             match (if nullish x then Ok "" else js_String x) with
             | Ok e =>
                 match l' with
                 | [] => Ok e
                 | _ :: _ =>
                     match join l' with
                     | Ok rest => Ok (e +:+ "," +:+ rest)
                     | Throw err => Throw err
                     end
                 end
             | Throw err => Throw err
             end
         end) xs
  | JObject props rendering => Object_toString props rendering
  | JFunction _ src => Ok src
  end.

(** [o.k] for a value that is not nullish: own properties of objects, and
    [undefined] for every property the program asks of other values. *)
Definition get_prop (o : JsVal) (k : string) : JsVal :=
  match o with
  | JObject props _ => assoc k props
  | _ => JUndefined
  end.

(** [vec[i]] on an array: [undefined] out of range. *)
Definition index (vec : list JsVal) (i : nat) : JsVal :=
  default JUndefined (vec !! i).

(** [Math.max(a, b)] and [Math.min(a, b)]: NaN is contagious. *)
Definition Math_max (a b : Number) : Number :=
  match a, b with
  | Fin x, Fin y => Fin (Z.max x y)
  | _, _ => NaN
  end.

Definition Math_min (a b : Number) : Number :=
  match a, b with
  | Fin x, Fin y => Fin (Z.min x y)
  | _, _ => NaN
  end.

Definition Number_sub (a b : Number) : Number :=
  match a, b with
  | Fin x, Fin y => Fin (x - y)
  | _, _ => NaN
  end.

(** [a === b] on numbers: NaN equals nothing. *)
Definition Number_strict_eq (a b : Number) : bool :=
  match a, b with
  | Fin x, Fin y => (x =? y)%Z
  | _, _ => false
  end.

(** [parseInt(s, 10)]: leading white space, an optional sign, then the
    longest run of decimal digits; NaN when there is no digit.  Strings are
    held as UTF-8, so the white space beyond ASCII (the no-break space, the
    byte order mark, the Unicode spaces and the two line separators) takes
    two or three bytes. *)
Definition is_js_space (c : ascii) : bool :=
  let n := nat_of_ascii c in
  (n =? 32)%nat || ((9 <=? n)%nat && (n <=? 13)%nat).

(** The three-byte white space: U+1680, U+2000 to U+200A, U+2028, U+2029,
    U+202F, U+205F, U+3000 and U+FEFF. *)
Definition is_js_space3 (b1 b2 b3 : nat) : bool :=
  ((b1 =? 225) && (b2 =? 154) && (b3 =? 128))%nat
  || ((b1 =? 226) && (b2 =? 128)
      && (((128 <=? b3) && (b3 <=? 138)) || (b3 =? 168) || (b3 =? 169)
          || (b3 =? 175)))%nat
  || ((b1 =? 226) && (b2 =? 129) && (b3 =? 159))%nat
  || ((b1 =? 227) && (b2 =? 128) && (b3 =? 128))%nat
  || ((b1 =? 239) && (b2 =? 187) && (b3 =? 191))%nat.

Fixpoint skip_spaces (s : string) : string :=
  match s with
  | String c rest =>
      let b1 := nat_of_ascii c in
      if is_js_space c then skip_spaces rest
      else if (b1 =? 194)%nat then
        (* U+00A0 *)
        match rest with
        | String c2 rest2 =>
            if (nat_of_ascii c2 =? 160)%nat then skip_spaces rest2 else s
        | EmptyString => s
        end
      else if (225 <=? b1)%nat then
        match rest with
        | String c2 (String c3 rest3) =>
            if is_js_space3 b1 (nat_of_ascii c2) (nat_of_ascii c3)
            then skip_spaces rest3 else s
        | _ => s
        end
      else s
  | EmptyString => s
  end.

Definition digit_of (c : ascii) : option Z :=
  let n := nat_of_ascii c in
  if (48 <=? n)%nat && (n <=? 57)%nat then Some (Z.of_nat n - 48) else None.

Fixpoint read_digits (acc : option Z) (s : string) : option Z :=
  match s with
  | String c rest =>
      match digit_of c with
      | Some d => read_digits (Some (10 * default 0 acc + d)) rest
      | None => acc
      end
  | EmptyString => acc
  end.

Definition parseInt10 (s : string) : Number :=
  let s := skip_spaces s in
  let '(neg, s) :=
    match s with
    | String "-"%char rest => (true, rest)
    | String "+"%char rest => (false, rest)
    | _ => (false, s)
    end in
  match read_digits None s with
  | Some n => Fin (if neg then - n else n)
  | None => NaN
  end.

(* --------------------------------------------------------------------- *)
(** ** Statements that assign and may throw                                *)
(* --------------------------------------------------------------------- *)

(** A computation over mutable state [S] that returns or throws; in both
    cases the state is left as the computation made it. *)
Definition Eff (S A : Type) : Type := S → S * Result A.

Definition ret {S A : Type} (a : A) : Eff S A := fun s => (s, Ok a).

Definition throw {S A : Type} (e : JsError) : Eff S A := fun s => (s, Throw e).

Definition bind {S A B : Type} (m : Eff S A) (k : A → Eff S B) : Eff S B :=
  fun s =>
    match m s with
    | (s', Ok a) => k a s'
    | (s', Throw e) => (s', Throw e)
    end.

(** An expression that may throw, evaluated without touching the state. *)
Definition lift {S A : Type} (r : Result A) : Eff S A := fun s => (s, r).

Definition get {S : Type} : Eff S S := fun s => (s, Ok s).

Definition modify {S : Type} (f : S → S) : Eff S unit := fun s => (f s, Ok tt).

(** [try { body } catch (e) { handler e }] *)
Definition try_catch {S A : Type} (body : Eff S A) (handler : JsError → Eff S A)
  : Eff S A :=
  fun s =>
    match body s with
    | (s', Ok a) => (s', Ok a)
    | (s', Throw e) => handler e s'
    end.

(** [try { body } finally { fin }] *)
Definition try_finally {S A : Type} (body : Eff S A) (fin : Eff S unit) : Eff S A :=
  fun s =>
    match body s with
    | (s', r) =>
        match fin s' with
        | (s'', Ok _) => (s'', r)
        | (s'', Throw e) => (s'', Throw e)
        end
    end.

Declare Scope eff_scope.
Delimit Scope eff_scope with eff.
Notation "a ;; b" := (bind a (fun _ => b))
  (at level 100, right associativity) : eff_scope.
Notation "'let!' x ':=' m 'in' k" := (bind m (fun x => k))
  (at level 10, x name, m at level 99, k at level 200) : eff_scope.

(* --------------------------------------------------------------------- *)
(** ** Event decoders ([useVaultContract.ts], same text in both revisions) *)
(* --------------------------------------------------------------------- *)

(** [VaultEventType] is a union of string literals; at run time an event
    type is a string. *)
Definition VaultEventType : Type := string.

(** Known contract event names (topic[0] symbol). *)
Definition EVENT_SYMBOLS : list VaultEventType :=
  [ "proposal_created"; "proposal_approved"; "proposal_ready"; "proposal_executed";
    "proposal_rejected"; "signer_added"; "signer_removed"; "config_updated";
    "initialized"; "role_assigned" ].

(** [arr.includes(s)] on an array of strings. *)
Definition includes (arr : list string) (s : string) : bool :=
  existsb (String.eqb s) arr.

(** [scValToNative(xdr.ScVal.fromXDR(s, 'base64'))] of the stellar-sdk
    library is a parameter of the decoders: the decoded value, or the error
    thrown on input that is not base64-encoded XDR. *)
Definition Decoder : Type := string → Result JsVal.

Definition getEventTypeFromTopic (decode : Decoder) (topic0Base64 : string)
  : VaultEventType :=
  match decode topic0Base64 with
  | Ok native =>
      match native with
      | JString s => if includes EVENT_SYMBOLS s then s else "unknown"
      | _ => "unknown"
      end
  | Throw _ => "unknown"
  end.

Definition addressToNative (addrScVal : JsVal) : Result string :=
  match addrScVal with
  | JString s => Ok s  (* [typeof addrScVal === 'string'] *)
  | _ =>
      let fallback := js_String (coalesce addrScVal (JString "")) in
      if negb (nullish addrScVal) && bool_decide (typeof addrScVal = TObject) then
        match get_prop addrScVal "address" with
        | JFunction call _ => call  (* [typeof o.address === 'function'] *)
        | JString s => Ok s         (* [typeof o.address === 'string'] *)
        | _ => fallback
        end
      else fallback
  end.

(** [v === null]. *)
Definition is_null (v : JsVal) : bool :=
  match v with
  | JNull => true
  | _ => false
  end.

(** [vec[2] != null ? String(vec[2]) : ''] *)
Definition amount_string (v : JsVal) : Result JsVal :=
  if negb (nullish v) then
    match js_String v with
    | Ok s => Ok (JString s)
    | Throw e => Throw e
    end
  else Ok (JString "").

(** What the parser returns: [{ actor, details }]. *)
Record Parsed : Type := mkParsed {
  actor : string;
  details : gmap string JsVal
}.

(** The two variables the parser assigns to. *)
Definition Stmt : Type := Eff Parsed unit.

Definition skip : Stmt := ret tt.

(** [actor = a;] *)
Definition set_actor (a : string) : Stmt :=
  modify (fun st => mkParsed a (details st)).

(** [details.k = v;] *)
Definition set_detail (k : string) (v : JsVal) : Stmt :=
  modify (fun st => mkParsed (actor st) (<[k := v]> (details st))).

(** [const details = {}; let actor = ''; try { body } catch
    { details.parseError = true; } return { actor, details };] *)
Definition try_parse (body : Stmt) : Parsed :=
  fst (try_catch body (fun _ => set_detail "parseError" (JBool true))
         (mkParsed "" ∅)).

(* --------------------------------------------------------------------- *)
(** ** The hook's surroundings: wallet, RPC server, clock                 *)
(* --------------------------------------------------------------------- *)

Definition CONTRACT_ID : string :=
  "CDXXXXXXXXXXXXXXXXXXXXXXXXXXXXXXXXXXXXXXXXXXXXXXXXXXXXXX".
Definition NETWORK_PASSPHRASE : string := "Test SDF Network ; September 2015".
Definition RPC_URL : string := "https://soroban-testnet.stellar.org".
Definition EVENTS_PAGE_SIZE : Number := Fin 20.

Record StellarBalance : Type := mkBalance {
  asset_type : string;
  balance : string
}.

(** What [server.getAccount] resolves to; [balances] is there only when the
    object really has the field the dashboard casts it to. *)
Record Account : Type := mkAccount {
  accountId : string;
  sequenceNumber : string;
  balances : option (list StellarBalance)
}.

(** Arguments of a contract invocation. *)
Inductive ScArg : Type :=
| ScAddress (a : string)
| ScInt (n : Z) (ty : option string)
| ScSymbol (s : string).

(** The transaction the builder produces: fee ["100"], time-out 30, one
    [invokeHostFunction] operation with empty [auth]. *)
Record Tx : Type := mkTx {
  tx_source : Account;
  tx_fee : string;
  tx_networkPassphrase : string;
  tx_timeout : Z;
  tx_contractAddress : string;
  tx_functionName : string;
  tx_args : list ScArg
}.

(** A simulation result; [isSimulationError] holds of the first form. *)
Inductive Simulation : Type :=
| SimulationError (error : string)
| SimulationSuccess (data : string).

Record SendResponse : Type := mkSendResponse {
  send_status : string;
  hash : string
}.

(** Raw event from getEvents RPC *)
Record RawEvent : Type := mkRawEvent {
  ev_type : string;
  ev_ledger : string;
  ev_ledgerClosedAt : option string;
  ev_contractId : option string;
  ev_id : string;
  ev_pagingToken : option string;
  ev_inSuccessfulContractCall : option bool;
  ev_topic : option (list string);
  ev_value : option string  (* [value?.xdr] *)
}.

(** Parameters of the [getEvents] request; its filter is always the one
    contract. *)
Record EventsParams : Type := mkEventsParams {
  filter_contractIds : list string;
  pagination_limit : Number;
  pagination_cursor : option string;
  startLedger : option string
}.

Record EventsResult : Type := mkEventsResult {
  res_events : option (list RawEvent);
  res_cursor : option string;
  res_latestLedger : option JsVal
}.

(** The JSON body of the [getEvents] response: [error] holds
    [error.message] when the response is an error. *)
Record EventsData : Type := mkEventsData {
  data_error : option (option string);
  data_result : option EventsResult
}.

(** Everything the hook calls out to.  Each entry is the value the call
    resolves to, or the error it throws or rejects with. *)
Record World : Type := mkWorld {
  server_getAccount : string → Result Account;
  server_simulateTransaction : Tx → Result Simulation;
  (** [SorobanRpc.assembleTransaction(tx, simulation).build().toXDR()] *)
  assembleTransaction : Tx → Simulation → Result string;
  signTransaction : string → Result string;
  TransactionBuilder_fromXDR : string → Result string;
  server_sendTransaction : string → Result SendResponse;
  (** [new Address(s)], [Address.fromString(s)] *)
  Address_new : string → Result string;
  (** [BigInt(s)] on a string *)
  BigInt_of_string : string → Result Z;
  (** [nativeToScVal(n, opts)] on a bigint *)
  nativeToScVal : Z → option string → Result ScArg;
  (** the [getLatestLedger] call: [fetch] and [.json()] *)
  rpc_getLatestLedger : Result JsVal;
  (** the [getEvents] call: [fetch] and [.json()] *)
  rpc_getEvents : EventsParams → Result EventsData;
  (** [Date.now()] and [new Date().toISOString()] *)
  Date_now : Z;
  Date_toISOString : string;
  (** [parseFloat(s).toLocaleString()] *)
  formatBalance : string → string;
  (** [parseError] of [utils/errorParser] *)
  parseError : JsError → JsError
}.

(** What the hook does to the outside, in order. *)
Inductive Effect : Type :=
| SetLoading (b : bool)
| GetAccount (addr : string)
| SimulateTransaction (tx : Tx)
| SignTransaction (xdr : string)
| SendTransaction (signedTx : string)
| RpcGetLatestLedger
| RpcGetEvents (params : EventsParams)
| ConsoleError (label : string).

(** An operation of the hook: it extends the trace of effects and returns
    or throws. *)
Definition Io (A : Type) : Type := Eff (list Effect) A.

Definition emit (e : Effect) : Io unit := modify (fun trace => trace ++ [e]).

(** Perform an outside call: record it, then take its outcome. *)
Definition perform {A : Type} (e : Effect) (outcome : Result A) : Io A :=
  (emit e ;; lift outcome)%eff.

Definition setLoading (b : bool) : Io unit := emit (SetLoading b).

(** [a || b] on a string and a default. *)
Definition or_else (a : option string) (b : string) : string :=
  match a with
  | Some s => if (s =? "")%string then b else s
  | None => b
  end.

(** Truthiness of an optional string. *)
Definition present (a : option string) : bool :=
  match a with
  | Some s => negb (s =? "")%string
  | None => false
  end.

(** [v?.k] *)
Definition opt_get (v : JsVal) (k : string) : JsVal :=
  if nullish v then JUndefined else get_prop v k.

Record VaultActivity : Type := mkActivity {
  act_id : string;
  act_type : VaultEventType;
  act_timestamp : string;
  act_ledger : string;
  act_actor : string;
  act_details : gmap string JsVal;
  act_eventId : string;
  act_pagingToken : option string
}.

Record GetVaultEventsResult : Type := mkEventsPage {
  activities : list VaultActivity;
  latestLedger : JsVal;
  cursor : option string;
  hasMore : bool
}.

Section Wallet.

Variable w : World.
(** What [useWallet()] gives. *)
Variable isConnected : bool.
Variable address : option string.

(** The address when the guard [!isConnected || !address] lets the call
    through. *)
Definition connected_address : option string :=
  if negb isConnected || negb (present address) then None else address.

(** [new Address(s).toScVal()] *)
Definition address_arg (s : string) : Io ScArg :=
  (let! a := lift (Address_new w s) in ret (ScAddress a))%eff.

(** The part of every mutating operation between [setLoading(true)] and
    the inspection of the response: fetch the account, build the
    invocation of [functionName] (contract address first, then the
    arguments in order), simulate, assemble, sign, submit. *)
Definition submit (address : string) (functionName : string)
                  (args : list (Io ScArg)) : Io SendResponse :=
  (let! account := perform (GetAccount address) (server_getAccount w address) in
   let! contractAddress := lift (Address_new w CONTRACT_ID) in
   let! args := fold_right
                  (fun a rest => let! x := a in let! xs := rest in ret (x :: xs))
                  (ret []) args in
   let tx := mkTx account "100" NETWORK_PASSPHRASE 30 contractAddress functionName args in
   let! simulation := perform (SimulateTransaction tx) (server_simulateTransaction w tx) in
   match simulation with
   | SimulationError error => throw (Error ("Simulation Failed: " +:+ error))
   | SimulationSuccess _ =>
       let! preparedXdr := lift (assembleTransaction w tx simulation) in
       let! signedXdr := perform (SignTransaction preparedXdr)
                                  (signTransaction w preparedXdr) in
       let! signedTx := lift (TransactionBuilder_fromXDR w signedXdr) in
       perform (SendTransaction signedTx) (server_sendTransaction w signedTx)
   end)%eff.

(** [if (response.status !== "PENDING") throw ...; return response.hash;] *)
Definition hash_if_pending (response : SendResponse) : Io string :=
  if negb (send_status response =? "PENDING")%string
  then throw (Error "Transaction submission failed")
  else ret (hash response).

(** [try { body } catch (e) { throw parseError(e); } finally
    { setLoading(false); }] after [setLoading(true)]. *)
Definition guarded (body : Io string) : Io string :=
  (setLoading true ;;
   try_finally
     (try_catch body (fun e => throw (parseError w e)))
     (setLoading false))%eff.

(** The request parameters of [getVaultEvents].  Without a cursor the
    start ledger is computed from the latest ledger: [parseInt] converts its
    argument to a string first, which may throw.  With a cursor
    [startLedger] is [undefined] and left out of the request.  (The source
    tests [cursor] twice, for the start ledger and for the request; the two
    tests are one here.) *)
Definition events_params (cursor : option string) (limit : Number) (latestLedger : JsVal)
  : Result EventsParams :=
  let params := mkEventsParams [CONTRACT_ID] (Math_min limit (Fin 200)) None None in
  if present cursor then
    Ok (mkEventsParams (filter_contractIds params) (pagination_limit params)
          cursor (startLedger params))
  else
    match js_String latestLedger with
    | Ok text =>
        let start := Math_max (Fin 1) (Number_sub (parseInt10 text) (Fin 50000)) in
        Ok (mkEventsParams (filter_contractIds params) (pagination_limit params)
              (pagination_cursor params) (Some (Number_toString start)))
    | Throw e => Throw e
    end.

(** [{ ...details, ledger: ev.ledger }] and the rest of an activity. *)
Definition activity_of (ev : RawEvent) (eventType : VaultEventType) (parsed : Parsed)
  : VaultActivity :=
  {| act_id := ev_id ev;
     act_type := eventType;
     act_timestamp := or_else (ev_ledgerClosedAt ev) (Date_toISOString w);
     act_ledger := ev_ledger ev;
     act_actor := actor parsed;
     act_details := <["ledger" := JString (ev_ledger ev)]> (details parsed);
     act_eventId := ev_id ev;
     act_pagingToken := ev_pagingToken ev |}.

(** [ev.topic?.[0]] *)
Definition topic0_of (ev : RawEvent) : option string :=
  match ev_topic ev with
  | Some (t :: _) => Some t
  | _ => None
  end.

(** The default [getVaultEvents] returns from its [catch]. *)
Definition events_fallback : GetVaultEventsResult :=
  mkEventsPage [] (JString "0") None false.

End Wallet.

(** *** First revision of the hook *)
Module Rev1.
Section Hook.

Variable decode : Decoder.

Definition parseEventValue (valueXdrBase64 : string) (eventType : VaultEventType)
  : Parsed :=
  try_parse (
    let! native := lift (decode valueXdrBase64) in
    match native with
    | JArray vec =>  (* [Array.isArray(native)] *)
        let first := index vec 0 in
        (let! a := lift (addressToNative first) in set_actor a) ;;
        if (eventType =? "proposal_created")%string && (3 <=? length vec)%nat then
          (let! st := get in set_detail "proposer" (JString (actor st))) ;;
          (let! r := lift (addressToNative (index vec 1)) in
           set_detail "recipient" (JString r)) ;;
          (let! a := lift (amount_string (index vec 2)) in
           set_detail "amount" a)
        else if (eventType =? "proposal_approved")%string && (3 <=? length vec)%nat then
          set_detail "approval_count" (index vec 1) ;;
          set_detail "threshold" (index vec 2)
        else if (eventType =? "proposal_executed")%string && (3 <=? length vec)%nat then
          (let! r := lift (addressToNative (index vec 1)) in
           set_detail "recipient" (JString r)) ;;
          (let! a := lift (amount_string (index vec 2)) in
           set_detail "amount" a)
        else if (eventType =? "proposal_rejected")%string then
          (* value is single rejector address *)
          skip
        else if ((eventType =? "signer_added")%string || (eventType =? "signer_removed")%string)
                && (2 <=? length vec)%nat then
          set_detail "total_signers" (index vec 1)
        else if (eventType =? "role_assigned")%string && (2 <=? length vec)%nat then
          set_detail "role" (index vec 1)
        else
          set_detail "raw" native
    | _ =>
        (let! a := lift (addressToNative native) in set_actor a) ;;
        if (eventType =? "proposal_rejected")%string then
          (* value is just rejector *)
          skip
        else if negb (is_null native) && bool_decide (typeof native = TObject) then
          set_detail "raw" native
        else skip
    end)%eff.

Variable w : World.
Variable isConnected : bool.
Variable address : option string.

Definition proposeTransfer (recipient token amount memo : string) : Io string :=
  match connected_address isConnected address with
  | None => throw (Error "Wallet not connected")
  | Some address =>
      guarded w (
        let! response :=
          submit w address "propose_transfer"
            [ address_arg w address;
              address_arg w recipient;
              address_arg w token;
              (let! n := lift (BigInt_of_string w amount) in
               lift (nativeToScVal w n None));
              ret (ScSymbol memo) ] in
        hash_if_pending response)%eff
  end.

Definition rejectProposal (proposalId : Z) : Io string :=
  match connected_address isConnected address with
  | None => throw (Error "Wallet not connected")
  | Some address =>
      guarded w (
        let! response :=
          submit w address "reject_proposal"
            [ address_arg w address;
              lift (nativeToScVal w proposalId (Some "u64")) ] in
        hash_if_pending response)%eff
  end.

Definition getVaultEvents (cursor : option string) (limit : option Number)
  : Io GetVaultEventsResult :=
  let limit := default EVENTS_PAGE_SIZE limit in
  try_catch (
    let! latestLedgerData := perform RpcGetLatestLedger (rpc_getLatestLedger w) in
    let latestLedger :=
      coalesce (opt_get (opt_get latestLedgerData "result") "sequence") (JString "0") in
    let! params := lift (events_params cursor limit latestLedger) in
    let! data := perform (RpcGetEvents params) (rpc_getEvents w params) in
    match data_error data with
    | Some message => throw (Error (or_else message "getEvents failed"))
    | None =>
        let events := default [] (data_result data ≫= res_events) in
        let resultCursor := data_result data ≫= res_cursor in
        let hasMore :=
          present resultCursor && Number_strict_eq (Fin (Z.of_nat (length events))) limit in
        let activities :=
          flat_map
            (fun ev =>
               let topic0 := topic0_of ev in
               let valueXdr := ev_value ev in
               match topic0 with
               | Some t =>
                   if (t =? "")%string then [] (* continue *)
                   else
                     let eventType := getEventTypeFromTopic decode t in
                     let parsed :=
                       if present valueXdr
                       then parseEventValue (default "" valueXdr) eventType
                       else mkParsed "" ∅ in
                     [activity_of w ev eventType parsed]
               | None => [] (* continue *)
               end)
            events in
        ret (mkEventsPage activities
               (coalesce (default JUndefined (data_result data ≫= res_latestLedger))
                         latestLedger)
               resultCursor hasMore)
    end)%eff
    (fun e => emit (ConsoleError "getVaultEvents") ;; ret (events_fallback))%eff.

End Hook.
End Rev1.

(** *** Second revision of the hook *)
Module Rev2.
Section Hook.

Variable decode : Decoder.

Definition parseEventValue (valueXdrBase64 : string) (eventType : VaultEventType)
  : Parsed :=
  try_parse (
    let! native := lift (decode valueXdrBase64) in
    match native with
    | JArray vec =>  (* [Array.isArray(native)] *)
        let first := index vec 0 in
        (let! a := lift (addressToNative first) in set_actor a) ;;
        if (eventType =? "proposal_created")%string && (3 <=? length vec)%nat then
          (let! st := get in set_detail "proposer" (JString (actor st))) ;;
          (let! r := lift (addressToNative (index vec 1)) in
           set_detail "recipient" (JString r)) ;;
          (let! a := lift (amount_string (index vec 2)) in
           set_detail "amount" a)
        else if (eventType =? "proposal_approved")%string && (3 <=? length vec)%nat then
          set_detail "approval_count" (index vec 1) ;;
          set_detail "threshold" (index vec 2)
        else if (eventType =? "proposal_executed")%string && (3 <=? length vec)%nat then
          (let! r := lift (addressToNative (index vec 1)) in
           set_detail "recipient" (JString r)) ;;
          (let! a := lift (amount_string (index vec 2)) in
           set_detail "amount" a)
        else if ((eventType =? "signer_added")%string || (eventType =? "signer_removed")%string)
                && (2 <=? length vec)%nat then
          set_detail "total_signers" (index vec 1)
        else if (eventType =? "role_assigned")%string && (2 <=? length vec)%nat then
          set_detail "role" (index vec 1)
        else
          set_detail "raw" native
    | _ =>
        (let! a := lift (addressToNative native) in set_actor a) ;;
        if negb (is_null native) && bool_decide (typeof native = TObject) then
          set_detail "raw" native
        else skip
    end)%eff.

Variable w : World.
Variable isConnected : bool.
Variable address : option string.

Record DashboardStats : Type := mkStats {
  totalBalance : string;
  totalProposals : Z;
  pendingApprovals : Z;
  readyToExecute : Z;
  activeSigners : Z;
  stats_threshold : string
}.

Definition getDashboardStats : Io DashboardStats :=
  try_catch (
    let! accountInfo := perform (GetAccount CONTRACT_ID) (server_getAccount w CONTRACT_ID) in
    match balances accountInfo with
    | None => throw (Error "Cannot read properties of undefined (reading 'find')")
    | Some bs =>
        let nativeBalance :=
          List.find (fun b => (asset_type b =? "native")%string) bs in
        let balance :=
          match nativeBalance with
          | Some b => formatBalance w (balance b)
          | None => "0"
          end in
        ret (mkStats balance 24 3 1 5 "3/5")
    end)%eff
    (fun e => emit (ConsoleError "Failed to fetch dashboard stats:") ;;
              ret (mkStats "0" 0 0 0 0 "0/0"))%eff.

Definition proposeTransfer (recipient token amount memo : string) : Io string :=
  match connected_address isConnected address with
  | None => throw (Error "Wallet not connected")
  | Some address =>
      guarded w (
        let! response :=
          submit w address "propose_transfer"
            [ address_arg w address;
              address_arg w recipient;
              address_arg w token;
              (let! n := lift (BigInt_of_string w amount) in
               lift (nativeToScVal w n None));
              ret (ScSymbol memo) ] in
        ret (hash response))%eff
  end.

Definition rejectProposal (proposalId : Z) : Io string :=
  match connected_address isConnected address with
  | None => throw (Error "Wallet not connected")
  | Some address =>
      guarded w (
        let! response :=
          submit w address "reject_proposal"
            [ address_arg w address;
              lift (nativeToScVal w proposalId (Some "u64")) ] in
        ret (hash response))%eff
  end.

Definition executeProposal (proposalId : Z) : Io string :=
  match connected_address isConnected address with
  | None => throw (Error "Wallet not connected")
  | Some address =>
      guarded w (
        let! response :=
          submit w address "execute_proposal"
            [ address_arg w address;
              lift (nativeToScVal w proposalId (Some "u64")) ] in
        hash_if_pending response)%eff
  end.

Definition getVaultEvents (cursor : option string) (limit : option Number)
  : Io GetVaultEventsResult :=
  let limit := default EVENTS_PAGE_SIZE limit in
  try_catch (
    let! latestLedgerData := perform RpcGetLatestLedger (rpc_getLatestLedger w) in
    let latestLedger :=
      coalesce (opt_get (opt_get latestLedgerData "result") "sequence") (JString "0") in
    let! params := lift (events_params cursor limit latestLedger) in
    let! data := perform (RpcGetEvents params) (rpc_getEvents w params) in
    match data_error data with
    | Some message => throw (Error (or_else message "getEvents failed"))
    | None =>
        let events := default [] (data_result data ≫= res_events) in
        let resultCursor := data_result data ≫= res_cursor in
        let hasMore :=
          present resultCursor && Number_strict_eq (Fin (Z.of_nat (length events))) limit in
        let activities :=
          map
            (fun ev =>
               let topic0 := topic0_of ev in
               let valueXdr := ev_value ev in
               let eventType :=
                 if present topic0
                 then getEventTypeFromTopic decode (default "" topic0)
                 else "unknown" in
               let parsed :=
                 if present valueXdr
                 then parseEventValue (default "" valueXdr) eventType
                 else mkParsed "" ∅ in
               activity_of w ev eventType parsed)
            events in
        ret (mkEventsPage activities
               (coalesce (default JUndefined (data_result data ≫= res_latestLedger))
                         latestLedger)
               resultCursor hasMore)
    end)%eff
    (fun e => emit (ConsoleError "getVaultEvents") ;; ret (events_fallback))%eff.

(** ['active' | 'paused' | 'cancelled'] *)
Inductive PaymentStatus : Type :=
| active | paused | cancelled.

Record RecurringPayment : Type := mkRecurringPayment {
  rp_id : string;
  rp_recipient : string;
  rp_token : string;
  rp_amount : string;
  rp_memo : string;
  rp_interval : Z;         (* in seconds *)
  rp_nextPaymentTime : Z;  (* timestamp *)
  rp_totalPayments : Z;
  rp_status : PaymentStatus;
  rp_createdAt : Z;
  rp_creator : string
}.

Record RecurringPaymentHistory : Type := mkHistory {
  h_id : string;
  h_paymentId : string;
  h_executedAt : Z;
  h_transactionHash : string;
  h_amount : string;
  h_success : bool
}.

Record CreateRecurringPaymentParams : Type := mkCreateParams {
  cp_recipient : string;
  cp_token : string;
  cp_amount : string;
  cp_memo : string;
  cp_interval : Z  (* in seconds *)
}.

Definition mockPayments : list RecurringPayment :=
  [ mkRecurringPayment "1"
      "GXXXXXXXXXXXXXXXXXXXXXXXXXXXXXXXXXXXXXXXXXXXXXXX1"
      "CDXXXXXXXXXXXXXXXXXXXXXXXXXXXXXXXXXXXXXXXXXXXXXXXXXXXXXX"
      "1000000000" "Monthly salary" 2592000
      (Date_now w + 86400000) 12 active (Date_now w - 31536000000)
      "GYYYYYYYYYYYYYYYYYYYYYYYYYYYYYYYYYYYYYYYYYYYYYYYY";
    mkRecurringPayment "2"
      "GXXXXXXXXXXXXXXXXXXXXXXXXXXXXXXXXXXXXXXXXXXXXXXX2"
      "CDXXXXXXXXXXXXXXXXXXXXXXXXXXXXXXXXXXXXXXXXXXXXXXXXXXXXXX"
      "500000000" "Weekly subscription" 604800
      (Date_now w - 3600000) 52 active (Date_now w - 15768000000)
      "GYYYYYYYYYYYYYYYYYYYYYYYYYYYYYYYYYYYYYYYYYYYYYYYY";
    mkRecurringPayment "3"
      "GXXXXXXXXXXXXXXXXXXXXXXXXXXXXXXXXXXXXXXXXXXXXXXX3"
      "CDXXXXXXXXXXXXXXXXXXXXXXXXXXXXXXXXXXXXXXXXXXXXXXXXXXXXXX"
      "250000000" "Paused service" 86400
      (Date_now w + 86400000) 5 paused (Date_now w - 2592000000)
      "GYYYYYYYYYYYYYYYYYYYYYYYYYYYYYYYYYYYYYYYYYYYYYYYY" ].

(** Get all recurring payments for the vault *)
Definition getRecurringPayments : Io (list RecurringPayment) :=
  try_catch (
    (* [await server.getAccount(CONTRACT_ID).catch(() => null);] *)
    try_catch
      (let! _ := perform (GetAccount CONTRACT_ID) (server_getAccount w CONTRACT_ID) in
       ret tt)
      (fun _ => ret tt) ;;
    ret mockPayments)%eff
    (fun e => emit (ConsoleError "Failed to fetch recurring payments:") ;; ret [])%eff.

(** Get payment history for a specific recurring payment *)
Definition getRecurringPaymentHistory (paymentId : string)
  : Io (list RecurringPaymentHistory) :=
  try_catch (
    ret [ mkHistory (paymentId +:+ "-1") paymentId (Date_now w - 2592000000)
            "abc123def456789012345678901234567890123456789012345678901234"
            "1000000000" true;
          mkHistory (paymentId +:+ "-2") paymentId (Date_now w - 5184000000)
            "def456abc789012345678901234567890123456789012345678901234567"
            "1000000000" true ])%eff
    (fun e => emit (ConsoleError "Failed to fetch payment history:") ;; ret [])%eff.

(** Schedule a new recurring payment *)
Definition schedulePayment (params : CreateRecurringPaymentParams) : Io string :=
  match connected_address isConnected address with
  | None => throw (Error "Wallet not connected")
  | Some address =>
      guarded w (
        let! response :=
          submit w address "schedule_payment"
            [ address_arg w address;
              address_arg w (cp_recipient params);
              address_arg w (cp_token params);
              (let! n := lift (BigInt_of_string w (cp_amount params)) in
               lift (nativeToScVal w n None));
              ret (ScSymbol (cp_memo params));
              lift (nativeToScVal w (cp_interval params) (Some "u64")) ] in
        ret (hash response))%eff
  end.

(** Execute a due recurring payment manually *)
Definition executeRecurringPayment (paymentId : string) : Io string :=
  match connected_address isConnected address with
  | None => throw (Error "Wallet not connected")
  | Some address =>
      guarded w (
        let! response :=
          submit w address "execute_recurring_payment"
            [ address_arg w address;
              (let! n := lift (BigInt_of_string w paymentId) in
               lift (nativeToScVal w n (Some "u64"))) ] in
        ret (hash response))%eff
  end.

(** Cancel/Deactivate a recurring payment *)
Definition cancelRecurringPayment (paymentId : string) : Io string :=
  match connected_address isConnected address with
  | None => throw (Error "Wallet not connected")
  | Some address =>
      guarded w (
        let! response :=
          submit w address "cancel_recurring_payment"
            [ address_arg w address;
              (let! n := lift (BigInt_of_string w paymentId) in
               lift (nativeToScVal w n (Some "u64"))) ] in
        ret (hash response))%eff
  end.

(** Pause a recurring payment *)
Definition pauseRecurringPayment (paymentId : string) : Io string :=
  match connected_address isConnected address with
  | None => throw (Error "Wallet not connected")
  | Some address =>
      guarded w (
        let! response :=
          submit w address "pause_recurring_payment"
            [ address_arg w address;
              (let! n := lift (BigInt_of_string w paymentId) in
               lift (nativeToScVal w n (Some "u64"))) ] in
        ret (hash response))%eff
  end.

End Hook.
End Rev2.

(* --------------------------------------------------------------------- *)
(** ** The proposal list ([Proposals.tsx])                                 *)
(* --------------------------------------------------------------------- *)

Module Proposals.

(** ['Pending' | 'Approved' | 'Executed' | 'Rejected' | 'Expired'] *)
Inductive Status : Type :=
| Pending | Approved | Executed | Rejected | Expired.

#[global] Instance Status_eq_dec : EqDecision Status.
Proof. solve_decision. Defined.

(** The string literal a status is at run time. *)
Definition status_name (s : Status) : string :=
  match s with
  | Pending => "Pending"
  | Approved => "Approved"
  | Executed => "Executed"
  | Rejected => "Rejected"
  | Expired => "Expired"
  end.

Record Proposal : Type := mkProposal {
  id : Z;
  proposer : string;
  recipient : string;
  amount : string;
  token : string;
  memo : string;
  status : Status;
  approvals : Z;
  threshold : Z;
  createdAt : string
}.

Definition mockProposals : list Proposal :=
  [ {| id := 102;
       proposer := "GA5W...7K9L";
       recipient := "GD26L4...Z3X4";
       amount := "2,500";
       token := "XLM";
       memo := "Quarterly server maintenance costs";
       status := Pending;
       approvals := 1;
       threshold := 3;
       createdAt := "2h ago" |};
    {| id := 101;
       proposer := "GB2R...4M1P";
       recipient := "GCEYUX...R7T2";
       amount := "12,000";
       token := "XLM";
       memo := "Marketing grant for ecosystem growth";
       status := Executed;
       approvals := 3;
       threshold := 3;
       createdAt := "1d ago" |} ].

(** [const userRole = 'Admin';] *)
Definition currentUserRole : string := "Admin".

(** A toast: [notify(type, message, level)]. *)
Record Toast : Type := mkToast {
  toast_type : string;
  toast_message : string;
  toast_level : string
}.

(** The component's state: its four [useState] cells and the toasts it
    has raised. *)
Record State : Type := mkState {
  proposals : list Proposal;
  selectedProposal : option Proposal;
  showRejectModal : bool;
  rejectingId : option Z;
  toasts : list Toast
}.

Definition initialState : State :=
  {| proposals := mockProposals;
     selectedProposal := None;
     showRejectModal := false;
     rejectingId := None;
     toasts := [] |}.

(** [{ ...p, status: 'Rejected' }] *)
Definition with_status_Rejected (p : Proposal) : Proposal :=
  {| id := id p;
     proposer := proposer p;
     recipient := recipient p;
     amount := amount p;
     token := token p;
     memo := memo p;
     status := Rejected;
     approvals := approvals p;
     threshold := threshold p;
     createdAt := createdAt p |}.

(** [setSelectedProposal(prop)] of a row of the list, and
    [setSelectedProposal(null)] of the detail modal's [onClose]. *)
Definition setSelectedProposal (sel : option Proposal) (st : State) : State :=
  {| proposals := proposals st;
     selectedProposal := sel;
     showRejectModal := showRejectModal st;
     rejectingId := rejectingId st;
     toasts := toasts st |}.

(** [setShowRejectModal(false)], the confirmation modal's [onCancel]. *)
Definition setShowRejectModal (b : bool) (st : State) : State :=
  {| proposals := proposals st;
     selectedProposal := selectedProposal st;
     showRejectModal := b;
     rejectingId := rejectingId st;
     toasts := toasts st |}.

Section Component.

(** What [useWallet()] gives: [address] is a string or [null]. *)
Variable isConnected : bool.
Variable address : option string.
(** The role in scope of [canRejectProposal]. *)
Variable userRole : string.
(** The hook's [rejectProposal] as the component sees it: the
    transaction hash, or the error it throws. *)
Variable rejectProposal : Z → Result string.

(** [!address]: [null] and the empty string are falsy. *)
Definition no_address : bool :=
  match address with
  | None => true
  | Some a => (a =? "")%string
  end.

(** [proposal.proposer === address] *)
Definition is_address (who : string) : bool :=
  match address with
  | None => false
  | Some a => (who =? a)%string
  end.

Definition canRejectProposal (proposal : Proposal) : bool :=
  if negb isConnected || no_address then false
  else is_address (proposer proposal) || (userRole =? "Admin")%string.

(** The guard of the Reject button in the rendered list:
    [prop.status === 'Pending' && canRejectProposal(prop)]. *)
Definition rejectButtonShown (prop : Proposal) : bool :=
  bool_decide (status prop = Pending) && canRejectProposal prop.

Definition handleRejectClick (proposalId : Z) (st : State) : State :=
  {| proposals := proposals st;
     selectedProposal := selectedProposal st;
     showRejectModal := true;
     rejectingId := Some proposalId;
     toasts := toasts st |}.

(** [error.message || 'Failed to reject'] *)
Definition reject_error_text (e : JsError) : string :=
  match e with
  | Error m => if (m =? "")%string then "Failed to reject" else m
  end.

(** The optional [reason] only goes to [console.log]. *)
Definition handleRejectConfirm (reason : option string) (st : State) : State :=
  match rejectingId st with
  | None => st
  | Some rid =>
      let '(ps, ts) :=
        match rejectProposal rid with
        | Ok _ =>
            (map (fun p => if (id p =? rid)%Z then with_status_Rejected p else p)
                 (proposals st),
             toasts st ++
               [mkToast "proposal_rejected"
                        ("Proposal #" +:+ pretty rid +:+ " rejected") "success"])
        | Throw error =>
            (proposals st,
             toasts st ++
               [mkToast "proposal_rejected" (reject_error_text error) "error"])
        end in
      (* finally *)
      {| proposals := ps;
         selectedProposal := selectedProposal st;
         showRejectModal := false;
         rejectingId := None;
         toasts := ts |}
  end.

End Component.

End Proposals.

(* --------------------------------------------------------------------- *)
(** ** The spending-limit tracker of the contract                          *)
(* --------------------------------------------------------------------- *)

Module Tracker.

(** Modelled from the spec: the error taxonomy of the contract (its
    [errors.rs] is not in the tree). *)
Inductive VaultError : Type :=
| Unauthorized | NotFound | InvalidState | AlreadyApproved
| LimitExceeded | TimelockNotExpired | NotDue | InvalidOperation.

(** Modelled from the spec: the two caps of [Config] that the tracker
    reads; amounts are unsigned. *)
Record Limits : Type := mkLimits {
  daily_limit : N;
  weekly_limit : N
}.

(** Modelled from the spec: a spending window, [window_start] being the
    start of its bucket and [consumed] the amount released in it. *)
Record SpendingWindow : Type := mkWindow {
  window_start : N;
  consumed : N
}.

(** Modelled from the spec: the ephemeral tier holds one window per kind,
    and a record may be missing (never written, or evicted). *)
Record Ephemeral : Type := mkEphemeral {
  daily : option SpendingWindow;
  weekly : option SpendingWindow
}.

(** An invocation runs to completion with a new state, or fails. *)
Inductive Outcome : Type :=
| Success (st : Ephemeral)
| Failure (e : VaultError).

(** Who asks for funds to be released: [execute] of a proposal, or
    [execute_recurring_payment]. *)
Inductive Source : Type :=
| Manual | Recurring.

Record Execution : Type := mkExecution {
  source : Source;
  amount : N;
  now : N
}.

Section Windows.

(** The fixed durations of the daily and the weekly bucket; the spec does
    not give their values. *)
Variable day_len week_len : N.
Variable limits : Limits.

(** Modelled from the spec: buckets of a fixed size anchored at the global
    epoch; the start of the bucket that holds [now]. *)
Definition bucket_start (len now : N) : N := (now - now mod len)%N.

(** Modelled from the spec: load or initialise a window's counter.  A
    missing record is a window with nothing consumed; a record whose
    [window_start] predates the current bucket is reset to zero. *)
Definition load (len now : N) (stored : option SpendingWindow) : SpendingWindow :=
  let start := bucket_start len now in
  match stored with
  | None => mkWindow start 0
  | Some win =>
      if (window_start win <? start)%N then mkWindow start 0 else win
  end.

Definition add_consumed (win : SpendingWindow) (amount : N) : SpendingWindow :=
  mkWindow (window_start win) (consumed win + amount).

(** Modelled from the spec: [check_and_consume(amount, now)] of the
    spending-limit tracker.  Check and consumption are one step: it fails
    with [LimitExceeded] when [consumed + amount] would exceed either cap,
    and otherwise increments both counters. *)
Definition check_and_consume (st : Ephemeral) (amount now : N) : Outcome :=
  let d := load day_len now (daily st) in
  let wk := load week_len now (weekly st) in
  if (daily_limit limits <? consumed d + amount)%N
     || (weekly_limit limits <? consumed wk + amount)%N
  then Failure LimitExceeded
  else Success (mkEphemeral (Some (add_consumed d amount))
                            (Some (add_consumed wk amount))).

(** Modelled from the spec: a failed invocation commits nothing. *)
Definition commit (st : Ephemeral) (o : Outcome) : Ephemeral :=
  match o with
  | Success st' => st'
  | Failure _ => st
  end.

(** Modelled from the spec: manual and recurring executions go through the
    same [check_and_consume]. *)
Definition execute (st : Ephemeral) (ex : Execution) : Outcome :=
  match source ex with
  | Manual => check_and_consume st (amount ex) (now ex)
  | Recurring => check_and_consume st (amount ex) (now ex)
  end.

(** A sequence of execution attempts: the state they leave and the amounts
    that were released, in order. *)
Fixpoint run (st : Ephemeral) (exs : list Execution) : Ephemeral * list N :=
  match exs with
  | [] => (st, [])
  | ex :: rest =>
      match execute st ex with
      | Success st' =>
          let '(final, released) := run st' rest in
          (final, amount ex :: released)
      | Failure _ => run (commit st (execute st ex)) rest
      end
  end.

(** What has been consumed in the bucket that holds [now], as the next call
    would find it. *)
Definition consumed_daily (st : Ephemeral) (now : N) : N :=
  consumed (load day_len now (daily st)).

Definition consumed_weekly (st : Ephemeral) (now : N) : N :=
  consumed (load week_len now (weekly st)).

Definition total (amounts : list N) : N := foldr N.add 0%N amounts.

End Windows.

End Tracker.

(* --------------------------------------------------------------------- *)
(** ** Sample inputs                                                       *)
(* --------------------------------------------------------------------- *)

(** A decoder to run the parsers on: two payloads and two topics, named by
    short keys in place of their base64 text; everything else fails to
    decode. *)
Definition sample_decode : Decoder :=
  fun s =>
    if (s =? "created")%string then
      Ok (JArray [JString "GA5W"; JString "GD26"; JBigInt 2500])
    else if (s =? "approved")%string then
      Ok (JArray [JString "GB2R"; JNumber (Fin 2); JNumber (Fin 3)])
    else if (s =? "topic:proposal_created")%string then
      Ok (JString "proposal_created")
    else if (s =? "topic:transfer")%string then
      Ok (JString "transfer")
    else Throw (Error "XDR Read Error").

(** The ten event names, in the order the design document lists them. *)
Definition documented_event_names : list string :=
  [ "proposal_created"; "proposal_approved"; "proposal_ready"; "proposal_executed";
    "proposal_rejected"; "signer_added"; "signer_removed"; "role_assigned";
    "config_updated"; "initialized" ].

(** The six proposal states of the design document. *)
Definition documented_states : list string :=
  [ "Pending"; "TimelockActive"; "Ready"; "Executed"; "Rejected"; "Expired" ].

(** The first mock proposal: pending, proposed by [GA5W...7K9L]. *)
Definition proposal_102 : Proposals.Proposal :=
  Proposals.mkProposal 102 "GA5W...7K9L" "GD26L4...Z3X4" "2,500" "XLM"
    "Quarterly server maintenance costs" Proposals.Pending 1 3 "2h ago".

(** A hook whose [rejectProposal] succeeds, and one whose it fails. *)
Definition reject_ok : Z → Result string := fun _ => Ok "7f3a".
Definition reject_fails : Z → Result string :=
  fun _ => Throw (Error "Simulation Failed: unauthorized").

(** A world in which every outside call fails. *)
Definition offline_world : World :=
  {| server_getAccount := fun _ => Throw (Error "Network Error");
     server_simulateTransaction := fun _ => Throw (Error "Network Error");
     assembleTransaction := fun _ _ => Throw (Error "Network Error");
     signTransaction := fun _ => Throw (Error "User declined access");
     TransactionBuilder_fromXDR := fun _ => Throw (Error "XDR Read Error");
     server_sendTransaction := fun _ => Throw (Error "Network Error");
     Address_new := fun _ => Throw (Error "Unsupported address type");
     BigInt_of_string := fun _ => Throw (Error "Cannot convert to a BigInt");
     nativeToScVal := fun _ _ => Throw (Error "invalid type");
     rpc_getLatestLedger := Throw (Error "Failed to fetch");
     rpc_getEvents := fun _ => Throw (Error "Failed to fetch");
     Date_now := 1700000000000;
     Date_toISOString := "2023-11-14T22:13:20.000Z";
     formatBalance := fun s => s;
     parseError := fun e => e |}.

(** Two events: a [proposal_created] with the first sample payload, and one
    whose topic is not a vault event and whose value does not decode. *)
Definition sample_events : list RawEvent :=
  [ mkRawEvent "contract" "119990" (Some "2023-11-14T22:00:00Z") None "0001"
      (Some "0001") None (Some ["topic:proposal_created"]) (Some "created");
    mkRawEvent "contract" "119995" None None "0002"
      (Some "0002") None (Some ["topic:transfer"]) (Some "not base64") ].

(** A world in which every call succeeds, as once the contract is deployed
    and [CONTRACT_ID] is a valid address: addresses resolve, [BigInt]
    accepts the decimal text of an integer and refuses everything else, the
    latest ledger is 120000, and the events call answers with the two
    sample events and a continuation cursor. *)
Definition online_world : World :=
  {| server_getAccount := fun a => Ok (mkAccount a "7" None);
     server_simulateTransaction := fun _ => Ok (SimulationSuccess "footprint");
     assembleTransaction := fun tx _ => Ok ("prepared:" +:+ tx_functionName tx);
     signTransaction := fun xdr => Ok ("signed:" +:+ xdr);
     TransactionBuilder_fromXDR := fun xdr => Ok xdr;
     server_sendTransaction := fun _ => Ok (mkSendResponse "PENDING" "7f3a");
     Address_new := fun a => Ok a;
     BigInt_of_string := fun s =>
       match parseInt10 s with
       | Fin z =>
           if (pretty z =? s)%string then Ok z
           else Throw (Error "Cannot convert to a BigInt")
       | NaN => Throw (Error "Cannot convert to a BigInt")
       end;
     nativeToScVal := fun n ty => Ok (ScInt n ty);
     rpc_getLatestLedger :=
       Ok (JObject [("result", JObject [("sequence", JNumber (Fin 120000))]
                                 "[object Object]")] "[object Object]");
     rpc_getEvents := fun _ =>
       Ok (mkEventsData None
             (Some (mkEventsResult (Some sample_events) (Some "0002")
                                   (Some (JNumber (Fin 120000))))));
     Date_now := 1700000000000;
     Date_toISOString := "2023-11-14T22:13:20.000Z";
     formatBalance := fun s => s;
     parseError := fun e => e |}.

(** A world whose RPC answers, but with nothing: no ledger sequence and no
    events. *)
Definition quiet_world : World :=
  {| server_getAccount := server_getAccount online_world;
     server_simulateTransaction := server_simulateTransaction online_world;
     assembleTransaction := assembleTransaction online_world;
     signTransaction := signTransaction online_world;
     TransactionBuilder_fromXDR := TransactionBuilder_fromXDR online_world;
     server_sendTransaction := server_sendTransaction online_world;
     Address_new := Address_new online_world;
     BigInt_of_string := BigInt_of_string online_world;
     nativeToScVal := nativeToScVal online_world;
     rpc_getLatestLedger := Ok (JObject [] "[object Object]");
     rpc_getEvents := fun _ => Ok (mkEventsData None (Some (mkEventsResult None None None)));
     Date_now := Date_now online_world;
     Date_toISOString := Date_toISOString online_world;
     formatBalance := formatBalance online_world;
     parseError := parseError online_world |}.

(** The scenario of the design document: a daily cap of 1000 (and a weekly
    cap of 5000), days of 86400 seconds and weeks of seven days, and two
    executions of 600 on the same day, one manual and one recurring. *)
Definition scenario_limits : Tracker.Limits := Tracker.mkLimits 1000 5000.

Definition scenario_executions : list Tracker.Execution :=
  [ Tracker.mkExecution Tracker.Manual 600 90000;
    Tracker.mkExecution Tracker.Recurring 600 90500 ].

Definition empty_storage : Tracker.Ephemeral := Tracker.mkEphemeral None None.

(* --------------------------------------------------------------------- *)
(** ** Vocabulary of the statements                                        *)
(* --------------------------------------------------------------------- *)

(** Statements that leave the variable [actor] alone. *)
Definition keeps_actor {A : Type} (m : Eff Parsed A) : Prop :=
  ∀ st, actor (fst (m st)) = actor st.

(** The fields of a proposal other than its status. *)
Definition same_but_status (p p' : Proposals.Proposal) : Prop :=
  Proposals.id p' = Proposals.id p ∧ Proposals.proposer p' = Proposals.proposer p ∧ Proposals.recipient p' = Proposals.recipient p
  ∧ Proposals.amount p' = Proposals.amount p ∧ Proposals.token p' = Proposals.token p ∧ Proposals.memo p' = Proposals.memo p
  ∧ Proposals.approvals p' = Proposals.approvals p ∧ Proposals.threshold p' = Proposals.threshold p
  ∧ Proposals.createdAt p' = Proposals.createdAt p.

(** [latestLedgerData?.result?.sequence ?? '0'] *)
Definition latest_sequence (latestLedgerData : JsVal) : JsVal :=
  coalesce (opt_get (opt_get latestLedgerData "result") "sequence") (JString "0").

(** [data.result?.events ?? []] *)
Definition events_of (data : EventsData) : list RawEvent :=
  default [] (data_result data ≫= res_events).

(** The states of the proposal page: it starts from the built-in list, and
    every event the page reacts to is a step (a click on a row, the detail
    modal closed, a click on a Reject button where one is rendered, the
    confirmation modal cancelled or confirmed).  The wallet may change
    between steps, and a confirmation meets whatever outcome the hook's
    [rejectProposal] has. *)
Inductive reachable : Proposals.State → Prop :=
| page_mounted :
    reachable Proposals.initialState
| row_clicked st prop :
    reachable st → prop ∈ Proposals.proposals st →
    reachable (Proposals.setSelectedProposal (Some prop) st)
| detail_closed st :
    reachable st →
    reachable (Proposals.setSelectedProposal None st)
| reject_clicked st prop isConnected address :
    reachable st → prop ∈ Proposals.proposals st →
    Proposals.rejectButtonShown isConnected address Proposals.currentUserRole prop
    = true →
    reachable (Proposals.handleRejectClick (Proposals.id prop) st)
| reject_cancelled st :
    reachable st →
    reachable (Proposals.setShowRejectModal false st)
| reject_confirmed st rejectProposal reason :
    reachable st →
    reachable (Proposals.handleRejectConfirm rejectProposal reason st).

(** [Number.isSafeInteger]: the integers a JavaScript number holds
    exactly. *)
Definition safe_integer (z : Z) : Prop := Z.abs z ≤ 2 ^ 53 - 1.

(** What C9 says of a [getVaultEvents], for the world [w]. *)
Definition paginates (w : World)
    (getVaultEvents : option string → option Number → Io GetVaultEventsResult)
    : Prop :=
  ∀ (cursor : option string) (limit : option Number) (trace : list Effect),
    let n := default EVENTS_PAGE_SIZE limit in
    ∃ sent page,
      getVaultEvents cursor limit trace = (trace ++ sent, Ok page)
      (* the request: it is sent once the first call has answered, unless
         the latest ledger is needed and has no string form *)
      ∧ (∀ ld, rpc_getLatestLedger w = Ok ld →
           present cursor = true
           ∨ (∃ text, js_String (latest_sequence ld) = Ok text) →
           ∃ params rest,
             sent = RpcGetLatestLedger :: RpcGetEvents params :: rest
             ∧ (∀ p, RpcGetEvents p ∉ rest)
             ∧ pagination_limit params = Math_min n (Fin 200)
             ∧ (∀ k, n = Fin k → pagination_limit params = Fin (Z.min k 200))
             ∧ (present cursor = false →
                (∀ text L, js_String (latest_sequence ld) = Ok text →
                   parseInt10 text = Fin L → safe_integer L →
                   startLedger params = Some (pretty (Z.max 1 (L - 50000))))
                ∧ (∀ L, latest_sequence ld = JNumber (Fin L) → safe_integer L →
                     startLedger params = Some (pretty (Z.max 1 (L - 50000))))))
      (* the answer, when the request is answered without error *)
      ∧ (∀ params data,
           RpcGetEvents params ∈ sent →
           rpc_getEvents w params = Ok data →
           data_error data = None →
           (hasMore page = true
            ↔ present (data_result data ≫= res_cursor) = true
              ∧ n = Fin (Z.of_nat (length (events_of data)))))
      (* and otherwise [hasMore] is [false] *)
      ∧ (hasMore page = true →
         ∃ params data,
           RpcGetEvents params ∈ sent
           ∧ rpc_getEvents w params = Ok data
           ∧ data_error data = None).

(** The text the two revisions of [getVaultEvents] share; they differ in
    how the activities are made from the events. *)
Definition getVaultEvents_with (w : World)
    (activities_of : list RawEvent → list VaultActivity)
    (cursor : option string) (limit : option Number) : Io GetVaultEventsResult :=
  let limit := default EVENTS_PAGE_SIZE limit in
  try_catch (
    let! latestLedgerData := perform RpcGetLatestLedger (rpc_getLatestLedger w) in
    let latestLedger := latest_sequence latestLedgerData in
    let! params := lift (events_params cursor limit latestLedger) in
    let! data := perform (RpcGetEvents params) (rpc_getEvents w params) in
    match data_error data with
    | Some message => throw (Error (or_else message "getEvents failed"))
    | None =>
        let events := events_of data in
        let resultCursor := data_result data ≫= res_cursor in
        let hasMore :=
          present resultCursor && Number_strict_eq (Fin (Z.of_nat (length events))) limit in
        ret (mkEventsPage (activities_of events)
               (coalesce (default JUndefined (data_result data ≫= res_latestLedger))
                         latestLedger)
               resultCursor hasMore)
    end)%eff
    (fun e => emit (ConsoleError "getVaultEvents") ;; ret (events_fallback))%eff.



(** A decoder whose payloads hold a tuple that is too short, a plain map,
    a bare address, a tuple whose second element is an object with an
    [address] method that throws, and a tuple whose third element is a map
    with the key [toString], which [String()] cannot convert. *)
Definition odd_decode : Decoder :=
  fun s =>
    if (s =? "short")%string then
      Ok (JArray [JString "GA5W"; JString "GD26"])
    else if (s =? "map")%string then
      Ok (JObject [("address", JString "GC7T"); ("amount", JBigInt 5)] "[object Object]")
    else if (s =? "address")%string then
      Ok (JString "GB2R")
    else if (s =? "broken")%string then
      Ok (JArray [JString "GA5W";
                  JObject [("address",
                            JFunction (Throw (Error "address is not available"))
                                      "function address() { [native code] }")]
                          "[object Object]";
                  JBigInt 2500])
    else if (s =? "unprintable")%string then
      Ok (JArray [JString "GA5W"; JString "GD26";
                  JObject [("toString", JNumber (Fin 5))] "[object Object]"])
    else Throw (Error "XDR Read Error").

(** A world like the online one, in which accounts come with balances. *)
Definition funded_world : World :=
  {| server_getAccount := fun a =>
       Ok (mkAccount a "7"
             (Some [ mkBalance "credit_alphanum4" "10";
                     mkBalance "native" "1250.5";
                     mkBalance "native" "3" ]));
     server_simulateTransaction := server_simulateTransaction online_world;
     assembleTransaction := assembleTransaction online_world;
     signTransaction := signTransaction online_world;
     TransactionBuilder_fromXDR := TransactionBuilder_fromXDR online_world;
     server_sendTransaction := server_sendTransaction online_world;
     Address_new := Address_new online_world;
     BigInt_of_string := BigInt_of_string online_world;
     nativeToScVal := nativeToScVal online_world;
     rpc_getLatestLedger := rpc_getLatestLedger online_world;
     rpc_getEvents := rpc_getEvents online_world;
     Date_now := Date_now online_world;
     Date_toISOString := Date_toISOString online_world;
     formatBalance := formatBalance online_world;
     parseError := parseError online_world |}.

(** A world like the online one, except that every simulation reports an
    error of the contract, and one whose submissions are answered with the
    status ["ERROR"]. *)
Definition stalled_world : World :=
  {| server_getAccount := server_getAccount online_world;
     server_simulateTransaction := fun _ =>
       Ok (SimulationError "HostError: Error(Contract, #3)");
     assembleTransaction := assembleTransaction online_world;
     signTransaction := signTransaction online_world;
     TransactionBuilder_fromXDR := TransactionBuilder_fromXDR online_world;
     server_sendTransaction := server_sendTransaction online_world;
     Address_new := Address_new online_world;
     BigInt_of_string := BigInt_of_string online_world;
     nativeToScVal := nativeToScVal online_world;
     rpc_getLatestLedger := rpc_getLatestLedger online_world;
     rpc_getEvents := rpc_getEvents online_world;
     Date_now := Date_now online_world;
     Date_toISOString := Date_toISOString online_world;
     formatBalance := formatBalance online_world;
     parseError := parseError online_world |}.

Definition refusing_world : World :=
  {| server_getAccount := server_getAccount online_world;
     server_simulateTransaction := server_simulateTransaction online_world;
     assembleTransaction := assembleTransaction online_world;
     signTransaction := signTransaction online_world;
     TransactionBuilder_fromXDR := TransactionBuilder_fromXDR online_world;
     server_sendTransaction := fun _ => Ok (mkSendResponse "ERROR" "9c1e");
     Address_new := Address_new online_world;
     BigInt_of_string := BigInt_of_string online_world;
     nativeToScVal := nativeToScVal online_world;
     rpc_getLatestLedger := rpc_getLatestLedger online_world;
     rpc_getEvents := rpc_getEvents online_world;
     Date_now := Date_now online_world;
     Date_toISOString := Date_toISOString online_world;
     formatBalance := formatBalance online_world;
     parseError := parseError online_world |}.

(** An expression in [Io] without effect: it leaves every trace as it is
    and has the one outcome [r]. *)
Definition quiet {A : Type} (m : Io A) (r : Result A) : Prop :=
  ∀ t, m t = (t, r).

Definition effect_free {A : Type} (m : Io A) : Prop := ∃ r, quiet m r.

(** The arguments of an invocation, evaluated in order as [submit] does. *)
Definition collect (args : list (Io ScArg)) : Io (list ScArg) :=
  fold_right (fun a rest => let! x := a in let! xs := rest in ret (x :: xs))%eff
             (ret []) args.

(** How the pipeline goes on once the transaction [tx] is built: the
    effects after the simulation call, and the outcome. *)
Inductive after_build (w : World) (tx : Tx) : list Effect → Result SendResponse → Prop :=
| simulation_throws e :
    server_simulateTransaction w tx = Throw e →
    after_build w tx [] (Throw e)
| simulation_refuses msg :
    server_simulateTransaction w tx = Ok (SimulationError msg) →
    after_build w tx [] (Throw (Error ("Simulation Failed: " +:+ msg)))
| assembly_throws data e :
    server_simulateTransaction w tx = Ok (SimulationSuccess data) →
    assembleTransaction w tx (SimulationSuccess data) = Throw e →
    after_build w tx [] (Throw e)
| signature_throws data preparedXdr e :
    server_simulateTransaction w tx = Ok (SimulationSuccess data) →
    assembleTransaction w tx (SimulationSuccess data) = Ok preparedXdr →
    signTransaction w preparedXdr = Throw e →
    after_build w tx [SignTransaction preparedXdr] (Throw e)
| signed_unreadable data preparedXdr signedXdr e :
    server_simulateTransaction w tx = Ok (SimulationSuccess data) →
    assembleTransaction w tx (SimulationSuccess data) = Ok preparedXdr →
    signTransaction w preparedXdr = Ok signedXdr →
    TransactionBuilder_fromXDR w signedXdr = Throw e →
    after_build w tx [SignTransaction preparedXdr] (Throw e)
| transaction_sent data preparedXdr signedXdr signedTx :
    server_simulateTransaction w tx = Ok (SimulationSuccess data) →
    assembleTransaction w tx (SimulationSuccess data) = Ok preparedXdr →
    signTransaction w preparedXdr = Ok signedXdr →
    TransactionBuilder_fromXDR w signedXdr = Ok signedTx →
    after_build w tx [SignTransaction preparedXdr; SendTransaction signedTx]
      (server_sendTransaction w signedTx).

(** The runs of [submit] for the caller [a]: the effects, and the outcome. *)
Inductive pipeline (w : World) (a functionName : string) (args : list (Io ScArg))
  : list Effect → Result SendResponse → Prop :=
| account_throws e :
    server_getAccount w a = Throw e →
    pipeline w a functionName args [GetAccount a] (Throw e)
| contract_unreadable account e :
    server_getAccount w a = Ok account →
    Address_new w CONTRACT_ID = Throw e →
    pipeline w a functionName args [GetAccount a] (Throw e)
| argument_throws account contractAddress e :
    server_getAccount w a = Ok account →
    Address_new w CONTRACT_ID = Ok contractAddress →
    quiet (collect args) (Throw e) →
    pipeline w a functionName args [GetAccount a] (Throw e)
| simulated account contractAddress scargs rest r :
    server_getAccount w a = Ok account →
    Address_new w CONTRACT_ID = Ok contractAddress →
    quiet (collect args) (Ok scargs) →
    after_build w
      (mkTx account "100" NETWORK_PASSPHRASE 30 contractAddress functionName scargs)
      rest r →
    pipeline w a functionName args
      (GetAccount a
       :: SimulateTransaction
            (mkTx account "100" NETWORK_PASSPHRASE 30 contractAddress functionName
                  scargs)
       :: rest) r.

(** The calls of the hook that submit a transaction, each with the contract
    function it invokes, whether it inspects the status of the response, and
    the arguments it passes, given the caller's address. *)
Inductive submitting_call (w : World) (isConnected : bool) (address : option string)
  : string → bool → (string → list (Io ScArg)) → Io string → Prop :=
| submits_proposeTransfer_1 recipient token amount memo :
    submitting_call w isConnected address "propose_transfer" true
      (fun a =>
         [ address_arg w a; address_arg w recipient; address_arg w token;
           (let! n := lift (BigInt_of_string w amount) in
            lift (nativeToScVal w n None))%eff;
           ret (ScSymbol memo) ])
      (Rev1.proposeTransfer w isConnected address recipient token amount memo)
| submits_rejectProposal_1 proposalId :
    submitting_call w isConnected address "reject_proposal" true
      (fun a => [ address_arg w a; lift (nativeToScVal w proposalId (Some "u64")) ])
      (Rev1.rejectProposal w isConnected address proposalId)
| submits_proposeTransfer_2 recipient token amount memo :
    submitting_call w isConnected address "propose_transfer" false
      (fun a =>
         [ address_arg w a; address_arg w recipient; address_arg w token;
           (let! n := lift (BigInt_of_string w amount) in
            lift (nativeToScVal w n None))%eff;
           ret (ScSymbol memo) ])
      (Rev2.proposeTransfer w isConnected address recipient token amount memo)
| submits_rejectProposal_2 proposalId :
    submitting_call w isConnected address "reject_proposal" false
      (fun a => [ address_arg w a; lift (nativeToScVal w proposalId (Some "u64")) ])
      (Rev2.rejectProposal w isConnected address proposalId)
| submits_executeProposal proposalId :
    submitting_call w isConnected address "execute_proposal" true
      (fun a => [ address_arg w a; lift (nativeToScVal w proposalId (Some "u64")) ])
      (Rev2.executeProposal w isConnected address proposalId)
| submits_schedulePayment params :
    submitting_call w isConnected address "schedule_payment" false
      (fun a =>
         [ address_arg w a;
           address_arg w (Rev2.cp_recipient params);
           address_arg w (Rev2.cp_token params);
           (let! n := lift (BigInt_of_string w (Rev2.cp_amount params)) in
            lift (nativeToScVal w n None))%eff;
           ret (ScSymbol (Rev2.cp_memo params));
           lift (nativeToScVal w (Rev2.cp_interval params) (Some "u64")) ])
      (Rev2.schedulePayment w isConnected address params)
| submits_executeRecurringPayment paymentId :
    submitting_call w isConnected address "execute_recurring_payment" false
      (fun a =>
         [ address_arg w a;
           (let! n := lift (BigInt_of_string w paymentId) in
            lift (nativeToScVal w n (Some "u64")))%eff ])
      (Rev2.executeRecurringPayment w isConnected address paymentId)
| submits_cancelRecurringPayment paymentId :
    submitting_call w isConnected address "cancel_recurring_payment" false
      (fun a =>
         [ address_arg w a;
           (let! n := lift (BigInt_of_string w paymentId) in
            lift (nativeToScVal w n (Some "u64")))%eff ])
      (Rev2.cancelRecurringPayment w isConnected address paymentId)
| submits_pauseRecurringPayment paymentId :
    submitting_call w isConnected address "pause_recurring_payment" false
      (fun a =>
         [ address_arg w a;
           (let! n := lift (BigInt_of_string w paymentId) in
            lift (nativeToScVal w n (Some "u64")))%eff ])
      (Rev2.pauseRecurringPayment w isConnected address paymentId).

(** What a submitting call makes of the outcome of the pipeline: errors go
    through [parseError]; a response whose status is not ["PENDING"] is an
    error for the calls that inspect it; otherwise the hash is returned. *)
Definition finish (w : World) (inspects : bool) (r : Result SendResponse)
  : Result string :=
  match r with
  | Throw e => Throw (parseError w e)
  | Ok response =>
      if inspects && negb (send_status response =? "PENDING")%string
      then Throw (parseError w (Error "Transaction submission failed"))
      else Ok (hash response)
  end.

(* ===================================================================== *)
(** * Part II. Statements                                                  *)
(* ===================================================================== *)

(* --------------------------------------------------------------------- *)
(** ** Numbers and their decimal text                                      *)
(* --------------------------------------------------------------------- *)

Lemma small_N_cases (d : N) :
  (d < 10)%N →
  d = 0%N ∨ d = 1%N ∨ d = 2%N ∨ d = 3%N ∨ d = 4%N ∨ d = 5%N ∨ d = 6%N
  ∨ d = 7%N ∨ d = 8%N ∨ d = 9%N.
Proof. intros Hd. lia. Qed.

Lemma digit_of_pretty_N_char (d : N) :
  (d < 10)%N → digit_of (pretty_N_char d) = Some (Z.of_N d).
Proof.
  intros Hd. by destruct (small_N_cases d Hd) as [-> | [-> | [-> | [-> | [-> | [-> |
    [-> | [-> | [-> | ->]]]]]]]]].
Qed.

(** The text of a positive number starts with a digit. *)
Lemma pretty_N_go_head (x : N) :
  ∀ s, (0 < x)%N →
       ∃ d rest, (d < 10)%N ∧ pretty_N_go x s = String (pretty_N_char d) rest.
Proof.
  induction (N.lt_wf_0 x) as [x _ IH]. intros s Hx.
  rewrite pretty_N_go_step by done.
  destruct (decide (x `div` 10 = 0)%N) as [H0 | Hpos].
  - rewrite H0, pretty_N_go_0. exists (x `mod` 10)%N, s.
    split; [by apply N.mod_lt | done].
  - assert (Hlt : (x `div` 10 < x)%N) by (apply N.div_lt; lia).
    assert (Hq : (0 < x `div` 10)%N) by (by apply N.neq_0_lt_0).
    by apply IH.
Qed.

(** Reading the text of a positive number gives the number back. *)
Lemma read_digits_pretty_N_go (x : N) :
  ∀ s, (0 < x)%N →
       read_digits None (pretty_N_go x s) = read_digits (Some (Z.of_N x)) s.
Proof.
  induction (N.lt_wf_0 x) as [x _ IH]. intros s Hx.
  rewrite pretty_N_go_step by done.
  assert (Hmod : (x `mod` 10 < 10)%N) by (by apply N.mod_lt).
  assert (Hx10 : Z.of_N x = 10 * Z.of_N (x `div` 10) + Z.of_N (x `mod` 10)).
  { rewrite (N.div_mod x 10) at 1 by done. lia. }
  destruct (decide (x `div` 10 = 0)%N) as [H0 | Hpos].
  - rewrite H0 in *. rewrite pretty_N_go_0. cbn [read_digits].
    rewrite digit_of_pretty_N_char by done. cbn [default]. f_equal. f_equal. lia.
  - assert (Hlt : (x `div` 10 < x)%N) by (apply N.div_lt; lia).
    assert (Hq : (0 < x `div` 10)%N) by (by apply N.neq_0_lt_0).
    rewrite IH by done.
    cbn [read_digits]. rewrite digit_of_pretty_N_char by done.
    cbn [default]. by rewrite Hx10.
Qed.

Lemma parseInt10_digit_led (d : N) (rest : string) :
  (d < 10)%N →
  parseInt10 (String (pretty_N_char d) rest)
  = match read_digits None (String (pretty_N_char d) rest) with
    | Some n => Fin n
    | None => NaN
    end.
Proof.
  intros Hd. by destruct (small_N_cases d Hd) as [-> | [-> | [-> | [-> | [-> | [-> |
    [-> | [-> | [-> | ->]]]]]]]]].
Qed.

Lemma parseInt10_pretty_N_go (x : N) :
  (0 < x)%N → parseInt10 (pretty_N_go x "") = Fin (Z.of_N x).
Proof.
  intros Hx. destruct (pretty_N_go_head x "" Hx) as (d & rest & Hd & Hs).
  rewrite Hs, parseInt10_digit_led, <- Hs by done.
  by rewrite read_digits_pretty_N_go.
Qed.

(** [parseInt(String(z), 10)] is [z]. *)
Lemma parseInt10_pretty (z : Z) : parseInt10 (pretty z) = Fin z.
Proof.
  destruct z as [| p | p]; [reflexivity | |].
  - change (pretty (Z.pos p)) with (pretty_N_go (N.pos p) "").
    by rewrite parseInt10_pretty_N_go.
  - change (pretty (Z.neg p)) with (String "-"%char (pretty_N_go (N.pos p) "")).
    unfold parseInt10.
    change (skip_spaces (String "-"%char (pretty_N_go (N.pos p) "")))
      with (String "-"%char (pretty_N_go (N.pos p) "")).
    cbv iota. by rewrite read_digits_pretty_N_go.
Qed.

(* --------------------------------------------------------------------- *)
(** ** The decoders                                                        *)
(* --------------------------------------------------------------------- *)

(** Settle a closed decidable proposition by evaluating its decision
    procedure. *)
Ltac by_evaluation :=
  match goal with
  | |- ?P => apply (bool_decide_unpack P); vm_compute; exact I
  end.

Lemma includes_elem_of (arr : list string) (s : string) :
  includes arr s = true ↔ s ∈ arr.
Proof.
  unfold includes. rewrite existsb_exists. split.
  - intros (x & Hin & Heq). apply String.eqb_eq in Heq. subst x.
    by apply list_elem_of_In.
  - intros Hin. exists s. split; [by apply list_elem_of_In | apply String.eqb_refl].
Qed.

Lemma EVENT_SYMBOLS_documented (s : string) :
  s ∈ EVENT_SYMBOLS ↔ s ∈ documented_event_names.
Proof.
  unfold EVENT_SYMBOLS, documented_event_names.
  rewrite !elem_of_cons, !elem_of_nil. tauto.
Qed.

Lemma unknown_not_documented : "unknown" ∉ documented_event_names.
Proof. by_evaluation. Qed.

Lemma getEventTypeFromTopic_cases (decode : Decoder) (topic : string) :
  (∃ s, decode topic = Ok (JString s) ∧ s ∈ EVENT_SYMBOLS
        ∧ getEventTypeFromTopic decode topic = s)
  ∨ ((¬ ∃ s, decode topic = Ok (JString s) ∧ s ∈ EVENT_SYMBOLS)
     ∧ getEventTypeFromTopic decode topic = "unknown").
Proof.
  unfold getEventTypeFromTopic.
  destruct (decode topic) as [native | e] eqn:Hd.
  - destruct native;
      try (right; split; [intros (s' & Hs & _); discriminate | reflexivity]).
    destruct (includes EVENT_SYMBOLS s) eqn:Hi.
    + left. exists s. by rewrite <- includes_elem_of.
    + right. split; [| reflexivity].
      intros (s' & Hs & Hin). injection Hs as <-.
      apply includes_elem_of in Hin. congruence.
  - right. split; [intros (s' & Hs & _); discriminate | reflexivity].
Qed.

(** C6. The event types the hook recognises are exactly the ten documented
    names: a topic that decodes to one of them is reported under that name,
    every other topic (another string, another kind of value, or one that
    does not decode) is reported as ['unknown'], and so the reported type is
    one of the ten exactly when the topic decodes to it. *)
Theorem getEventTypeFromTopic_recognises_documented (decode : Decoder) (topic : string) :
  (∀ s, s ∈ EVENT_SYMBOLS ↔ s ∈ documented_event_names)
  ∧ length EVENT_SYMBOLS = 10%nat
  ∧ (∀ s, decode topic = Ok (JString s) → s ∈ documented_event_names →
          getEventTypeFromTopic decode topic = s)
  ∧ ((¬ ∃ s, decode topic = Ok (JString s) ∧ s ∈ documented_event_names) →
     getEventTypeFromTopic decode topic = "unknown")
  ∧ (∀ name, name ∈ documented_event_names →
       (getEventTypeFromTopic decode topic = name
        ↔ decode topic = Ok (JString name))).
Proof.
  split; [exact EVENT_SYMBOLS_documented |].
  split; [reflexivity |].
  pose proof (getEventTypeFromTopic_cases decode topic) as Hc.
  split; [| split].
  - intros s Hd Hin.
    destruct Hc as [(s' & Hd' & _ & Hr) | (Hno & _)].
    + congruence.
    + exfalso. apply Hno. exists s. by rewrite EVENT_SYMBOLS_documented.
  - intros Hno.
    destruct Hc as [(s' & Hd' & Hin & _) | (_ & Hr)]; [| exact Hr].
    exfalso. apply Hno. exists s'. by rewrite <- EVENT_SYMBOLS_documented.
  - intros name Hin. split.
    + intros Hr.
      destruct Hc as [(s' & Hd' & _ & Hr') | (_ & Hr')].
      * rewrite Hr in Hr'. by subst s'.
      * exfalso. apply unknown_not_documented. rewrite Hr in Hr'. by subst name.
    + intros Hd.
      destruct Hc as [(s' & Hd' & _ & Hr') | (Hno & _)].
      * congruence.
      * exfalso. apply Hno. exists name. by rewrite EVENT_SYMBOLS_documented.
Qed.

Lemma getEventTypeFromTopic_recognises_documented_witness :
  getEventTypeFromTopic sample_decode "topic:proposal_created" = "proposal_created"
  ∧ getEventTypeFromTopic sample_decode "topic:transfer" = "unknown".
Proof.
  split.
  - destruct (getEventTypeFromTopic_recognises_documented
                sample_decode "topic:proposal_created") as (_ & _ & Hknown & _).
    apply Hknown; [reflexivity | by_evaluation].
  - destruct (getEventTypeFromTopic_recognises_documented
                sample_decode "topic:transfer") as (_ & _ & _ & Hother & _).
    apply Hother.
    intros (s & Hd & Hin). vm_compute in Hd. injection Hd as <-.
    revert Hin. by_evaluation.
Defined.

Lemma Rev1_parseEventValue_undecodable (decode : Decoder) (x : string)
      (ty : VaultEventType) (e : JsError) :
  decode x = Throw e →
  Rev1.parseEventValue decode x ty = mkParsed "" (<["parseError" := JBool true]> ∅).
Proof.
  intros Hd. unfold Rev1.parseEventValue, try_parse, try_catch, bind, lift.
  rewrite Hd. reflexivity.
Qed.

Lemma Rev2_parseEventValue_undecodable (decode : Decoder) (x : string)
      (ty : VaultEventType) (e : JsError) :
  decode x = Throw e →
  Rev2.parseEventValue decode x ty = mkParsed "" (<["parseError" := JBool true]> ∅).
Proof.
  intros Hd. unfold Rev2.parseEventValue, try_parse, try_catch, bind, lift.
  rewrite Hd. reflexivity.
Qed.

(** A [try] whose handler returns always returns. *)
Lemma try_catch_returns {S A : Type} (body : Eff S A) (handler : JsError → Eff S A) :
  (∀ e s, ∃ s' a, handler e s = (s', Ok a)) →
  ∀ s, ∃ s' a, try_catch body handler s = (s', Ok a).
Proof.
  intros Hh s. unfold try_catch.
  destruct (body s) as [s' [a | e]]; [by exists s', a | apply Hh].
Qed.

Lemma Rev1_getVaultEvents_returns (decode : Decoder) (w : World)
      (cursor : option string) (limit : option Number) (trace : list Effect) :
  ∃ trace' page, Rev1.getVaultEvents decode w cursor limit trace = (trace', Ok page).
Proof.
  unfold Rev1.getVaultEvents. apply try_catch_returns.
  intros e s. by eexists _, _.
Qed.

Lemma Rev2_getVaultEvents_returns (decode : Decoder) (w : World)
      (cursor : option string) (limit : option Number) (trace : list Effect) :
  ∃ trace' page, Rev2.getVaultEvents decode w cursor limit trace = (trace', Ok page).
Proof.
  unfold Rev2.getVaultEvents. apply try_catch_returns.
  intros e s. by eexists _, _.
Qed.

(** C10. The event decoders are total.  On a string that does not decode,
    [getEventTypeFromTopic] returns ['unknown'] and [parseEventValue] (in
    both revisions) returns the empty actor with [details.parseError] set to
    [true] and nothing else; and [getVaultEvents], which runs them over the
    event log, returns a page whatever the decoder does. *)
Theorem decoders_total (decode : Decoder) (x : string) (ty : VaultEventType) :
  (∀ e, decode x = Throw e →
     getEventTypeFromTopic decode x = "unknown"
     ∧ Rev1.parseEventValue decode x ty
       = mkParsed "" (<["parseError" := JBool true]> ∅)
     ∧ Rev2.parseEventValue decode x ty
       = mkParsed "" (<["parseError" := JBool true]> ∅))
  ∧ (∀ w cursor limit trace,
       (∃ trace' page,
          Rev1.getVaultEvents decode w cursor limit trace = (trace', Ok page))
       ∧ (∃ trace' page,
          Rev2.getVaultEvents decode w cursor limit trace = (trace', Ok page))).
Proof.
  split.
  - intros e Hd. split; [| split].
    + unfold getEventTypeFromTopic. by rewrite Hd.
    + by eapply Rev1_parseEventValue_undecodable.
    + by eapply Rev2_parseEventValue_undecodable.
  - intros w cursor limit trace. split.
    + apply Rev1_getVaultEvents_returns.
    + apply Rev2_getVaultEvents_returns.
Qed.

Lemma decoders_total_witness :
  getEventTypeFromTopic sample_decode "not base64" = "unknown"
  ∧ actor (Rev1.parseEventValue sample_decode "not base64" "proposal_created") = ""
  ∧ details (Rev2.parseEventValue sample_decode "not base64" "proposal_created")
      !! "parseError" = Some (JBool true).
Proof.
  destruct (decoders_total sample_decode "not base64" "proposal_created")
    as [Hfail _].
  destruct (Hfail (Error "XDR Read Error") eq_refl) as (Htype & Hrev1 & Hrev2).
  split; [exact Htype |].
  split; [by rewrite Hrev1 | by rewrite Hrev2].
Defined.

Lemma addressToNative_string (s : string) : addressToNative (JString s) = Ok s.
Proof. reflexivity. Qed.

Lemma keeps_actor_bind {A B : Type} (m : Eff Parsed A) (k : A → Eff Parsed B) :
  keeps_actor m → (∀ x, keeps_actor (k x)) → keeps_actor (bind m k).
Proof.
  intros Hm Hk st. unfold bind. specialize (Hm st).
  destruct (m st) as [st' [x | e]]; cbn in *; [| exact Hm].
  by rewrite Hk.
Qed.

Lemma keeps_actor_lift {A : Type} (r : Result A) : keeps_actor (lift r).
Proof. by intros st. Qed.

Lemma keeps_actor_ret {A : Type} (x : A) : keeps_actor (ret x).
Proof. by intros st. Qed.

Lemma keeps_actor_get : keeps_actor get.
Proof. by intros st. Qed.

Lemma keeps_actor_set_detail (k : string) (v : JsVal) : keeps_actor (set_detail k v).
Proof. by intros st. Qed.

Lemma keeps_actor_if {A : Type} (c : bool) (m1 m2 : Eff Parsed A) :
  keeps_actor m1 → keeps_actor m2 → keeps_actor (if c then m1 else m2).
Proof. by destruct c. Qed.

Create HintDb keeps discriminated.
#[local] Hint Resolve keeps_actor_lift keeps_actor_ret keeps_actor_get
  keeps_actor_set_detail : keeps.

Ltac keeps_actor_tac :=
  repeat first
    [ apply keeps_actor_if
    | apply keeps_actor_bind; [| intros ?]
    | progress unfold skip
    | solve [auto with keeps] ].

(** The [catch] of the parsers leaves [actor] as the [try] made it. *)
Lemma try_parse_actor (body : Stmt) :
  actor (try_parse body) = actor (fst (body (mkParsed "" ∅))).
Proof.
  unfold try_parse, try_catch.
  by destruct (body (mkParsed "" ∅)) as [st [[] | e]].
Qed.

(** After [actor = a], statements that keep [actor] leave it at [a]. *)
Lemma actor_after_set (r : Result string) (a : string) (rest : Stmt) (st : Parsed) :
  r = Ok a → keeps_actor rest →
  actor (fst (bind (bind (lift r) set_actor) (fun _ => rest) st)) = a.
Proof.
  intros -> Hrest. unfold bind, lift, set_actor, modify. cbn.
  by rewrite Hrest.
Qed.

Lemma Rev1_actor_of_tuple (decode : Decoder) (x : string) (ty : VaultEventType)
      (vec : list JsVal) (a : string) :
  decode x = Ok (JArray vec) →
  addressToNative (index vec 0) = Ok a →
  actor (Rev1.parseEventValue decode x ty) = a.
Proof.
  intros Hd Ha. unfold Rev1.parseEventValue. rewrite try_parse_actor.
  unfold bind at 1. unfold lift at 1. rewrite Hd. cbv beta iota.
  apply actor_after_set; [exact Ha |]. keeps_actor_tac.
Qed.

Lemma Rev2_actor_of_tuple (decode : Decoder) (x : string) (ty : VaultEventType)
      (vec : list JsVal) (a : string) :
  decode x = Ok (JArray vec) →
  addressToNative (index vec 0) = Ok a →
  actor (Rev2.parseEventValue decode x ty) = a.
Proof.
  intros Hd Ha. unfold Rev2.parseEventValue. rewrite try_parse_actor.
  unfold bind at 1. unfold lift at 1. rewrite Hd. cbv beta iota.
  apply actor_after_set; [exact Ha |]. keeps_actor_tac.
Qed.

(** Run a parser on a payload that decodes to a tuple of at least [n]
    elements whose first element converts to an address. *)
Ltac run_parser Hd Hlen Ha :=
  unfold Rev1.parseEventValue, Rev2.parseEventValue, try_parse, try_catch,
    bind, lift, set_actor, set_detail, skip, modify, get, ret;
  apply Nat.leb_le in Hlen; rewrite Hd; cbv beta iota; rewrite Ha, Hlen; cbn.

Lemma Rev1_created_details (decode : Decoder) (x : string) (vec : list JsVal)
      (a r : string) (amt : JsVal) :
  decode x = Ok (JArray vec) → (3 ≤ length vec)%nat →
  addressToNative (index vec 0) = Ok a →
  addressToNative (index vec 1) = Ok r →
  amount_string (index vec 2) = Ok amt →
  details (Rev1.parseEventValue decode x "proposal_created")
  = <["amount" := amt]>
      (<["recipient" := JString r]> (<["proposer" := JString a]> ∅)).
Proof. intros Hd Hlen Ha Hr Hamt. run_parser Hd Hlen Ha. by rewrite Hr, Hamt. Qed.

Lemma Rev2_created_details (decode : Decoder) (x : string) (vec : list JsVal)
      (a r : string) (amt : JsVal) :
  decode x = Ok (JArray vec) → (3 ≤ length vec)%nat →
  addressToNative (index vec 0) = Ok a →
  addressToNative (index vec 1) = Ok r →
  amount_string (index vec 2) = Ok amt →
  details (Rev2.parseEventValue decode x "proposal_created")
  = <["amount" := amt]>
      (<["recipient" := JString r]> (<["proposer" := JString a]> ∅)).
Proof. intros Hd Hlen Ha Hr Hamt. run_parser Hd Hlen Ha. by rewrite Hr, Hamt. Qed.

Lemma Rev1_approved_details (decode : Decoder) (x : string) (vec : list JsVal)
      (a : string) :
  decode x = Ok (JArray vec) → (3 ≤ length vec)%nat →
  addressToNative (index vec 0) = Ok a →
  details (Rev1.parseEventValue decode x "proposal_approved")
  = <["threshold" := index vec 2]> (<["approval_count" := index vec 1]> ∅).
Proof. intros Hd Hlen Ha. by run_parser Hd Hlen Ha. Qed.

Lemma Rev2_approved_details (decode : Decoder) (x : string) (vec : list JsVal)
      (a : string) :
  decode x = Ok (JArray vec) → (3 ≤ length vec)%nat →
  addressToNative (index vec 0) = Ok a →
  details (Rev2.parseEventValue decode x "proposal_approved")
  = <["threshold" := index vec 2]> (<["approval_count" := index vec 1]> ∅).
Proof. intros Hd Hlen Ha. by run_parser Hd Hlen Ha. Qed.

Lemma index_lookup (vec : list JsVal) (i : nat) :
  (i < length vec)%nat → vec !! i = Some (index vec i).
Proof.
  intros Hlt. unfold index.
  destruct (lookup_lt_is_Some_2 vec i Hlt) as [v Hv]. by rewrite Hv.
Qed.

(** C2. When the value of an event decodes to a tuple, [parseEventValue]
    (in both revisions) reports as [actor] the first element of the tuple
    read as an address, which is the element itself when it is a string, as
    decoded addresses are.  For [proposal_created] with at least three
    elements it reports [proposer] = element 0, [recipient] = element 1 read
    as an address, and [amount] = element 2 rendered as a string, provided
    both conversions return, as they do for the addresses and integers the
    contract emits (the decimal text, for an integer); for
    [proposal_approved] with at least three elements it reports
    [approval_count] = element 1 and [threshold] = element 2. *)
Theorem parseEventValue_reports_tuple_fields
        (decode : Decoder) (x : string) (vec : list JsVal) (a : string) :
  decode x = Ok (JArray vec) →
  addressToNative (index vec 0) = Ok a →
  (∀ s, index vec 0 = JString s → a = s)
  ∧ (∀ ty, actor (Rev1.parseEventValue decode x ty) = a
           ∧ actor (Rev2.parseEventValue decode x ty) = a)
  ∧ ((3 ≤ length vec)%nat →
     ∀ r amt, addressToNative (index vec 1) = Ok r →
       amount_string (index vec 2) = Ok amt →
       (∀ s, index vec 1 = JString s → r = s)
       ∧ (∀ n, index vec 2 = JBigInt n → amt = JString (pretty n))
       ∧ (∀ d, d = details (Rev1.parseEventValue decode x "proposal_created")
               ∨ d = details (Rev2.parseEventValue decode x "proposal_created") →
            d !! "proposer" = Some (JString a)
            ∧ d !! "recipient" = Some (JString r)
            ∧ d !! "amount" = Some amt))
  ∧ ((3 ≤ length vec)%nat →
     ∀ d, d = details (Rev1.parseEventValue decode x "proposal_approved")
          ∨ d = details (Rev2.parseEventValue decode x "proposal_approved") →
       d !! "approval_count" = (vec !! 1%nat)
       ∧ d !! "threshold" = (vec !! 2%nat)).
Proof.
  intros Hd Ha. split; [| split; [| split]].
  - intros s Hs. rewrite Hs, addressToNative_string in Ha. by injection Ha.
  - intros ty. split.
    + by eapply Rev1_actor_of_tuple.
    + by eapply Rev2_actor_of_tuple.
  - intros Hlen r amt Hr Hamt. split; [| split].
    + intros s Hs. rewrite Hs, addressToNative_string in Hr. by injection Hr.
    + intros n Hn. rewrite Hn in Hamt. by injection Hamt.
    + intros d [-> | ->].
      * rewrite (Rev1_created_details decode x vec a r amt) by done.
        by rewrite !lookup_insert.
      * rewrite (Rev2_created_details decode x vec a r amt) by done.
        by rewrite !lookup_insert.
  - intros Hlen d Hdd.
    rewrite !index_lookup by lia.
    destruct Hdd as [-> | ->].
    + rewrite (Rev1_approved_details decode x vec a) by done.
      by rewrite !lookup_insert.
    + rewrite (Rev2_approved_details decode x vec a) by done.
      by rewrite !lookup_insert.
Qed.

Lemma parseEventValue_reports_tuple_fields_witness :
  actor (Rev2.parseEventValue sample_decode "created" "proposal_created") = "GA5W"
  ∧ details (Rev1.parseEventValue sample_decode "created" "proposal_created")
      !! "amount" = Some (JString "2500")
  ∧ details (Rev2.parseEventValue sample_decode "approved" "proposal_approved")
      !! "threshold" = Some (JNumber (Fin 3)).
Proof.
  split; [| split].
  - destruct (parseEventValue_reports_tuple_fields sample_decode "created"
                [JString "GA5W"; JString "GD26"; JBigInt 2500] "GA5W"
                eq_refl eq_refl) as (_ & Hactor & _).
    apply Hactor.
  - destruct (parseEventValue_reports_tuple_fields sample_decode "created"
                [JString "GA5W"; JString "GD26"; JBigInt 2500] "GA5W"
                eq_refl eq_refl) as (_ & _ & Hcreated & _).
    destruct (Hcreated ltac:(cbn; lia) "GD26" (JString "2500") eq_refl eq_refl)
      as (_ & _ & Hd).
    destruct (Hd _ (or_introl eq_refl)) as (_ & _ & Hamount).
    exact Hamount.
  - destruct (parseEventValue_reports_tuple_fields sample_decode "approved"
                [JString "GB2R"; JNumber (Fin 2); JNumber (Fin 3)] "GB2R"
                eq_refl eq_refl) as (_ & _ & _ & Happroved).
    destruct (Happroved ltac:(cbn; lia) _ (or_intror eq_refl)) as (_ & Hthr).
    exact Hthr.
Defined.

(* --------------------------------------------------------------------- *)
(** ** The proposal list                                                   *)
(* --------------------------------------------------------------------- *)

Section ProposalList.

Import Proposals.

(** The statuses the page ever holds: those of the built-in list, and
    Rejected. *)
Lemma reachable_statuses (st : State) :
  reachable st →
  (∀ p, p ∈ proposals st → status p ∈ [Pending; Executed; Rejected])
  ∧ (∀ p, selectedProposal st = Some p → status p ∈ [Pending; Executed; Rejected]).
Proof.
  induction 1 as [| st prop _ [IHlist IHsel] Hin | st _ [IHlist IHsel]
                  | st prop c a _ [IHlist IHsel] _ _ | st _ [IHlist IHsel]
                  | st rejectProposal reason _ [IHlist IHsel]].
  - split; [| done]. intros p Hp.
    apply elem_of_cons in Hp as [-> | Hp]; [by_evaluation |].
    apply list_elem_of_singleton in Hp as ->. by_evaluation.
  - split; [exact IHlist |]. intros p [= <-]. by apply IHlist.
  - split; [exact IHlist | done].
  - split; [exact IHlist | exact IHsel].
  - split; [exact IHlist | exact IHsel].
  - unfold handleRejectConfirm.
    destruct (rejectingId st) as [rid |]; [| by split].
    destruct (rejectProposal rid) as [h | e]; cbn; [| by split].
    split; [| exact IHsel].
    intros p Hp. apply list_elem_of_fmap in Hp as (q & -> & Hq).
    destruct (id q =? rid)%Z; [by_evaluation | by apply IHlist].
Qed.

(** C4. Every proposal of the page, in the list and in the detail modal,
    holds at every moment one of the six documented states: the page starts
    from the built-in list, whose proposals are Pending and Executed, and
    the only status it ever writes is Rejected.  (The status type also has
    the literal Approved, and lacks TimelockActive and Ready; no run of the
    page produces a proposal with it.) *)
Theorem proposal_states_are_documented (st : State) (p : Proposal) :
  reachable st →
  p ∈ proposals st ∨ selectedProposal st = Some p →
  status_name (status p) ∈ documented_states
  ∧ status p ∈ [Pending; Executed; Rejected].
Proof.
  intros Hst Hp. apply reachable_statuses in Hst as [Hlist Hsel].
  assert (Hs : status p ∈ [Pending; Executed; Rejected])
    by (destruct Hp as [Hp | Hp]; [by apply Hlist | by apply Hsel]).
  split; [| exact Hs].
  rewrite !elem_of_cons, elem_of_nil in Hs.
  destruct Hs as [-> | [-> | [-> | []]]]; by_evaluation.
Qed.

Lemma proposal_states_are_documented_witness :
  ∃ st p,
    reachable st
    ∧ proposals st !! 0%nat = Some p
    ∧ status p = Rejected
    ∧ status_name (status p) ∈ documented_states.
Proof.
  exists (handleRejectConfirm reject_ok None (handleRejectClick 102 initialState)).
  eexists.
  assert (Hreach : reachable (handleRejectConfirm reject_ok None
                                (handleRejectClick 102 initialState))).
  { apply reject_confirmed.
    apply (reject_clicked initialState proposal_102 true (Some "GA5W...7K9L"));
      [apply page_mounted | apply list_elem_of_here | reflexivity]. }
  split; [exact Hreach |]. split; [reflexivity |]. split; [reflexivity |].
  apply (proposal_states_are_documented _ _ Hreach).
  left. apply list_elem_of_here.
Defined.

Lemma canRejectProposal_iff (isConnected : bool) (address : option string)
      (userRole : string) (p : Proposal) :
  canRejectProposal isConnected address userRole p = true
  ↔ isConnected = true
    ∧ ∃ a, address = Some a ∧ a ≠ "" ∧ (proposer p = a ∨ userRole = "Admin").
Proof.
  unfold canRejectProposal, no_address, is_address.
  destruct isConnected; cbn; [| split; [done | by intros [? _]]].
  destruct address as [a |]; [| split; [done | by intros (_ & ? & ? & _)]].
  destruct (String.eqb_spec a "") as [-> | Hne]; cbn.
  - split; [done |]. by intros (_ & a & [= <-] & Hne & _).
  - rewrite orb_true_iff, !String.eqb_eq. split.
    + intros H. split; [done |]. by exists a.
    + by intros (_ & a' & [= <-] & _ & H).
Qed.

(** C3, as stated, fails on the wallet guard: with the wallet not
    connected, the first mock proposal is pending and the user has the role
    Admin (and, in the first case, the proposer's address), yet rejecting is
    not offered. *)
Lemma reject_not_offered_without_wallet :
  status proposal_102 = Pending
  ∧ currentUserRole = "Admin"
  ∧ Some (proposer proposal_102) = Some "GA5W...7K9L"
  ∧ canRejectProposal false (Some "GA5W...7K9L") currentUserRole proposal_102 = false
  ∧ rejectButtonShown false (Some "GA5W...7K9L") currentUserRole proposal_102 = false
  ∧ rejectButtonShown false None currentUserRole proposal_102 = false
  ∧ rejectButtonShown true None currentUserRole proposal_102 = false.
Proof. repeat split. Qed.

(** C3, amended. Rejecting a proposal is offered exactly when the wallet is
    connected with a non-empty address, the caller is the proposal's
    proposer or has the role Admin, and the proposal is Pending, the one
    rejectable status of the frontend (none of its statuses is
    TimelockActive); for any other caller or status it is not offered. *)
Theorem reject_offered_iff (isConnected : bool) (address : option string)
        (userRole : string) (p : Proposal) :
  (rejectButtonShown isConnected address userRole p = true
   ↔ (isConnected = true
      ∧ ∃ a, address = Some a ∧ a ≠ "" ∧ (proposer p = a ∨ userRole = "Admin"))
     ∧ status p = Pending)
  ∧ (status p = Pending ↔ status_name (status p) ∈ ["Pending"; "TimelockActive"]).
Proof.
  split.
  - unfold rejectButtonShown.
    rewrite andb_true_iff, bool_decide_eq_true, canRejectProposal_iff. tauto.
  - rewrite !elem_of_cons, elem_of_nil.
    destruct (status p); cbn; (split; [intros Hs | intros Hn]);
      first [ by left | discriminate Hs | by destruct Hn as [Hn | [Hn | Hn]] ].
Qed.

(** C7. When the rejection of the proposal [rid] succeeds, the list keeps
    its length and order, the proposal with that id has the status Rejected
    and its other fields as before, and every other proposal is as before;
    when the rejection fails, the list of proposals is unchanged. *)
Theorem handleRejectConfirm_frame (rejectProposal : Z → Result string)
        (reason : option string) (st : State) (rid : Z) :
  rejectingId st = Some rid →
  (∀ h, rejectProposal rid = Ok h →
     length (proposals (handleRejectConfirm rejectProposal reason st))
     = length (proposals st)
     ∧ ∀ (i : nat) p, proposals st !! i = Some p →
         ∃ p', proposals (handleRejectConfirm rejectProposal reason st) !! i = Some p'
               ∧ (id p = rid → status p' = Rejected ∧ same_but_status p p')
               ∧ (id p ≠ rid → p' = p))
  ∧ (∀ e, rejectProposal rid = Throw e →
       proposals (handleRejectConfirm rejectProposal reason st) = proposals st).
Proof.
  intros Hrid. unfold handleRejectConfirm. rewrite Hrid. split.
  - intros h Hok. rewrite Hok. cbn. split; [apply length_map |].
    intros i p Hp.
    exists (if (id p =? rid)%Z then with_status_Rejected p else p).
    split; [| split].
    + by rewrite list_lookup_fmap, Hp.
    + intros Heq. apply Z.eqb_eq in Heq. rewrite Heq.
      split; [reflexivity | repeat split].
    + intros Hne. apply Z.eqb_neq in Hne. by rewrite Hne.
  - intros e Hfail. by rewrite Hfail.
Qed.

Lemma handleRejectConfirm_frame_witness :
  map status (proposals
     (handleRejectConfirm reject_ok (Some "duplicate") (handleRejectClick 102 initialState)))
  = [Rejected; Executed]
  ∧ proposals (handleRejectConfirm reject_fails None (handleRejectClick 102 initialState))
    = mockProposals.
Proof.
  destruct (handleRejectConfirm_frame reject_ok (Some "duplicate")
              (handleRejectClick 102 initialState) 102 eq_refl) as [Hok _].
  destruct (handleRejectConfirm_frame reject_fails None
              (handleRejectClick 102 initialState) 102 eq_refl) as [_ Hfail].
  split.
  - destruct (Hok "7f3a" eq_refl) as [_ Heach].
    destruct (Heach 0%nat _ eq_refl) as (p0 & Hp0 & Hrej & _).
    destruct (Heach 1%nat _ eq_refl) as (p1 & Hp1 & _ & Hkeep).
    destruct (Hrej eq_refl) as [Hs _].
    specialize (Hkeep ltac:(discriminate)).
    reflexivity.
  - exact (Hfail _ eq_refl).
Defined.

End ProposalList.

(* --------------------------------------------------------------------- *)
(** ** The hook's operations                                               *)
(* --------------------------------------------------------------------- *)

Lemma connected_address_None (isConnected : bool) (address : option string) :
  isConnected = false ∨ address = None ∨ address = Some "" →
  connected_address isConnected address = None.
Proof.
  unfold connected_address. intros [-> | [-> | ->]]; [done | |];
    by destruct isConnected.
Qed.

(** C8. When the wallet is not connected or there is no address ([null] or
    the empty string), every operation of the hook that proposes, rejects,
    executes, schedules, pauses or cancels throws the error ["Wallet not
    connected"] and has no effect: the trace of outside calls is as it was,
    so no account is fetched and no transaction is simulated, signed or
    submitted. *)
Theorem wallet_not_connected_throws (w : World) (isConnected : bool)
        (address : option string) (trace : list Effect) :
  isConnected = false ∨ address = None ∨ address = Some "" →
  let refused := (trace, Throw (Error "Wallet not connected")) in
  (∀ recipient token amount memo,
     Rev1.proposeTransfer w isConnected address recipient token amount memo trace
     = refused
     ∧ Rev2.proposeTransfer w isConnected address recipient token amount memo trace
       = refused)
  ∧ (∀ proposalId,
       Rev1.rejectProposal w isConnected address proposalId trace = refused
       ∧ Rev2.rejectProposal w isConnected address proposalId trace = refused
       ∧ Rev2.executeProposal w isConnected address proposalId trace = refused)
  ∧ (∀ params, Rev2.schedulePayment w isConnected address params trace = refused)
  ∧ (∀ paymentId,
       Rev2.executeRecurringPayment w isConnected address paymentId trace = refused
       ∧ Rev2.cancelRecurringPayment w isConnected address paymentId trace = refused
       ∧ Rev2.pauseRecurringPayment w isConnected address paymentId trace = refused).
Proof.
  intros Hno refused. apply connected_address_None in Hno.
  unfold Rev1.proposeTransfer, Rev2.proposeTransfer, Rev1.rejectProposal,
    Rev2.rejectProposal, Rev2.executeProposal, Rev2.schedulePayment,
    Rev2.executeRecurringPayment, Rev2.cancelRecurringPayment,
    Rev2.pauseRecurringPayment.
  rewrite Hno. by repeat split.
Qed.

Lemma wallet_not_connected_throws_witness :
  Rev2.executeRecurringPayment online_world false (Some "GA5W") "2" []
  = ([], Throw (Error "Wallet not connected"))
  ∧ Rev1.proposeTransfer online_world true None "GD26" "CTOK" "2500" "rent"
      [SetLoading false]
    = ([SetLoading false], Throw (Error "Wallet not connected")).
Proof.
  split.
  - apply (wallet_not_connected_throws online_world false (Some "GA5W") []).
    by left.
  - apply (wallet_not_connected_throws online_world true None [SetLoading false]).
    right. by left.
Defined.

Lemma events_params_with_cursor (cursor : option string) (n : Number) (latest : JsVal) :
  present cursor = true →
  events_params cursor n latest
  = Ok (mkEventsParams [CONTRACT_ID] (Math_min n (Fin 200)) cursor None).
Proof. intros Hc. unfold events_params. by rewrite Hc. Qed.

Lemma events_params_without_cursor (cursor : option string) (n : Number)
      (latest : JsVal) :
  present cursor = false →
  events_params cursor n latest
  = match js_String latest with
    | Ok text =>
        Ok (mkEventsParams [CONTRACT_ID] (Math_min n (Fin 200)) None
              (Some (Number_toString
                       (Math_max (Fin 1) (Number_sub (parseInt10 text) (Fin 50000))))))
    | Throw e => Throw e
    end.
Proof. intros Hc. unfold events_params. by rewrite Hc. Qed.

(** The request is built with a cursor, and without one when the latest
    ledger has a string form. *)
Lemma events_params_built (cursor : option string) (n : Number) (latest : JsVal) :
  present cursor = true ∨ (∃ text, js_String latest = Ok text) →
  ∃ params, events_params cursor n latest = Ok params.
Proof.
  destruct (present cursor) eqn:Hc.
  - intros _. eexists. by apply events_params_with_cursor.
  - intros [[=] | [text Htext]]. eexists.
    rewrite events_params_without_cursor, Htext by done. reflexivity.
Qed.

Lemma events_params_not_built (cursor : option string) (n : Number) (latest : JsVal)
      (e : JsError) :
  events_params cursor n latest = Throw e →
  present cursor = false ∧ js_String latest = Throw e.
Proof.
  destruct (present cursor) eqn:Hc.
  - by rewrite events_params_with_cursor.
  - rewrite events_params_without_cursor by done.
    destruct (js_String latest); [discriminate |]. by intros [= ->].
Qed.

Lemma events_params_limit (cursor : option string) (n : Number) (latest : JsVal)
      (params : EventsParams) :
  events_params cursor n latest = Ok params →
  pagination_limit params = Math_min n (Fin 200).
Proof.
  destruct (present cursor) eqn:Hc.
  - rewrite events_params_with_cursor by done. by intros [= <-].
  - rewrite events_params_without_cursor by done.
    destruct (js_String latest); [| discriminate]. by intros [= <-].
Qed.

Lemma events_params_start (cursor : option string) (n : Number) (latest : JsVal)
      (params : EventsParams) (text : string) :
  present cursor = false →
  events_params cursor n latest = Ok params →
  js_String latest = Ok text →
  startLedger params
  = Some (Number_toString (Math_max (Fin 1) (Number_sub (parseInt10 text) (Fin 50000)))).
Proof.
  intros Hc Hp Htext. rewrite events_params_without_cursor, Htext in Hp by done.
  by injection Hp as <-.
Qed.

Lemma elem_of_two_effects (x a b : Effect) (rest : list Effect) :
  x ∈ a :: b :: rest → x = a ∨ x = b ∨ x ∈ rest.
Proof. rewrite !elem_of_cons. tauto. Qed.

Ltac run_getVaultEvents :=
  unfold try_catch, bind, perform, emit, modify, lift, ret, throw; cbn.

(** What a [getVaultEvents] does, case by case. *)
Lemma getVaultEvents_with_run (w : World)
      (activities_of : list RawEvent → list VaultActivity)
      (cursor : option string) (limit : option Number) (trace : list Effect) :
  getVaultEvents_with w activities_of cursor limit trace
  = let n := default EVENTS_PAGE_SIZE limit in
    match rpc_getLatestLedger w with
    | Throw _ =>
        (trace ++ [RpcGetLatestLedger; ConsoleError "getVaultEvents"],
         Ok events_fallback)
    | Ok ld =>
        match events_params cursor n (latest_sequence ld) with
        | Throw _ =>
            (trace ++ [RpcGetLatestLedger; ConsoleError "getVaultEvents"],
             Ok events_fallback)
        | Ok params =>
            match rpc_getEvents w params with
            | Throw _ =>
                (trace ++ [RpcGetLatestLedger; RpcGetEvents params;
                           ConsoleError "getVaultEvents"],
                 Ok events_fallback)
            | Ok data =>
                match data_error data with
                | Some _ =>
                    (trace ++ [RpcGetLatestLedger; RpcGetEvents params;
                               ConsoleError "getVaultEvents"],
                     Ok events_fallback)
                | None =>
                    (trace ++ [RpcGetLatestLedger; RpcGetEvents params],
                     Ok (mkEventsPage
                           (activities_of (events_of data))
                           (coalesce
                              (default JUndefined
                                 (data_result data ≫= res_latestLedger))
                              (latest_sequence ld))
                           (data_result data ≫= res_cursor)
                           (present (data_result data ≫= res_cursor)
                            && Number_strict_eq
                                 (Fin (Z.of_nat (length (events_of data)))) n)))
                end
            end
        end
    end.
Proof.
  unfold getVaultEvents_with. run_getVaultEvents.
  destruct (rpc_getLatestLedger w) as [ld | e]; cbn; [| by rewrite <- app_assoc].
  destruct (events_params cursor _ _) as [params | e]; cbn;
    [| by rewrite <- app_assoc].
  destruct (rpc_getEvents w _) as [data | e]; cbn; [| by rewrite <- !app_assoc].
  destruct (data_error data); cbn; by rewrite <- !app_assoc.
Qed.

(** The activities the first revision makes of the events: one for each
    event that has a first topic. *)
Lemma Rev1_getVaultEvents_with (decode : Decoder) (w : World) :
  Rev1.getVaultEvents decode w
  = getVaultEvents_with w
      (flat_map
         (fun ev =>
            match topic0_of ev with
            | Some t =>
                if (t =? "")%string then []
                else
                  let eventType := getEventTypeFromTopic decode t in
                  let parsed :=
                    if present (ev_value ev)
                    then Rev1.parseEventValue decode (default "" (ev_value ev)) eventType
                    else mkParsed "" ∅ in
                  [activity_of w ev eventType parsed]
            | None => []
            end)).
Proof. reflexivity. Qed.

(** The activities the second revision makes of the events: one for each. *)
Lemma Rev2_getVaultEvents_with (decode : Decoder) (w : World) :
  Rev2.getVaultEvents decode w
  = getVaultEvents_with w
      (map
         (fun ev =>
            let eventType :=
              if present (topic0_of ev)
              then getEventTypeFromTopic decode (default "" (topic0_of ev))
              else "unknown" in
            let parsed :=
              if present (ev_value ev)
              then Rev2.parseEventValue decode (default "" (ev_value ev)) eventType
              else mkParsed "" ∅ in
            activity_of w ev eventType parsed)).
Proof. reflexivity. Qed.

Lemma both_revisions_with (decode : Decoder) (w : World)
      (gve : option string → option Number → Io GetVaultEventsResult) :
  gve = Rev1.getVaultEvents decode w ∨ gve = Rev2.getVaultEvents decode w →
  ∃ activities_of, gve = getVaultEvents_with w activities_of.
Proof.
  intros [-> | ->]; eexists;
    [apply Rev1_getVaultEvents_with | apply Rev2_getVaultEvents_with].
Qed.

(** What the request carries. *)
Lemma events_params_carries (cursor : option string) (n : Number) (latest : JsVal)
      (params : EventsParams) :
  events_params cursor n latest = Ok params →
  pagination_limit params = Math_min n (Fin 200)
  ∧ (∀ k, n = Fin k → pagination_limit params = Fin (Z.min k 200))
  ∧ (present cursor = false →
     (∀ text L, js_String latest = Ok text → parseInt10 text = Fin L →
        safe_integer L →
        startLedger params = Some (pretty (Z.max 1 (L - 50000))))
     ∧ (∀ L, latest = JNumber (Fin L) → safe_integer L →
          startLedger params = Some (pretty (Z.max 1 (L - 50000))))).
Proof.
  intros Hp. pose proof (events_params_limit _ _ _ _ Hp) as Hlimit.
  split; [exact Hlimit |]. split; [intros k ->; exact Hlimit |].
  intros Hc. split.
  - intros text L Htext HL _.
    rewrite (events_params_start _ _ _ _ text Hc Hp Htext), HL. reflexivity.
  - intros L -> _.
    rewrite (events_params_start _ _ _ _ (pretty L) Hc Hp eq_refl), parseInt10_pretty.
    reflexivity.
Qed.

Lemma not_elem_of_console (p : EventsParams) (rest : list Effect) :
  rest = [] ∨ rest = [ConsoleError "getVaultEvents"] → RpcGetEvents p ∉ rest.
Proof.
  intros [-> | ->] Hin; [by apply elem_of_nil in Hin |].
  apply list_elem_of_singleton in Hin. discriminate.
Qed.

Lemma elem_of_request (p params : EventsParams) (rest : list Effect) :
  rest = [] ∨ rest = [ConsoleError "getVaultEvents"] →
  RpcGetEvents p ∈ RpcGetLatestLedger :: RpcGetEvents params :: rest → p = params.
Proof.
  intros Hrest Hin. apply elem_of_two_effects in Hin as [Hin | [Hin | Hin]];
    [discriminate | by injection Hin |].
  by apply not_elem_of_console in Hin.
Qed.

Lemma getVaultEvents_with_paginates (w : World)
      (activities_of : list RawEvent → list VaultActivity) :
  paginates w (getVaultEvents_with w activities_of).
Proof.
  intros cursor limit trace n.
  rewrite getVaultEvents_with_run. cbv zeta. fold n.
  destruct (rpc_getLatestLedger w) as [ld | e] eqn:Hld.
  - destruct (events_params cursor n (latest_sequence ld)) as [params | e] eqn:Hp.
    + assert (Hreq : ∀ rest, rest = [] ∨ rest = [ConsoleError "getVaultEvents"] →
                ∀ ld', Ok ld = Ok ld' →
                  present cursor = true
                  ∨ (∃ text, js_String (latest_sequence ld') = Ok text) →
                  ∃ params' rest',
                    RpcGetLatestLedger :: RpcGetEvents params :: rest
                    = RpcGetLatestLedger :: RpcGetEvents params' :: rest'
                    ∧ (∀ p, RpcGetEvents p ∉ rest')
                    ∧ pagination_limit params' = Math_min n (Fin 200)
                    ∧ (∀ k, n = Fin k → pagination_limit params' = Fin (Z.min k 200))
                    ∧ (present cursor = false →
                       (∀ text L, js_String (latest_sequence ld') = Ok text →
                          parseInt10 text = Fin L → safe_integer L →
                          startLedger params' = Some (pretty (Z.max 1 (L - 50000))))
                       ∧ (∀ L, latest_sequence ld' = JNumber (Fin L) →
                            safe_integer L →
                            startLedger params'
                            = Some (pretty (Z.max 1 (L - 50000)))))).
      { intros rest Hrest ld' [= <-] _. exists params, rest.
        split; [reflexivity |].
        split; [intros p; by apply not_elem_of_console |].
        by apply events_params_carries. }
      destruct (rpc_getEvents w params) as [data | e] eqn:Hev;
        [destruct (data_error data) as [msg |] eqn:Herr |].
      * eexists _, _. split; [reflexivity |].
        split; [apply Hreq; by right |]. split; [| done].
        intros p d Hin Hd Hnone.
        apply elem_of_request in Hin as ->; [| by right]. congruence.
      * eexists _, _. split; [reflexivity |].
        split; [apply Hreq; by left |]. split.
        -- intros p d Hin Hd Hnone.
           apply elem_of_request in Hin as ->; [| by left].
           rewrite Hev in Hd. injection Hd as <-. cbn [hasMore].
           rewrite andb_true_iff. clearbody n.
           destruct n as [y |]; [cbn; rewrite Z.eqb_eq | by split; intros [_ ?]].
           split; intros [Hc Hy]; (split; [exact Hc | congruence]).
        -- intros _. exists params, data.
           split; [apply list_elem_of_further, list_elem_of_here | done].
      * eexists _, _. split; [reflexivity |].
        split; [apply Hreq; by right |]. split; [| done].
        intros p d Hin Hd Hnone.
        apply elem_of_request in Hin as ->; [| by right]. congruence.
    + eexists _, _. split; [reflexivity |]. split; [| split; [| done]].
      * intros ld' [= <-] Hbuilt.
        destruct (events_params_built cursor n (latest_sequence ld) Hbuilt)
          as [params Hparams]. congruence.
      * intros p d Hin. apply elem_of_two_effects in Hin as [Hin | [Hin | Hin]];
          [discriminate | discriminate | by apply elem_of_nil in Hin].
  - eexists _, _. split; [reflexivity |]. split; [done |]. split; [| done].
    intros p d Hin. apply elem_of_two_effects in Hin as [Hin | [Hin | Hin]];
      [discriminate | discriminate | by apply elem_of_nil in Hin].
Qed.

Lemma Rev1_paginates (decode : Decoder) (w : World) :
  paginates w (Rev1.getVaultEvents decode w).
Proof. rewrite Rev1_getVaultEvents_with. apply getVaultEvents_with_paginates. Qed.

Lemma Rev2_paginates (decode : Decoder) (w : World) :
  paginates w (Rev2.getVaultEvents decode w).
Proof. rewrite Rev2_getVaultEvents_with. apply getVaultEvents_with_paginates. Qed.

(** C9. In both revisions, for every call of [getVaultEvents] with page
    limit [n] (20 when none is given).  Once the first call has answered,
    the events request is sent, exactly once, and it carries the pagination
    limit [Math.min(n, 200)] (the one exception: no cursor is given and the
    latest ledger of the answer has no string form, which stops the call
    before the request).  When no cursor is supplied, the request's start
    ledger is [max(1, L - 50000)], [L] being the latest ledger sequence read
    from the first answer, a safe integer as every ledger sequence is.  And
    when the request is answered without error, [hasMore] is [true] exactly
    when the answer holds a continuation cursor and the number of events it
    holds equals [n]; in every other case [hasMore] is [false]. *)
Theorem getVaultEvents_paginates (decode : Decoder) (w : World) :
  paginates w (Rev1.getVaultEvents decode w)
  ∧ paginates w (Rev2.getVaultEvents decode w).
Proof. split; [apply Rev1_paginates | apply Rev2_paginates]. Qed.

Lemma getVaultEvents_paginates_witness :
  (∃ params rest page,
     Rev1.getVaultEvents sample_decode online_world None (Some (Fin 500)) []
     = (RpcGetLatestLedger :: RpcGetEvents params :: rest, Ok page)
     ∧ pagination_limit params = Fin 200
     ∧ startLedger params = Some "70000")
  ∧ (∃ sent page,
       Rev2.getVaultEvents sample_decode online_world None (Some (Fin 2)) []
       = (sent, Ok page)
       ∧ hasMore page = true).
Proof.
  destruct (getVaultEvents_paginates sample_decode online_world) as [Hrev1 Hrev2].
  split.
  - destruct (Hrev1 None (Some (Fin 500)) []) as (sent & page & Hrun & Hreq & _).
    destruct (Hreq _ eq_refl (or_intror (ex_intro _ "120000" eq_refl)))
      as (params & rest & -> & _ & _ & Hlimit & Hstart).
    exists params, rest, page. split; [exact Hrun |].
    split; [exact (Hlimit 500 eq_refl) |].
    destruct (Hstart eq_refl) as [_ Hnumber].
    apply (Hnumber 120000 eq_refl). unfold safe_integer. lia.
  - destruct (Hrev2 None (Some (Fin 2)) []) as (sent & page & Hrun & _ & Hanswer & _).
    exists sent, page. split; [exact Hrun |].
    injection Hrun as <- <-.
    eapply Hanswer; [apply list_elem_of_further, list_elem_of_here | reflexivity
                    | reflexivity |].
    by split.
Defined.














(* --------------------------------------------------------------------- *)
(** ** The spending-limit tracker                                          *)
(* --------------------------------------------------------------------- *)

Section TrackerFacts.

Import Tracker.

Variable day_len week_len : N.
Variable limits : Limits.

Local Open Scope N_scope.

(** A loaded window never starts before the current bucket. *)
Lemma load_start (len now : N) (stored : option SpendingWindow) :
  bucket_start len now ≤ window_start (load len now stored).
Proof.
  unfold load. destruct stored as [win |]; cbn; [| lia].
  destruct (N.ltb_spec (window_start win) (bucket_start len now)); cbn; lia.
Qed.

(** Loading what was just stored for the same bucket gives it back. *)
Lemma load_stored (len now now' amount : N) (stored : option SpendingWindow) :
  bucket_start len now' = bucket_start len now →
  load len now' (Some (add_consumed (load len now stored) amount))
  = add_consumed (load len now stored) amount.
Proof.
  intros Hb. pose proof (load_start len now stored) as Hs.
  unfold load at 1. cbn. rewrite Hb.
  destruct (N.ltb_spec (window_start (load len now stored)) (bucket_start len now));
    [lia | done].
Qed.

Lemma load_same_bucket (len now now' : N) (stored : option SpendingWindow) :
  bucket_start len now' = bucket_start len now →
  load len now' stored = load len now stored.
Proof. intros Hb. unfold load. by rewrite Hb. Qed.

Lemma check_and_consume_cases (st : Ephemeral) (amount now : N) :
  let d := consumed_daily day_len st now in
  let wk := consumed_weekly week_len st now in
  (daily_limit limits < d + amount ∨ weekly_limit limits < wk + amount) ∧
  check_and_consume day_len week_len limits st amount now = Failure LimitExceeded
  ∨ (d + amount ≤ daily_limit limits ∧ wk + amount ≤ weekly_limit limits) ∧
    check_and_consume day_len week_len limits st amount now
    = Success (mkEphemeral
                 (Some (add_consumed (load day_len now (daily st)) amount))
                 (Some (add_consumed (load week_len now (weekly st)) amount))).
Proof.
  intros d wk. unfold check_and_consume. subst d wk.
  unfold consumed_daily, consumed_weekly.
  destruct (N.ltb_spec (daily_limit limits)
              (consumed (load day_len now (daily st)) + amount));
    destruct (N.ltb_spec (weekly_limit limits)
                (consumed (load week_len now (weekly st)) + amount)); cbn;
    first [ left; split; [lia | reflexivity] | right; split; [lia | reflexivity] ].
Qed.

Lemma execute_is_check_and_consume (st : Ephemeral) (ex : Execution) :
  execute day_len week_len limits st ex
  = check_and_consume day_len week_len limits st (amount ex) (now ex).
Proof. unfold execute. by destruct (source ex). Qed.

(** Within one daily bucket: nothing was released, or what the bucket held
    plus what was released fits the daily cap. *)
Lemma run_daily (d : N) (exs : list Execution) :
  ∀ (st : Ephemeral) (t : N),
    bucket_start day_len t = d →
    (∀ ex, ex ∈ exs → bucket_start day_len (now ex) = d) →
    total (snd (run day_len week_len limits st exs)) = 0
    ∨ consumed_daily day_len st t + total (snd (run day_len week_len limits st exs))
      ≤ daily_limit limits.
Proof.
  induction exs as [| ex rest IH]; intros st t Ht Hall; [by left |].
  assert (Hex : bucket_start day_len (now ex) = d) by (apply Hall; left).
  assert (Hrest : ∀ ex', ex' ∈ rest → bucket_start day_len (now ex') = d)
    by (intros ex' Hin; apply Hall; by right).
  cbn [run]. rewrite execute_is_check_and_consume.
  destruct (check_and_consume_cases st (amount ex) (now ex)) as [[_ ->] | [[Hd _] ->]].
  - cbn [commit]. by apply IH.
  - set (st' := mkEphemeral _ _).
    specialize (IH st' t Ht Hrest).
    destruct (run day_len week_len limits st' rest) as [final released] eqn:Hrun.
    cbn [snd total foldr] in *. fold (total released) in *. right.
    assert (Hst' : consumed_daily day_len st' t
                   = consumed_daily day_len st (now ex) + amount ex).
    { unfold consumed_daily, st'. cbn [daily].
      rewrite load_stored by congruence. reflexivity. }
    assert (Hsame : consumed_daily day_len st t = consumed_daily day_len st (now ex)).
    { unfold consumed_daily. f_equal. apply load_same_bucket. congruence. }
    destruct IH as [H0 | Hle]; [rewrite H0 | rewrite Hst' in Hle]; lia.
Qed.

Lemma run_weekly (wk : N) (exs : list Execution) :
  ∀ (st : Ephemeral) (t : N),
    bucket_start week_len t = wk →
    (∀ ex, ex ∈ exs → bucket_start week_len (now ex) = wk) →
    total (snd (run day_len week_len limits st exs)) = 0
    ∨ consumed_weekly week_len st t + total (snd (run day_len week_len limits st exs))
      ≤ weekly_limit limits.
Proof.
  induction exs as [| ex rest IH]; intros st t Ht Hall; [by left |].
  assert (Hex : bucket_start week_len (now ex) = wk) by (apply Hall; left).
  assert (Hrest : ∀ ex', ex' ∈ rest → bucket_start week_len (now ex') = wk)
    by (intros ex' Hin; apply Hall; by right).
  cbn [run]. rewrite execute_is_check_and_consume.
  destruct (check_and_consume_cases st (amount ex) (now ex)) as [[_ ->] | [[_ Hw] ->]].
  - cbn [commit]. by apply IH.
  - set (st' := mkEphemeral _ _).
    specialize (IH st' t Ht Hrest).
    destruct (run day_len week_len limits st' rest) as [final released] eqn:Hrun.
    cbn [snd total foldr] in *. fold (total released) in *. right.
    assert (Hst' : consumed_weekly week_len st' t
                   = consumed_weekly week_len st (now ex) + amount ex).
    { unfold consumed_weekly, st'. cbn [weekly].
      rewrite load_stored by congruence. reflexivity. }
    assert (Hsame : consumed_weekly week_len st t = consumed_weekly week_len st (now ex)).
    { unfold consumed_weekly. f_equal. apply load_same_bucket. congruence. }
    destruct IH as [H0 | Hle]; [rewrite H0 | rewrite Hst' in Hle]; lia.
Qed.

End TrackerFacts.

Section TrackerClaim.

Import Tracker.

Local Open Scope N_scope.

(** C1. For the tracker as the design document describes it: an execution
    (manual or recurring) that would push the daily or the weekly counter
    over its cap fails with [LimitExceeded] and leaves the stored windows as
    they were; one that fits raises both counters by exactly its amount; and
    over every sequence of executions that fall in one daily window
    (respectively one weekly window), from any stored state, the amounts
    released sum to at most [daily_limit] (respectively [weekly_limit]). *)
Theorem spending_caps_hold (day_len week_len : N) (limits : Limits) (st : Ephemeral) :
  (∀ ex : Execution,
     let d := consumed_daily day_len st (now ex) in
     let wk := consumed_weekly week_len st (now ex) in
     (daily_limit limits < d + amount ex ∨ weekly_limit limits < wk + amount ex →
      execute day_len week_len limits st ex = Failure LimitExceeded
      ∧ commit st (execute day_len week_len limits st ex) = st)
     ∧ (d + amount ex ≤ daily_limit limits ∧ wk + amount ex ≤ weekly_limit limits →
        ∃ st', execute day_len week_len limits st ex = Success st'
               ∧ consumed_daily day_len st' (now ex) = d + amount ex
               ∧ consumed_weekly week_len st' (now ex) = wk + amount ex))
  ∧ (∀ (exs : list Execution) (d : N),
       (∀ ex, ex ∈ exs → bucket_start day_len (now ex) = d) →
       total (snd (run day_len week_len limits st exs)) ≤ daily_limit limits)
  ∧ (∀ (exs : list Execution) (wk : N),
       (∀ ex, ex ∈ exs → bucket_start week_len (now ex) = wk) →
       total (snd (run day_len week_len limits st exs)) ≤ weekly_limit limits).
Proof.
  split; [| split].
  - intros ex d wk. subst d wk. rewrite execute_is_check_and_consume.
    destruct (check_and_consume_cases day_len week_len limits st (amount ex) (now ex))
      as [[Hover ->] | [[Hd Hw] ->]].
    + split; [done |]. intros [? ?]. lia.
    + split; [intros [? | ?]; lia |]. intros _.
      eexists. split; [reflexivity |].
      unfold consumed_daily, consumed_weekly. cbn [daily weekly].
      by rewrite !load_stored.
  - intros exs d Hall. destruct exs as [| ex rest]; [cbn; lia |].
    destruct (run_daily day_len week_len limits d (ex :: rest) st (now ex)) as [-> | Hle];
      [apply Hall; left | exact Hall | lia | lia].
  - intros exs wk Hall. destruct exs as [| ex rest]; [cbn; lia |].
    destruct (run_weekly day_len week_len limits wk (ex :: rest) st (now ex)) as [-> | Hle];
      [apply Hall; left | exact Hall | lia | lia].
Qed.

Lemma spending_caps_hold_witness :
  snd (run 86400 604800 scenario_limits empty_storage scenario_executions) = [600]
  ∧ total (snd (run 86400 604800 scenario_limits empty_storage scenario_executions))
    ≤ daily_limit scenario_limits
  ∧ execute 86400 604800 scenario_limits
      (fst (run 86400 604800 scenario_limits empty_storage scenario_executions))
      (mkExecution Recurring 600 90500)
    = Failure LimitExceeded.
Proof.
  split; [reflexivity |]. split.
  - destruct (spending_caps_hold 86400 604800 scenario_limits empty_storage)
      as (_ & Hdaily & _).
    apply (Hdaily scenario_executions 86400).
    intros ex Hin. apply elem_of_cons in Hin as [-> | Hin]; [reflexivity |].
    apply list_elem_of_singleton in Hin as ->. reflexivity.
  - destruct (spending_caps_hold 86400 604800 scenario_limits
                (fst (run 86400 604800 scenario_limits empty_storage
                        scenario_executions))) as (Hone & _).
    destruct (Hone (mkExecution Recurring 600 90500)) as [Hreject _].
    apply Hreject. left. vm_compute. reflexivity.
Defined.

End TrackerClaim.

(* ===================================================================== *)
(** * Part III. Further properties of the code                            *)
(* ===================================================================== *)

(* --------------------------------------------------------------------- *)
(** ** The decoders, beyond the documented events                          *)
(* --------------------------------------------------------------------- *)

Lemma addressToNative_object (props : list (string * JsVal)) (rendering : string) :
  addressToNative (JObject props rendering)
  = match assoc "address" props with
    | JFunction call _ => call
    | JString s => Ok s
    | _ => Object_toString props rendering
    end.
Proof. reflexivity. Qed.

(** A value that has neither an [address] method nor an [address] string
    is read through [String()]. *)
Lemma addressToNative_fallback (v : JsVal) :
  (∀ call src, get_prop v "address" ≠ JFunction call src) →
  (∀ s, get_prop v "address" ≠ JString s) →
  addressToNative v = js_String (coalesce v (JString "")).
Proof.
  intros Hf Hs. destruct v; try reflexivity.
  rewrite addressToNative_object. cbn in Hf, Hs.
  destruct (assoc "address" props); try reflexivity;
    [by destruct (Hs s) | by destruct (Hf call src)].
Qed.

(** X1. [addressToNative] throws in two cases only: the value is an object
    whose [address] is a function, and calling it throws; or the value has
    no usable [address] and its conversion by [String()] throws, as it does
    for an object with an own [toString] that is not callable and no
    [valueOf] method (the [TypeError] of the conversion), and for an array
    holding one.  It throws that very error.  [null] and [undefined] give
    the empty string, an object with a string [address] gives that string,
    and an object without [address] and without an own [toString] gives the
    string its inherited [toString] yields. *)
Theorem addressToNative_throws_in_two_cases (v : JsVal) (e : JsError) :
  (addressToNative v = Throw e
   ↔ (∃ props rendering src,
        v = JObject props rendering
        ∧ assoc "address" props = JFunction (Throw e) src)
     ∨ ((∀ call src, get_prop v "address" ≠ JFunction call src)
        ∧ (∀ s, get_prop v "address" ≠ JString s)
        ∧ js_String v = Throw e))
  ∧ addressToNative JNull = Ok ""
  ∧ addressToNative JUndefined = Ok ""
  ∧ (∀ props rendering s,
       assoc "address" props = JString s →
       addressToNative (JObject props rendering) = Ok s)
  ∧ (∀ props rendering,
       has_own "address" props = false →
       (has_own "toString" props = false →
        addressToNative (JObject props rendering) = Ok rendering)
       ∧ (has_own "toString" props = true →
          (∀ call src, assoc "toString" props ≠ JFunction call src) →
          (∀ call src, assoc "valueOf" props ≠ JFunction call src) →
          addressToNative (JObject props rendering) = Throw not_primitive
          ∧ addressToNative (JArray [JObject props rendering])
            = Throw not_primitive)).
Proof.
  split; [| split; [| split; [| split]]]; try reflexivity.
  - split.
    + intros Hthrow. destruct v; try discriminate; [by destruct b | |].
      * right. split; [done |]. split; [done |]. exact Hthrow.
      * rewrite addressToNative_object in Hthrow.
        destruct (assoc "address" props) as [| | | | | | | |call src] eqn:Hassoc;
          try discriminate;
          try (right; cbn; rewrite Hassoc; split; [done |]; split; [done |];
               exact Hthrow).
        left. subst call. by exists props, rendering, src.
    + intros [(props & rendering & src & -> & Hassoc) | (Hf & Hs & Hthrow)].
      * by rewrite addressToNative_object, Hassoc.
      * rewrite addressToNative_fallback by done.
        destruct v; try discriminate; exact Hthrow.
  - intros props rendering s Hassoc. by rewrite addressToNative_object, Hassoc.
  - intros props rendering Haddress.
    assert (Hassoc : assoc "address" props = JUndefined).
    { clear -Haddress. induction props as [| [k x] props IH]; [done |].
      cbn in Haddress |- *. apply orb_false_iff in Haddress as [Hk Hrest].
      rewrite Hk. by apply IH. }
    rewrite addressToNative_object, Hassoc. unfold Object_toString. split.
    + by intros ->.
    + intros Hown Hts Hvo.
      assert (Hconv : match assoc "toString" props with
                      | JFunction call _ => call
                      | _ => match assoc "valueOf" props with
                             | JFunction call _ => call
                             | _ => Throw not_primitive
                             end
                      end = Throw not_primitive).
      { destruct (assoc "toString" props) eqn:Ht;
          try (destruct (assoc "valueOf" props) eqn:Hv; try reflexivity;
               exfalso; by eapply Hvo).
        exfalso. by eapply Hts. }
      split; [by rewrite Hown |].
      cbn. unfold Object_toString. by rewrite Hown, Hconv.
Qed.

Lemma addressToNative_throws_in_two_cases_witness :
  addressToNative (JObject [("toString", JNumber (Fin 5))] "[object Object]")
  = Throw not_primitive.
Proof.
  destruct (addressToNative_throws_in_two_cases JNull not_primitive)
    as (_ & _ & _ & _ & Hplain).
  destruct (Hplain [("toString", JNumber (Fin 5))] "[object Object]" eq_refl)
    as [_ Hown].
  by apply Hown.
Defined.

Lemma delete_raw_of_raw (v : JsVal) :
  delete "raw" (<["raw" := v]> (∅ : gmap string JsVal)) = ∅.
Proof. by rewrite delete_insert_eq, delete_empty. Qed.

Lemma delete_raw_of_parseError :
  delete "raw" (<["parseError" := JBool true]> (∅ : gmap string JsVal))
  = <["parseError" := JBool true]> ∅.
Proof. by rewrite delete_insert_ne, delete_empty. Qed.

(** X2. The two revisions of [parseEventValue] return the same result for
    every payload and every event type other than [proposal_rejected].  For
    [proposal_rejected] they report the same actor, and the first revision's
    details are the second's without the [raw] entry. *)
Theorem parseEventValue_revisions_agree (decode : Decoder) (x : string) :
  (∀ ty : VaultEventType, ty ≠ "proposal_rejected" →
     Rev1.parseEventValue decode x ty = Rev2.parseEventValue decode x ty)
  ∧ actor (Rev1.parseEventValue decode x "proposal_rejected")
    = actor (Rev2.parseEventValue decode x "proposal_rejected")
  ∧ details (Rev1.parseEventValue decode x "proposal_rejected")
    = delete "raw" (details (Rev2.parseEventValue decode x "proposal_rejected")).
Proof.
  split; [| split].
  - intros ty Hne. apply String.eqb_neq in Hne.
    unfold Rev1.parseEventValue, Rev2.parseEventValue.
    rewrite Hne. reflexivity.
  - unfold Rev1.parseEventValue, Rev2.parseEventValue. rewrite !try_parse_actor.
    unfold bind at 1 3. unfold lift at 1 3.
    destruct (decode x) as [native | e]; [| reflexivity].
    destruct native; unfold bind, lift;
      match goal with
      | |- context [addressToNative ?v] => destruct (addressToNative v); reflexivity
      end.
  - unfold Rev1.parseEventValue, Rev2.parseEventValue, try_parse, try_catch.
    unfold bind at 1 3. unfold lift at 1 3.
    destruct (decode x) as [native | e];
      [| symmetry; apply delete_raw_of_parseError].
    destruct native; unfold bind, lift;
      match goal with
      | |- context [addressToNative ?v] => destruct (addressToNative v)
      end; cbn;
      first [ symmetry; apply delete_raw_of_raw
            | symmetry; apply delete_raw_of_parseError
            | symmetry; apply delete_empty ].
Qed.

(** X3. For a payload that decodes to a tuple whose first element reads as
    the address [a], both revisions report: for [proposal_executed] with at
    least three elements, [recipient] = element 1 read as an address and
    [amount] = element 2 as a string (and no [proposer]), or, when the
    conversion of element 2 to a string throws, [recipient] and
    [parseError] and no [amount]; for [signer_added] and [signer_removed]
    with at least two elements, [total_signers] = element 1; for
    [role_assigned] with at least two elements, [role] = element 1; in each
    case with actor [a] and no other detail. *)
Theorem parseEventValue_other_events
        (decode : Decoder) (x : string) (vec : list JsVal) (a : string) :
  decode x = Ok (JArray vec) →
  addressToNative (index vec 0) = Ok a →
  ((3 ≤ length vec)%nat →
   ∀ r, addressToNative (index vec 1) = Ok r →
     ∀ p, p = Rev1.parseEventValue decode x "proposal_executed"
          ∨ p = Rev2.parseEventValue decode x "proposal_executed" →
       (∀ amt, amount_string (index vec 2) = Ok amt →
          p = mkParsed a (<["amount" := amt]> (<["recipient" := JString r]> ∅)))
       ∧ (∀ e, amount_string (index vec 2) = Throw e →
            p = mkParsed a (<["parseError" := JBool true]>
                              (<["recipient" := JString r]> ∅))))
  ∧ ((2 ≤ length vec)%nat →
     ∀ ty, ty = "signer_added" ∨ ty = "signer_removed" →
       ∀ p, p = Rev1.parseEventValue decode x ty
            ∨ p = Rev2.parseEventValue decode x ty →
         p = mkParsed a (<["total_signers" := index vec 1]> ∅))
  ∧ ((2 ≤ length vec)%nat →
     ∀ p, p = Rev1.parseEventValue decode x "role_assigned"
          ∨ p = Rev2.parseEventValue decode x "role_assigned" →
       p = mkParsed a (<["role" := index vec 1]> ∅)).
Proof.
  intros Hd Ha. split; [| split].
  - intros Hlen r Hr p [-> | ->]; (split; [intros amt Hamt | intros e Hamt]);
      run_parser Hd Hlen Ha; by rewrite Hr, Hamt.
  - intros Hlen ty [-> | ->] p [-> | ->]; by run_parser Hd Hlen Ha.
  - intros Hlen p [-> | ->]; by run_parser Hd Hlen Ha.
Qed.

Lemma parseEventValue_other_events_witness :
  Rev2.parseEventValue sample_decode "approved" "signer_added"
  = mkParsed "GB2R" (<["total_signers" := JNumber (Fin 2)]> ∅)
  ∧ details (Rev1.parseEventValue sample_decode "created" "proposal_executed")
    = <["amount" := JString "2500"]> (<["recipient" := JString "GD26"]> ∅)
  ∧ Rev2.parseEventValue odd_decode "unprintable" "proposal_executed"
    = mkParsed "GA5W" (<["parseError" := JBool true]>
                         (<["recipient" := JString "GD26"]> ∅)).
Proof.
  split; [| split].
  - destruct (parseEventValue_other_events sample_decode "approved"
                [JString "GB2R"; JNumber (Fin 2); JNumber (Fin 3)] "GB2R"
                eq_refl eq_refl) as (_ & Hsigner & _).
    apply (Hsigner ltac:(cbn; lia) "signer_added" (or_introl eq_refl)).
    by right.
  - destruct (parseEventValue_other_events sample_decode "created"
                [JString "GA5W"; JString "GD26"; JBigInt 2500] "GA5W"
                eq_refl eq_refl) as (Hexec & _).
    destruct (Hexec ltac:(cbn; lia) "GD26" eq_refl _ (or_introl eq_refl))
      as [Hamount _].
    by rewrite (Hamount (JString "2500") eq_refl).
  - destruct (parseEventValue_other_events odd_decode "unprintable"
                [JString "GA5W"; JString "GD26";
                 JObject [("toString", JNumber (Fin 5))] "[object Object]"]
                "GA5W" eq_refl eq_refl) as (Hexec & _).
    destruct (Hexec ltac:(cbn; lia) "GD26" eq_refl _ (or_intror eq_refl))
      as [_ Hthrows].
    apply (Hthrows not_primitive eq_refl).
Defined.

(** Open a parser on a payload that decodes to a tuple whose first element
    reads as an address. *)
Ltac open_parser Hd Ha :=
  unfold Rev1.parseEventValue, Rev2.parseEventValue, try_parse, try_catch,
    bind, lift, set_actor, set_detail, skip, modify, get, ret;
  rewrite Hd; cbv beta iota; rewrite Ha.

Lemma not_elem_of_cons_eqb (ty name : string) (names : list string) :
  ty ∉ name :: names → (ty =? name)%string = false ∧ ty ∉ names.
Proof.
  rewrite not_elem_of_cons. intros [Hne Hrest]. split; [| done].
  by apply String.eqb_neq.
Qed.

(** X4. For a payload that decodes to a tuple whose first element reads as
    the address [a], the details are the single entry [raw], holding the
    whole tuple, whenever no branch of the parser applies: the event type is
    none of the seven the parser names (so for [proposal_ready],
    [config_updated], [initialized] and ['unknown']), or the tuple is
    shorter than the branch of its type requires (three elements for
    [proposal_created], [proposal_approved], [proposal_executed]; two for
    [signer_added], [signer_removed], [role_assigned]).  The same holds for
    [proposal_rejected] in the second revision, while the first revision
    reports no detail for it. *)
Theorem parseEventValue_falls_back_to_raw
        (decode : Decoder) (x : string) (vec : list JsVal) (a : string) :
  decode x = Ok (JArray vec) →
  addressToNative (index vec 0) = Ok a →
  (∀ ty : VaultEventType,
     ty ∉ [ "proposal_created"; "proposal_approved"; "proposal_executed";
            "proposal_rejected"; "signer_added"; "signer_removed";
            "role_assigned" ] →
     Rev1.parseEventValue decode x ty = mkParsed a (<["raw" := JArray vec]> ∅)
     ∧ Rev2.parseEventValue decode x ty = mkParsed a (<["raw" := JArray vec]> ∅))
  ∧ ((length vec < 3)%nat →
     ∀ ty : VaultEventType,
       ty ∈ [ "proposal_created"; "proposal_approved"; "proposal_executed" ] →
       Rev1.parseEventValue decode x ty = mkParsed a (<["raw" := JArray vec]> ∅)
       ∧ Rev2.parseEventValue decode x ty = mkParsed a (<["raw" := JArray vec]> ∅))
  ∧ ((length vec < 2)%nat →
     ∀ ty : VaultEventType,
       ty ∈ [ "signer_added"; "signer_removed"; "role_assigned" ] →
       Rev1.parseEventValue decode x ty = mkParsed a (<["raw" := JArray vec]> ∅)
       ∧ Rev2.parseEventValue decode x ty = mkParsed a (<["raw" := JArray vec]> ∅))
  ∧ Rev1.parseEventValue decode x "proposal_rejected" = mkParsed a ∅
  ∧ Rev2.parseEventValue decode x "proposal_rejected"
    = mkParsed a (<["raw" := JArray vec]> ∅).
Proof.
  intros Hd Ha. split; [| split; [| split; [| split]]].
  - intros ty Hty.
    apply not_elem_of_cons_eqb in Hty as [H1 Hty].
    apply not_elem_of_cons_eqb in Hty as [H2 Hty].
    apply not_elem_of_cons_eqb in Hty as [H3 Hty].
    apply not_elem_of_cons_eqb in Hty as [H4 Hty].
    apply not_elem_of_cons_eqb in Hty as [H5 Hty].
    apply not_elem_of_cons_eqb in Hty as [H6 Hty].
    apply not_elem_of_cons_eqb in Hty as [H7 _].
    split; open_parser Hd Ha; rewrite H1, H2, H3, ?H4, H5, H6, H7; reflexivity.
  - intros Hlen ty Hty. apply Nat.leb_gt in Hlen.
    rewrite !elem_of_cons, elem_of_nil in Hty.
    destruct Hty as [-> | [-> | [-> | []]]];
      split; open_parser Hd Ha; rewrite Hlen; reflexivity.
  - intros Hlen ty Hty.
    assert (H3 : (3 <=? length vec)%nat = false) by (apply Nat.leb_gt; lia).
    apply Nat.leb_gt in Hlen.
    rewrite !elem_of_cons, elem_of_nil in Hty.
    destruct Hty as [-> | [-> | [-> | []]]];
      split; open_parser Hd Ha; rewrite ?H3, Hlen; reflexivity.
  - open_parser Hd Ha. reflexivity.
  - open_parser Hd Ha. reflexivity.
Qed.

Lemma parseEventValue_falls_back_to_raw_witness :
  Rev2.parseEventValue odd_decode "short" "proposal_created"
  = mkParsed "GA5W" (<["raw" := JArray [JString "GA5W"; JString "GD26"]]> ∅)
  ∧ Rev1.parseEventValue odd_decode "short" "config_updated"
    = mkParsed "GA5W" (<["raw" := JArray [JString "GA5W"; JString "GD26"]]> ∅).
Proof.
  destruct (parseEventValue_falls_back_to_raw odd_decode "short"
              [JString "GA5W"; JString "GD26"] "GA5W" eq_refl eq_refl)
    as (Hother & Hshort & _).
  split.
  - apply (Hshort ltac:(cbn; lia) "proposal_created"). by left.
  - apply (Hother "config_updated"). by_evaluation.
Defined.

(** X5. A payload that decodes to something other than a tuple: a string
    (a bare address) is reported as the actor with no detail, whatever the
    event type; [null] gives the empty actor and no detail; a number or a
    bigint gives its decimal text as actor and no detail; and in the second
    revision an object gives the actor read from it and the single detail
    [raw] holding the object. *)
Theorem parseEventValue_of_non_tuple (decode : Decoder) (x : string)
        (ty : VaultEventType) :
  (∀ s, decode x = Ok (JString s) →
        Rev1.parseEventValue decode x ty = mkParsed s ∅
        ∧ Rev2.parseEventValue decode x ty = mkParsed s ∅)
  ∧ (decode x = Ok JNull →
     Rev1.parseEventValue decode x ty = mkParsed "" ∅
     ∧ Rev2.parseEventValue decode x ty = mkParsed "" ∅)
  ∧ (∀ n, decode x = Ok (JBigInt n) ∨ decode x = Ok (JNumber (Fin n)) →
          Rev1.parseEventValue decode x ty = mkParsed (pretty n) ∅
          ∧ Rev2.parseEventValue decode x ty = mkParsed (pretty n) ∅)
  ∧ (∀ props rendering a,
       decode x = Ok (JObject props rendering) →
       addressToNative (JObject props rendering) = Ok a →
       Rev2.parseEventValue decode x ty
       = mkParsed a (<["raw" := JObject props rendering]> ∅)).
Proof.
  unfold Rev1.parseEventValue, Rev2.parseEventValue, try_parse, try_catch.
  split; [| split; [| split]].
  - intros s Hd. unfold bind, lift. rewrite Hd. cbn.
    by destruct (ty =? "proposal_rejected")%string.
  - intros Hd. unfold bind, lift. rewrite Hd. cbn.
    by destruct (ty =? "proposal_rejected")%string.
  - intros n [Hd | Hd]; unfold bind, lift; rewrite Hd; cbn;
      by destruct (ty =? "proposal_rejected")%string.
  - intros props rendering a Hd Ha. unfold bind, lift. rewrite Hd.
    cbv beta iota. rewrite Ha. reflexivity.
Qed.

Lemma parseEventValue_of_non_tuple_witness :
  Rev1.parseEventValue odd_decode "address" "proposal_rejected" = mkParsed "GB2R" ∅
  ∧ actor (Rev2.parseEventValue odd_decode "map" "config_updated") = "GC7T".
Proof.
  destruct (parseEventValue_of_non_tuple odd_decode "address" "proposal_rejected")
    as (Hstring & _).
  destruct (parseEventValue_of_non_tuple odd_decode "map" "config_updated")
    as (_ & _ & _ & Hobject).
  split.
  - apply (Hstring "GB2R" eq_refl).
  - by rewrite (Hobject _ _ "GC7T" eq_refl eq_refl).
Defined.

(** X6. A failure inside the parser keeps what was assigned before it, so
    [parseError] does not mean that the actor is empty.  For a tuple of at
    least three elements whose first element reads as the address [a] and
    whose second element cannot be read as an address, [proposal_created]
    gives actor [a] with the details [proposer] and [parseError] only, and
    [proposal_executed] gives actor [a] with [parseError] only; when the
    first element cannot be read, the result is the empty actor with
    [parseError] only, for every event type. *)
Theorem parseEventValue_failure_keeps_earlier_assignments
        (decode : Decoder) (x : string) (vec : list JsVal) :
  decode x = Ok (JArray vec) →
  (∀ e (ty : VaultEventType),
     addressToNative (index vec 0) = Throw e →
     Rev1.parseEventValue decode x ty
     = mkParsed "" (<["parseError" := JBool true]> ∅)
     ∧ Rev2.parseEventValue decode x ty
       = mkParsed "" (<["parseError" := JBool true]> ∅))
  ∧ (∀ a e,
       addressToNative (index vec 0) = Ok a →
       addressToNative (index vec 1) = Throw e →
       (3 ≤ length vec)%nat →
       (∀ p, p = Rev1.parseEventValue decode x "proposal_created"
             ∨ p = Rev2.parseEventValue decode x "proposal_created" →
          p = mkParsed a (<["parseError" := JBool true]>
                            (<["proposer" := JString a]> ∅)))
       ∧ (∀ p, p = Rev1.parseEventValue decode x "proposal_executed"
               ∨ p = Rev2.parseEventValue decode x "proposal_executed" →
            p = mkParsed a (<["parseError" := JBool true]> ∅))).
Proof.
  intros Hd. split.
  - intros e ty Ha. split; open_parser Hd Ha; reflexivity.
  - intros a e Ha Hr Hlen. split; intros p [-> | ->];
      run_parser Hd Hlen Ha; by rewrite Hr.
Qed.

Lemma parseEventValue_failure_keeps_earlier_assignments_witness :
  Rev2.parseEventValue odd_decode "broken" "proposal_created"
  = mkParsed "GA5W" (<["parseError" := JBool true]>
                       (<["proposer" := JString "GA5W"]> ∅)).
Proof.
  destruct (parseEventValue_failure_keeps_earlier_assignments odd_decode "broken"
              _ eq_refl) as [_ Hsecond].
  destruct (Hsecond "GA5W" (Error "address is not available") eq_refl eq_refl
              ltac:(cbn; lia)) as [Hcreated _].
  apply Hcreated. by right.
Defined.

(* --------------------------------------------------------------------- *)
(** ** [getVaultEvents]: its calls, its page                               *)
(* --------------------------------------------------------------------- *)



Lemma getEventTypeFromTopic_range (decode : Decoder) (topic : string) :
  getEventTypeFromTopic decode topic ∈ EVENT_SYMBOLS ++ ["unknown"].
Proof.
  destruct (getEventTypeFromTopic_cases decode topic)
    as [(s & _ & Hin & ->) | (_ & ->)]; apply elem_of_app; [by left | right].
  apply list_elem_of_singleton. reflexivity.
Qed.

(** The activities of the first revision, event by event. *)
Lemma Rev1_activities_cons (decode : Decoder) (w : World) (ev : RawEvent)
      (f : RawEvent → list VaultActivity) :
  f = (fun ev =>
         match topic0_of ev with
         | Some t =>
             if (t =? "")%string then []
             else
               let eventType := getEventTypeFromTopic decode t in
               let parsed :=
                 if present (ev_value ev)
                 then Rev1.parseEventValue decode (default "" (ev_value ev)) eventType
                 else mkParsed "" ∅ in
               [activity_of w ev eventType parsed]
         | None => []
         end) →
  (present (topic0_of ev) = false ∧ f ev = [])
  ∨ (present (topic0_of ev) = true
     ∧ ∃ act, f ev = [act]
         ∧ act_id act = ev_id ev
         ∧ act_ledger act = ev_ledger ev
         ∧ act_type act ∈ EVENT_SYMBOLS ++ ["unknown"]
         ∧ act_details act !! "ledger" = Some (JString (ev_ledger ev))).
Proof.
  intros ->. destruct (topic0_of ev) as [t |]; cbn; [| by left].
  destruct (t =? "")%string; cbn; [by left | right].
  split; [done |]. eexists. split; [reflexivity |]. cbn.
  repeat split;
    first [ reflexivity | apply getEventTypeFromTopic_range | apply lookup_insert_eq ].
Qed.

(** X8. In the first revision, when the request is built and both RPC
    calls answer without error, [getVaultEvents] returns activities for
    exactly the events that have a non-empty first topic, in their order,
    and skips the others; so the page may hold fewer activities than the
    answer held events.  The type of each
    activity is one of the ten event names or ['unknown'], and its details
    hold its ledger under [ledger]. *)
Theorem Rev1_getVaultEvents_skips_events_without_topic
        (decode : Decoder) (w : World) (cursor : option string)
        (limit : option Number) (trace : list Effect)
        (ld : JsVal) (params : EventsParams) (data : EventsData) :
  rpc_getLatestLedger w = Ok ld →
  events_params cursor (default EVENTS_PAGE_SIZE limit) (latest_sequence ld)
  = Ok params →
  rpc_getEvents w params = Ok data →
  data_error data = None →
  ∃ trace' page,
    Rev1.getVaultEvents decode w cursor limit trace = (trace', Ok page)
    ∧ map act_id (activities page)
      = map ev_id (List.filter (fun ev => present (topic0_of ev)) (events_of data))
    ∧ (length (activities page) ≤ length (events_of data))%nat
    ∧ ∀ act, act ∈ activities page →
        act_type act ∈ EVENT_SYMBOLS ++ ["unknown"]
        ∧ act_details act !! "ledger" = Some (JString (act_ledger act)).
Proof.
  intros Hld Hparams Hev Herr.
  rewrite Rev1_getVaultEvents_with, getVaultEvents_with_run.
  cbv zeta. rewrite Hld, Hparams, Hev, Herr.
  eexists _, _. split; [reflexivity |]. cbn [activities].
  set (f := fun ev : RawEvent => _).
  generalize (events_of data) as evs.
  induction evs as [| ev evs (IHid & IHlen & IHall)].
  - split; [done |]. split; [done |].
    intros act Hin. by apply elem_of_nil in Hin.
  - cbn [flat_map List.filter].
    destruct (Rev1_activities_cons decode w ev f eq_refl)
      as [[Hno ->] | (Hyes & act & -> & Hid & Hledger & Htype & Hdet)];
      [rewrite Hno | rewrite Hyes]; cbn.
    + split; [done |]. split; [lia | exact IHall].
    + split; [by rewrite Hid, IHid |]. split; [lia |].
      intros act' Hin. apply elem_of_cons in Hin as [-> | Hin]; [| by apply IHall].
      split; [done | by rewrite Hledger].
Qed.

Lemma Rev1_getVaultEvents_skips_events_without_topic_witness :
  ∃ trace' page,
    Rev1.getVaultEvents sample_decode online_world None (Some (Fin 2)) []
    = (trace', Ok page)
    ∧ map act_id (activities page) = ["0001"; "0002"].
Proof.
  destruct (Rev1_getVaultEvents_skips_events_without_topic sample_decode online_world
              None (Some (Fin 2)) [] _ _ _ eq_refl eq_refl eq_refl eq_refl)
    as (trace' & page & Hrun & Hids & _).
  exists trace', page. split; [exact Hrun | exact Hids].
Defined.

(** The events requests a [getVaultEvents] sends are made by
    [events_params] from the answer of the first call. *)
Lemma getVaultEvents_with_requests (w : World)
      (activities_of : list RawEvent → list VaultActivity)
      (cursor : option string) (limit : option Number) (params : EventsParams) :
  RpcGetEvents params ∈ fst (getVaultEvents_with w activities_of cursor limit []) →
  ∃ ld, rpc_getLatestLedger w = Ok ld
        ∧ events_params cursor (default EVENTS_PAGE_SIZE limit) (latest_sequence ld)
          = Ok params.
Proof.
  rewrite getVaultEvents_with_run. cbv zeta.
  destruct (rpc_getLatestLedger w) as [ld | e]; cbn.
  - destruct (events_params cursor _ _) as [params' | e] eqn:Hp; cbn.
    + intros Hin. exists ld. split; [done |].
      destruct (rpc_getEvents w _) as [data | e]; [destruct (data_error data) |];
        cbn in Hin; apply elem_of_two_effects in Hin as [Hin | [Hin | Hin]];
        try discriminate; try (by injection Hin as ->);
        try (apply list_elem_of_singleton in Hin; discriminate);
        by apply elem_of_nil in Hin.
    + intros Hin. apply elem_of_two_effects in Hin as [Hin | [Hin | Hin]];
        try discriminate. by apply elem_of_nil in Hin.
  - intros Hin. apply elem_of_two_effects in Hin as [Hin | [Hin | Hin]];
      try discriminate. by apply elem_of_nil in Hin.
Qed.

(** X9. In both revisions, an events request of [getVaultEvents] is
    filtered on the one contract id; when a non-empty cursor is supplied it
    carries that cursor and no start ledger; when no cursor or the empty
    string is supplied it carries a start ledger and no cursor. *)
Theorem getVaultEvents_request_cursor
        (decode : Decoder) (w : World)
        (gve : option string → option Number → Io GetVaultEventsResult)
        (cursor : option string) (limit : option Number) (params : EventsParams) :
  gve = Rev1.getVaultEvents decode w ∨ gve = Rev2.getVaultEvents decode w →
  RpcGetEvents params ∈ fst (gve cursor limit []) →
  filter_contractIds params = [CONTRACT_ID]
  ∧ (∀ c, cursor = Some c → c ≠ "" →
          pagination_cursor params = Some c ∧ startLedger params = None)
  ∧ (cursor = None ∨ cursor = Some "" →
     pagination_cursor params = None ∧ is_Some (startLedger params)).
Proof.
  intros Hgve Hin. apply both_revisions_with in Hgve as [f ->].
  apply getVaultEvents_with_requests in Hin as (ld & _ & Hp).
  split; [| split].
  - unfold events_params in Hp. destruct (present cursor).
    + by injection Hp as <-.
    + destruct (js_String _); [by injection Hp as <- | discriminate].
  - intros c -> Hc. apply String.eqb_neq in Hc.
    rewrite events_params_with_cursor in Hp by (cbn; by rewrite Hc).
    by injection Hp as <-.
  - intros Hc.
    assert (Hno : present cursor = false) by (by destruct Hc as [-> | ->]).
    rewrite events_params_without_cursor in Hp by done.
    destruct (js_String _); [| discriminate]. injection Hp as <-. by split.
Qed.

Lemma getVaultEvents_request_cursor_witness :
  ∃ params,
    RpcGetEvents params
    ∈ fst (Rev2.getVaultEvents sample_decode online_world (Some "0002") None [])
    ∧ pagination_cursor params = Some "0002"
    ∧ startLedger params = None.
Proof.
  eexists.
  assert (Hin : RpcGetEvents (mkEventsParams [CONTRACT_ID] (Fin 20) (Some "0002") None)
                ∈ fst (Rev2.getVaultEvents sample_decode online_world
                         (Some "0002") None [])).
  { apply list_elem_of_further, list_elem_of_here. }
  split; [exact Hin |].
  destruct (getVaultEvents_request_cursor sample_decode online_world _
              (Some "0002") None _ (or_intror eq_refl) Hin) as (_ & Hcursor & _).
  by apply Hcursor.
Defined.

(** X10. In both revisions [getVaultEvents] only talks to the RPC: what it
    adds to the trace starts with the latest-ledger call, holds at most
    three effects, each of them the latest-ledger call, an events call or
    the console error, so it never sets the loading flag, fetches an
    account, simulates, signs or submits.  No events call is made when the
    latest-ledger call fails.  The console error is logged exactly when a
    call fails, the request cannot be built (no cursor is given and the
    latest ledger has no string form) or the events answer is an error, and
    then the page is the empty default. *)
Theorem getVaultEvents_effects
        (decode : Decoder) (w : World)
        (gve : option string → option Number → Io GetVaultEventsResult)
        (cursor : option string) (limit : option Number) (trace : list Effect) :
  gve = Rev1.getVaultEvents decode w ∨ gve = Rev2.getVaultEvents decode w →
  ∃ sent,
    fst (gve cursor limit trace) = trace ++ sent
    ∧ head sent = Some RpcGetLatestLedger
    ∧ (length sent ≤ 3)%nat
    ∧ (∀ e, e ∈ sent →
            e = RpcGetLatestLedger ∨ (∃ p, e = RpcGetEvents p)
            ∨ e = ConsoleError "getVaultEvents")
    ∧ ((∃ e, rpc_getLatestLedger w = Throw e) → ∀ p, RpcGetEvents p ∉ sent)
    ∧ (ConsoleError "getVaultEvents" ∈ sent →
       snd (gve cursor limit trace) = Ok events_fallback)
    ∧ (ConsoleError "getVaultEvents" ∈ sent
       ↔ ¬ ∃ ld params data,
             rpc_getLatestLedger w = Ok ld
             ∧ events_params cursor (default EVENTS_PAGE_SIZE limit)
                 (latest_sequence ld) = Ok params
             ∧ rpc_getEvents w params = Ok data
             ∧ data_error data = None)
    ∧ (∀ ld e,
         events_params cursor (default EVENTS_PAGE_SIZE limit) (latest_sequence ld)
         = Throw e
         ↔ present cursor = false ∧ js_String (latest_sequence ld) = Throw e).
Proof.
  intros Hgve. apply both_revisions_with in Hgve as [f ->].
  rewrite getVaultEvents_with_run. cbv zeta.
  assert (Hthree : ∀ p e, e ∈ [RpcGetLatestLedger; RpcGetEvents p;
                                ConsoleError "getVaultEvents"] →
            e = RpcGetLatestLedger ∨ (∃ p, e = RpcGetEvents p)
            ∨ e = ConsoleError "getVaultEvents").
  { intros p e He. apply elem_of_two_effects in He as [-> | [-> | He]];
      [by left | right; left; by exists p |].
    apply list_elem_of_singleton in He as ->. by right; right. }
  assert (Htwo : ∀ e, e ∈ [RpcGetLatestLedger; ConsoleError "getVaultEvents"] →
            e = RpcGetLatestLedger ∨ (∃ p, e = RpcGetEvents p)
            ∨ e = ConsoleError "getVaultEvents").
  { intros e He. apply elem_of_two_effects in He as [-> | [-> | He]];
      [by left | by right; right | by apply elem_of_nil in He]. }
  assert (Hnone : ∀ p, RpcGetEvents p
                       ∉ [RpcGetLatestLedger; ConsoleError "getVaultEvents"]).
  { intros p Hp. apply elem_of_two_effects in Hp as [Hp | [Hp | Hp]];
      try discriminate. by apply elem_of_nil in Hp. }
  assert (Hlog : ∀ p, ConsoleError "getVaultEvents"
                       ∈ [RpcGetLatestLedger; RpcGetEvents p;
                          ConsoleError "getVaultEvents"]).
  { intros p. do 2 apply list_elem_of_further. apply list_elem_of_here. }
  assert (Hlog2 : ConsoleError "getVaultEvents"
                  ∈ [RpcGetLatestLedger; ConsoleError "getVaultEvents"]).
  { apply list_elem_of_further, list_elem_of_here. }
  assert (Hbuilt : ∀ ld e,
            events_params cursor (default EVENTS_PAGE_SIZE limit) (latest_sequence ld)
            = Throw e
            ↔ present cursor = false ∧ js_String (latest_sequence ld) = Throw e).
  { intros ld e. split; [apply events_params_not_built |].
    intros [Hc Hs]. by rewrite events_params_without_cursor, Hs. }
  destruct (rpc_getLatestLedger w) as [ld | e] eqn:Hld.
  - destruct (events_params cursor _ _) as [params | e] eqn:Hp.
    + destruct (rpc_getEvents w params) as [data | e] eqn:Hev;
        [destruct (data_error data) as [msg |] eqn:Herr |]; cbn [fst snd].
      * eexists. split; [reflexivity |]. split; [reflexivity |]. split; [cbn; lia |].
        split; [apply Hthree |]. split; [by intros [? [=]] |]. split; [done |].
        split; [| exact Hbuilt].
        split; [| intros _; apply Hlog].
        intros _ (ld' & params' & data' & [= <-] & Hp' & Hev' & Herr'). congruence.
      * eexists. split; [reflexivity |]. split; [reflexivity |]. split; [cbn; lia |].
        assert (Hnolog : ConsoleError "getVaultEvents"
                         ∈ [RpcGetLatestLedger; RpcGetEvents params] → False).
        { intros He. apply elem_of_two_effects in He as [He | [He | He]];
            try discriminate. by apply elem_of_nil in He. }
        split.
        { intros e He. apply elem_of_two_effects in He as [-> | [-> | He]];
            [by left | right; left; by eexists | by apply elem_of_nil in He]. }
        split; [by intros [? [=]] |]. split; [by intros ?%Hnolog |].
        split; [| exact Hbuilt].
        split; [by intros ?%Hnolog |].
        intros Hno. exfalso. apply Hno. by exists ld, params, data.
      * eexists. split; [reflexivity |]. split; [reflexivity |]. split; [cbn; lia |].
        split; [apply Hthree |]. split; [by intros [? [=]] |]. split; [done |].
        split; [| exact Hbuilt].
        split; [| intros _; apply Hlog].
        intros _ (ld' & params' & data' & [= <-] & Hp' & Hev' & _). congruence.
    + cbn [fst snd]. eexists. split; [reflexivity |]. split; [reflexivity |].
      split; [cbn; lia |]. split; [apply Htwo |].
      split; [by intros [? [=]] |]. split; [done |].
      split; [| exact Hbuilt].
      split; [| intros _; apply Hlog2].
      intros _ (ld' & params' & data' & [= <-] & Hp' & _). congruence.
  - cbn [fst snd]. eexists. split; [reflexivity |]. split; [reflexivity |].
    split; [cbn; lia |]. split; [apply Htwo |].
    split; [intros _; apply Hnone |]. split; [done |].
    split; [| exact Hbuilt].
    split; [| intros _; apply Hlog2].
    by intros _ (ld' & params' & data' & [=] & _).
Qed.

Lemma getVaultEvents_effects_witness :
  fst (Rev1.getVaultEvents sample_decode offline_world None None [SetLoading false])
  = [SetLoading false; RpcGetLatestLedger; ConsoleError "getVaultEvents"]
  ∧ ∃ sent,
      fst (Rev2.getVaultEvents sample_decode online_world None None []) = [] ++ sent
      ∧ head sent = Some RpcGetLatestLedger.
Proof.
  split; [reflexivity |].
  destruct (getVaultEvents_effects sample_decode online_world _ None None []
              (or_intror eq_refl)) as (sent & Hsent & Hhead & _).
  by exists sent.
Defined.

(** X11. The start ledger at its edges, in both revisions and without a
    cursor: when the first answer holds no [result.sequence] (or [null]),
    and when the sequence is a number up to 50001, the start ledger is
    ["1"]; the sequence of a request that was sent has a string form, and
    when that text does not start with a number, so that [parseInt] gives
    NaN, the start ledger sent is the string ["NaN"]. *)
Theorem getVaultEvents_start_ledger_edges
        (decode : Decoder) (w : World)
        (gve : option string → option Number → Io GetVaultEventsResult)
        (cursor : option string) (limit : option Number)
        (params : EventsParams) (ld : JsVal) :
  gve = Rev1.getVaultEvents decode w ∨ gve = Rev2.getVaultEvents decode w →
  RpcGetEvents params ∈ fst (gve cursor limit []) →
  present cursor = false →
  rpc_getLatestLedger w = Ok ld →
  (nullish (opt_get (opt_get ld "result") "sequence") = true →
   startLedger params = Some "1")
  ∧ (∀ L, opt_get (opt_get ld "result") "sequence" = JNumber (Fin L) →
          L ≤ 50001 → startLedger params = Some "1")
  ∧ (∃ text, js_String (latest_sequence ld) = Ok text
             ∧ (parseInt10 text = NaN → startLedger params = Some "NaN")).
Proof.
  intros Hgve Hin Hc Hld. apply both_revisions_with in Hgve as [f ->].
  apply getVaultEvents_with_requests in Hin as (ld' & Hld' & Hp).
  rewrite Hld in Hld'. injection Hld' as <-.
  split; [| split].
  - intros Hnull.
    rewrite (events_params_start _ _ _ _ "0" Hc Hp); [reflexivity |].
    unfold latest_sequence, coalesce. by rewrite Hnull.
  - intros L Hseq HL.
    rewrite (events_params_start _ _ _ _ (pretty L) Hc Hp).
    + rewrite parseInt10_pretty. cbn.
      by replace (Z.max 1 (L - 50000)) with 1 by lia.
    + unfold latest_sequence, coalesce. by rewrite Hseq.
  - destruct (js_String (latest_sequence ld)) as [text | e] eqn:Htext.
    + exists text. split; [done |]. intros Hnan.
      by rewrite (events_params_start _ _ _ _ text Hc Hp Htext), Hnan.
    + rewrite events_params_without_cursor, Htext in Hp by done. discriminate.
Qed.

Lemma getVaultEvents_start_ledger_edges_witness :
  ∃ params,
    RpcGetEvents params
    ∈ fst (Rev2.getVaultEvents sample_decode quiet_world None None [])
    ∧ startLedger params = Some "1".
Proof.
  eexists.
  assert (Hin : RpcGetEvents (mkEventsParams [CONTRACT_ID] (Fin 20) None (Some "1"))
                ∈ fst (Rev2.getVaultEvents sample_decode quiet_world None None [])).
  { apply list_elem_of_further, list_elem_of_here. }
  split; [exact Hin |].
  destruct (getVaultEvents_start_ledger_edges sample_decode quiet_world _
              None None _ _ (or_intror eq_refl) Hin eq_refl eq_refl)
    as (Hmissing & _).
  by apply Hmissing.
Defined.

(** X12. The page [getVaultEvents] returns, in both revisions: its
    [latestLedger] is never [null] or [undefined]; and when [hasMore] is
    set, both calls answered without error, the page carries the cursor of
    the events answer, which is not empty, and the limit in force (the one
    asked for, or the page size) is the number of events the answer held,
    so that a negative or NaN limit never gives [hasMore]. *)
Theorem getVaultEvents_page_invariants
        (decode : Decoder) (w : World)
        (gve : option string → option Number → Io GetVaultEventsResult)
        (from : option string) (limit : option Number)
        (trace trace' : list Effect) (page : GetVaultEventsResult) :
  gve = Rev1.getVaultEvents decode w ∨ gve = Rev2.getVaultEvents decode w →
  gve from limit trace = (trace', Ok page) →
  nullish (latestLedger page) = false
  ∧ (hasMore page = true →
     present (cursor page) = true
     ∧ ∃ ld params data,
         rpc_getLatestLedger w = Ok ld
         ∧ events_params from (default EVENTS_PAGE_SIZE limit) (latest_sequence ld)
           = Ok params
         ∧ rpc_getEvents w params = Ok data
         ∧ data_error data = None
         ∧ cursor page = data_result data ≫= res_cursor
         ∧ default EVENTS_PAGE_SIZE limit
           = Fin (Z.of_nat (length (events_of data)))).
Proof.
  intros Hgve. apply both_revisions_with in Hgve as [f ->].
  rewrite getVaultEvents_with_run. cbv zeta.
  assert (Hseq : ∀ ld, nullish (latest_sequence ld) = false).
  { intros ld. unfold latest_sequence, coalesce.
    by destruct (nullish (opt_get (opt_get ld "result") "sequence")) eqn:Hn. }
  destruct (rpc_getLatestLedger w) as [ld | e]; [| by intros [= _ <-]].
  destruct (events_params from _ _) as [params | e] eqn:Hp; [| by intros [= _ <-]].
  destruct (rpc_getEvents w params) as [data | e] eqn:Hev; [| by intros [= _ <-]].
  destruct (data_error data) eqn:Herr; [by intros [= _ <-] |].
  intros [= _ <-]. cbn [latestLedger hasMore cursor]. split.
  - unfold coalesce at 1.
    by destruct (nullish (default JUndefined (data_result data ≫= res_latestLedger)))
      eqn:Hn.
  - rewrite andb_true_iff. intros [Hc Hn]. split; [done |].
    exists ld, params, data. repeat (split; [done |]).
    destruct (default EVENTS_PAGE_SIZE limit) as [y |]; [| discriminate].
    apply Z.eqb_eq in Hn. by subst y.
Qed.

Lemma getVaultEvents_page_invariants_witness :
  ∃ page,
    snd (Rev2.getVaultEvents sample_decode online_world None (Some (Fin 2)) [])
    = Ok page
    ∧ hasMore page = true
    ∧ cursor page = Some "0002"
    ∧ nullish (latestLedger page) = false.
Proof.
  eexists. split; [reflexivity |]. split; [reflexivity |]. split; [reflexivity |].
  eapply (getVaultEvents_page_invariants sample_decode online_world _ None
            (Some (Fin 2)) [] _ _ (or_intror eq_refl)).
  reflexivity.
Defined.

(* --------------------------------------------------------------------- *)
(** ** The calls that submit a transaction, step by step                   *)
(* --------------------------------------------------------------------- *)

Lemma quiet_lift {A : Type} (r : Result A) : quiet (lift r) r.
Proof. by intros t. Qed.

Lemma quiet_ret {A : Type} (a : A) : quiet (ret a) (Ok a).
Proof. by intros t. Qed.

Lemma effect_free_lift {A : Type} (r : Result A) : effect_free (lift r).
Proof. exists r. apply quiet_lift. Qed.

Lemma effect_free_ret {A : Type} (a : A) : effect_free (ret a : Io A).
Proof. exists (Ok a). apply quiet_ret. Qed.

Lemma effect_free_bind {A B : Type} (m : Io A) (k : A → Io B) :
  effect_free m → (∀ a, effect_free (k a)) → effect_free (bind m k).
Proof.
  intros [[a | e] Hm] Hk.
  - destruct (Hk a) as [r Hr]. exists r. intros t. unfold bind. by rewrite Hm, Hr.
  - exists (Throw e). intros t. unfold bind. by rewrite Hm.
Qed.

Lemma effect_free_address_arg (w : World) (s : string) : effect_free (address_arg w s).
Proof.
  apply effect_free_bind; [apply effect_free_lift | intros a; apply effect_free_ret].
Qed.

Lemma effect_free_collect (args : list (Io ScArg)) :
  Forall effect_free args → effect_free (collect args).
Proof.
  induction 1 as [| m args Hm _ IH]; [apply effect_free_ret |].
  cbn. apply effect_free_bind; [done |]. intros x.
  apply effect_free_bind; [done |]. intros xs. apply effect_free_ret.
Qed.

Lemma perform_run {A : Type} (e : Effect) (r : Result A) (t : list Effect) :
  perform e r t = (t ++ [e], r).
Proof. reflexivity. Qed.

Lemma bind_perform {A B : Type} (e : Effect) (r : Result A) (k : A → Io B)
      (t : list Effect) :
  bind (perform e r) k t
  = match r with
    | Ok a => k a (t ++ [e])
    | Throw err => (t ++ [e], Throw err)
    end.
Proof. unfold bind. rewrite perform_run. by destruct r. Qed.

Lemma bind_quiet {A B : Type} (m : Io A) (r : Result A) (k : A → Io B)
      (t : list Effect) :
  quiet m r →
  bind m k t
  = match r with
    | Ok a => k a t
    | Throw err => (t, Throw err)
    end.
Proof. intros Hm. unfold bind. rewrite Hm. by destruct r. Qed.

Lemma after_build_run (w : World) (tx : Tx) (t : list Effect) :
  ∃ rest r,
    after_build w tx rest r
    ∧ match server_simulateTransaction w tx with
      | Ok simulation =>
          match simulation with
          | SimulationError error => throw (Error ("Simulation Failed: " +:+ error))
          | SimulationSuccess _ =>
              (let! preparedXdr := lift (assembleTransaction w tx simulation) in
               let! signedXdr := perform (SignTransaction preparedXdr)
                                          (signTransaction w preparedXdr) in
               let! signedTx := lift (TransactionBuilder_fromXDR w signedXdr) in
               perform (SendTransaction signedTx) (server_sendTransaction w signedTx))%eff
          end t
      | Throw e => (t, Throw e)
      end = (t ++ rest, r).
Proof.
  destruct (server_simulateTransaction w tx) as [[msg | data] | e] eqn:Hsim.
  - exists [], (Throw (Error ("Simulation Failed: " +:+ msg))).
    split; [by constructor | by rewrite app_nil_r].
  - rewrite (bind_quiet _ _ _ _ (quiet_lift _)).
    destruct (assembleTransaction w tx (SimulationSuccess data))
      as [preparedXdr | e] eqn:Hasm.
    + rewrite bind_perform.
      destruct (signTransaction w preparedXdr) as [signedXdr | e] eqn:Hsign.
      * rewrite (bind_quiet _ _ _ _ (quiet_lift _)).
        destruct (TransactionBuilder_fromXDR w signedXdr) as [signedTx | e] eqn:Hxdr.
        -- exists [SignTransaction preparedXdr; SendTransaction signedTx],
             (server_sendTransaction w signedTx).
           split; [by econstructor |]. rewrite perform_run. by rewrite <- app_assoc.
        -- exists [SignTransaction preparedXdr], (Throw e).
           split; [by econstructor | done].
      * exists [SignTransaction preparedXdr], (Throw e).
        split; [by econstructor | done].
    + exists [], (Throw e). split; [by econstructor | by rewrite app_nil_r].
  - exists [], (Throw e). split; [by constructor | by rewrite app_nil_r].
Qed.

(** Every run of [submit] with effect-free arguments is a run of the
    pipeline. *)
Lemma submit_pipeline (w : World) (a functionName : string) (args : list (Io ScArg))
      (t : list Effect) :
  effect_free (collect args) →
  ∃ mid r,
    pipeline w a functionName args mid r
    ∧ submit w a functionName args t = (t ++ mid, r).
Proof.
  intros [rargs Hargs]. unfold submit. rewrite bind_perform.
  destruct (server_getAccount w a) as [account | e] eqn:Hacc;
    [| exists [GetAccount a], (Throw e); split; [by constructor | done]].
  rewrite (bind_quiet _ _ _ _ (quiet_lift _)).
  destruct (Address_new w CONTRACT_ID) as [contractAddress | e] eqn:Hc;
    [| exists [GetAccount a], (Throw e); split; [by econstructor | done]].
  change (fold_right _ (ret []) args) with (collect args).
  rewrite (bind_quiet _ _ _ _ Hargs).
  destruct rargs as [scargs | e];
    [| exists [GetAccount a], (Throw e); split; [by econstructor | done]].
  cbv zeta. rewrite bind_perform.
  destruct (after_build_run w
              (mkTx account "100" NETWORK_PASSPHRASE 30 contractAddress functionName
                    scargs)
              ((t ++ [GetAccount a])
               ++ [SimulateTransaction
                     (mkTx account "100" NETWORK_PASSPHRASE 30 contractAddress
                           functionName scargs)]))
    as (rest & r & Hafter & Hrun).
  eexists (_ :: _ :: rest), r. split; [by econstructor |].
  rewrite Hrun. by rewrite <- !app_assoc.
Qed.

Lemma guarded_run (w : World) (body : Io string) (t : list Effect) :
  guarded w body t
  = (fst (body (t ++ [SetLoading true])) ++ [SetLoading false],
     match snd (body (t ++ [SetLoading true])) with
     | Ok h => Ok h
     | Throw e => Throw (parseError w e)
     end).
Proof.
  unfold guarded, setLoading, emit, bind, modify, try_finally, try_catch, throw.
  by destruct (body (t ++ [SetLoading true])) as [t2 [h | e]].
Qed.

Lemma submitting_call_shape (w : World) (isConnected : bool) (address : option string)
      (functionName : string) (inspects : bool) (args : string → list (Io ScArg))
      (op : Io string) :
  submitting_call w isConnected address functionName inspects args op →
  (∀ a, Forall effect_free (args a))
  ∧ (∀ a, ∃ rest, args a = address_arg w a :: rest)
  ∧ op = match connected_address isConnected address with
         | None => throw (Error "Wallet not connected")
         | Some a =>
             guarded w
               (bind (submit w a functionName (args a))
                     (if inspects then hash_if_pending else fun r => ret (hash r)))
         end.
Proof.
  intros []; (split; [| split; [intros a; by eexists | reflexivity]]); intros a;
    repeat first
      [ apply Forall_nil_2
      | apply Forall_cons_2
      | apply effect_free_address_arg
      | apply effect_free_lift
      | apply effect_free_ret
      | (apply effect_free_bind; [| intros ?]) ].
Qed.

(** A submitting call, for a connected caller: the loading flag is set, the
    pipeline runs, the flag is cleared, and the outcome of the pipeline is
    finished. *)
Lemma submitting_call_run (w : World) (isConnected : bool) (address : option string)
      (functionName : string) (inspects : bool) (args : string → list (Io ScArg))
      (op : Io string) (a : string) (t : list Effect) :
  submitting_call w isConnected address functionName inspects args op →
  connected_address isConnected address = Some a →
  ∃ mid r,
    pipeline w a functionName (args a) mid r
    ∧ op t = (t ++ [SetLoading true] ++ mid ++ [SetLoading false],
              finish w inspects r).
Proof.
  intros Hcall Ha.
  apply submitting_call_shape in Hcall as (Hfree & _ & ->). rewrite Ha.
  destruct (submit_pipeline w a functionName (args a) (t ++ [SetLoading true])
              (effect_free_collect _ (Hfree a))) as (mid & r & Hpipe & Hrun).
  exists mid, r. split; [done |].
  rewrite guarded_run. unfold bind. rewrite Hrun.
  destruct r as [response | e]; cbn [fst snd finish].
  - destruct inspects; cbn [andb].
    + unfold hash_if_pending.
      destruct (negb (send_status response =? "PENDING")%string);
        cbn; by rewrite <- !app_assoc.
    + cbn. by rewrite <- !app_assoc.
  - by rewrite <- !app_assoc.
Qed.

(** The effects of the pipeline: the account call, then at most a
    simulation, a signature and a submission, in that order. *)
Lemma pipeline_effects (w : World) (a functionName : string) (args : list (Io ScArg))
      (mid : list Effect) (r : Result SendResponse) :
  pipeline w a functionName args mid r →
  ∃ rest,
    mid = GetAccount a :: rest
    ∧ (rest = []
       ∨ (∃ tx, rest = [SimulateTransaction tx])
       ∨ (∃ tx p, rest = [SimulateTransaction tx; SignTransaction p])
       ∨ (∃ tx p s, rest = [SimulateTransaction tx; SignTransaction p;
                            SendTransaction s])).
Proof.
  intros [e He | account e Hacc He | account c e Hacc Hc He
         | account c scargs rest r' Hacc Hc Hargs Hafter];
    try (exists []; split; [reflexivity | by left]).
  eexists. split; [reflexivity |].
  destruct Hafter; right;
    [ left | left | left | right; left | right; left | right; right ];
    by repeat eexists.
Qed.

(** X13. A call that submits a transaction, made with a connected wallet,
    sets the loading flag first and clears it last, whether it returns or
    throws; in between, its first outside call fetches the caller's account,
    followed by at most a simulation, a signature and a submission; the flag
    is not touched in between. *)
Theorem submitting_call_brackets_loading
        (w : World) (isConnected : bool) (address : option string)
        (functionName : string) (inspects : bool) (args : string → list (Io ScArg))
        (op : Io string) (a : string) (trace : list Effect) :
  submitting_call w isConnected address functionName inspects args op →
  connected_address isConnected address = Some a →
  ∃ mid,
    fst (op trace)
    = trace ++ [SetLoading true; GetAccount a] ++ mid ++ [SetLoading false]
    ∧ (length mid ≤ 3)%nat
    ∧ (∀ e, e ∈ mid →
            (∃ tx, e = SimulateTransaction tx) ∨ (∃ p, e = SignTransaction p)
            ∨ (∃ s, e = SendTransaction s)).
Proof.
  intros Hcall Ha.
  destruct (submitting_call_run _ _ _ _ _ _ _ a trace Hcall Ha)
    as (mid & r & Hpipe & ->).
  apply pipeline_effects in Hpipe as (rest & -> & Hrest).
  exists rest. split; [reflexivity |].
  destruct Hrest as [-> | [(tx & ->) | [(tx & p & ->) | (tx & p & s & ->)]]];
    (split; [cbn; lia |]); intros e He;
    repeat (apply elem_of_cons in He as [-> | He];
            [first [ left; by eexists | right; left; by eexists
                   | right; right; by eexists ] |]);
    by apply elem_of_nil in He.
Qed.

Lemma submitting_call_brackets_loading_witness :
  ∃ mid,
    fst (Rev2.cancelRecurringPayment offline_world true (Some "GA5W") "2" [])
    = [] ++ [SetLoading true; GetAccount "GA5W"] ++ mid ++ [SetLoading false].
Proof.
  destruct (submitting_call_brackets_loading offline_world true (Some "GA5W")
              _ _ _ _ "GA5W" []
              (submits_cancelRecurringPayment _ _ _ "2") eq_refl)
    as (mid & Hrun & _).
  by exists mid.
Defined.

Lemma elem_of_bracketed (e : Effect) (mid : list Effect) :
  (∀ b, e ≠ SetLoading b) →
  e ∈ [] ++ [SetLoading true] ++ mid ++ [SetLoading false] → e ∈ mid.
Proof.
  intros Hne Hin. cbn in Hin.
  apply elem_of_cons in Hin as [-> | Hin]; [by destruct (Hne true) |].
  apply elem_of_app in Hin as [Hin | Hin]; [done |].
  apply list_elem_of_singleton in Hin as ->. by destruct (Hne false).
Qed.

(** A pipeline that submitted went through every earlier step. *)
Lemma pipeline_sent (w : World) (a functionName : string) (args : list (Io ScArg))
      (mid : list Effect) (r : Result SendResponse) (s : string) :
  pipeline w a functionName args mid r →
  SendTransaction s ∈ mid →
  ∃ account contractAddress scargs data preparedXdr signedXdr,
    let tx := mkTx account "100" NETWORK_PASSPHRASE 30 contractAddress functionName
                   scargs in
    server_getAccount w a = Ok account
    ∧ server_simulateTransaction w tx = Ok (SimulationSuccess data)
    ∧ assembleTransaction w tx (SimulationSuccess data) = Ok preparedXdr
    ∧ signTransaction w preparedXdr = Ok signedXdr
    ∧ TransactionBuilder_fromXDR w signedXdr = Ok s
    ∧ mid = [GetAccount a; SimulateTransaction tx; SignTransaction preparedXdr;
             SendTransaction s]
    ∧ r = server_sendTransaction w s.
Proof.
  intros [e He | account e Hacc He | account c e Hacc Hc He
         | account c scargs rest r' Hacc Hc Hargs Hafter] Hin;
    try (apply list_elem_of_singleton in Hin; discriminate).
  apply elem_of_two_effects in Hin as [Hin | [Hin | Hin]]; try discriminate.
  destruct Hafter as [| | | ? p | ? p | data p sx s' Hsim Hasm Hsign Hxdr];
    try (by apply elem_of_nil in Hin);
    try (apply list_elem_of_singleton in Hin; discriminate).
  apply elem_of_cons in Hin as [Hin | Hin]; [discriminate |].
  apply list_elem_of_singleton in Hin. injection Hin as <-.
  by exists account, c, scargs, data, p, sx.
Qed.

(** X14. A call that submits a transaction submits at most one, and only
    after every earlier step returned: when a submission is among its
    effects, the caller's account was fetched, the simulation of the
    transaction (an invocation of the call's contract function, from that
    account) succeeded, the transaction was assembled, signed and read back,
    and the effects of the call are exactly these six, in order. *)
Theorem submission_follows_signature
        (w : World) (isConnected : bool) (address : option string)
        (functionName : string) (inspects : bool) (args : string → list (Io ScArg))
        (op : Io string) (a s : string) :
  submitting_call w isConnected address functionName inspects args op →
  connected_address isConnected address = Some a →
  SendTransaction s ∈ fst (op []) →
  ∃ tx data preparedXdr signedXdr,
    server_getAccount w a = Ok (tx_source tx)
    ∧ tx_functionName tx = functionName
    ∧ server_simulateTransaction w tx = Ok (SimulationSuccess data)
    ∧ assembleTransaction w tx (SimulationSuccess data) = Ok preparedXdr
    ∧ signTransaction w preparedXdr = Ok signedXdr
    ∧ TransactionBuilder_fromXDR w signedXdr = Ok s
    ∧ fst (op [])
      = [SetLoading true; GetAccount a; SimulateTransaction tx;
         SignTransaction preparedXdr; SendTransaction s; SetLoading false].
Proof.
  intros Hcall Ha Hin.
  destruct (submitting_call_run _ _ _ _ _ _ _ a [] Hcall Ha)
    as (mid & r & Hpipe & Hrun).
  rewrite Hrun in Hin |- *. cbn [fst] in Hin |- *.
  apply elem_of_bracketed in Hin; [| by intros b].
  destruct (pipeline_sent _ _ _ _ _ _ _ Hpipe Hin)
    as (account & c & scargs & data & p & sx & Hacc & Hsim & Hasm & Hsign & Hxdr
        & -> & _).
  exists (mkTx account "100" NETWORK_PASSPHRASE 30 c functionName scargs),
    data, p, sx.
  by repeat split.
Qed.

Lemma submission_follows_signature_witness :
  ∃ tx,
    tx_functionName tx = "schedule_payment"
    ∧ server_simulateTransaction online_world tx = Ok (SimulationSuccess "footprint").
Proof.
  destruct (submission_follows_signature online_world true (Some "GA5W") _ _ _ _
              "GA5W" "signed:prepared:schedule_payment"
              (submits_schedulePayment _ _ _
                 (Rev2.mkCreateParams "GD26" "CTOK" "2500" "rent" 86400))
              eq_refl)
    as (tx & data & p & sx & _ & Hfn & Hsim & _).
  { do 4 apply list_elem_of_further. apply list_elem_of_here. }
  exists tx. split; [exact Hfn | reflexivity].
Defined.

(** A pipeline that simulated built its transaction from the caller's
    account, the resolved contract id and the evaluated arguments. *)
Lemma pipeline_simulated (w : World) (a functionName : string) (args : list (Io ScArg))
      (mid : list Effect) (r : Result SendResponse) (tx : Tx) :
  pipeline w a functionName args mid r →
  SimulateTransaction tx ∈ mid →
  ∃ account contractAddress scargs rest,
    tx = mkTx account "100" NETWORK_PASSPHRASE 30 contractAddress functionName scargs
    ∧ server_getAccount w a = Ok account
    ∧ Address_new w CONTRACT_ID = Ok contractAddress
    ∧ quiet (collect args) (Ok scargs)
    ∧ mid = GetAccount a :: SimulateTransaction tx :: rest
    ∧ after_build w tx rest r.
Proof.
  intros [e He | account e Hacc He | account c e Hacc Hc He
         | account c scargs rest r' Hacc Hc Hargs Hafter] Hin;
    try (apply list_elem_of_singleton in Hin; discriminate).
  apply elem_of_two_effects in Hin as [Hin | [Hin | Hin]]; [discriminate | |].
  - injection Hin as ->. by exists account, c, scargs, rest.
  - destruct Hafter; try (by apply elem_of_nil in Hin);
      try (apply list_elem_of_singleton in Hin; discriminate).
    apply elem_of_cons in Hin as [Hin | Hin]; [discriminate |].
    apply list_elem_of_singleton in Hin. discriminate.
Qed.

(** The world decides how the pipeline goes on after the build. *)
Lemma after_build_cases (w : World) (tx : Tx) (rest : list Effect)
      (r : Result SendResponse) :
  after_build w tx rest r →
  match server_simulateTransaction w tx with
  | Throw e => rest = [] ∧ r = Throw e
  | Ok (SimulationError msg) =>
      rest = [] ∧ r = Throw (Error ("Simulation Failed: " +:+ msg))
  | Ok (SimulationSuccess data) =>
      match assembleTransaction w tx (SimulationSuccess data) with
      | Throw e => rest = [] ∧ r = Throw e
      | Ok preparedXdr =>
          match signTransaction w preparedXdr with
          | Throw e => rest = [SignTransaction preparedXdr] ∧ r = Throw e
          | Ok signedXdr =>
              match TransactionBuilder_fromXDR w signedXdr with
              | Throw e => rest = [SignTransaction preparedXdr] ∧ r = Throw e
              | Ok signedTx =>
                  rest = [SignTransaction preparedXdr; SendTransaction signedTx]
                  ∧ r = server_sendTransaction w signedTx
              end
          end
      end
  end.
Proof.
  destruct 1;
    repeat match goal with
           | H : _ = _ |- _ => rewrite H; clear H
           end; done.
Qed.

(** X15. What stops a submitting call after its transaction was built.
    When the simulation reports an error, the call throws (through
    [parseError]) the error ["Simulation Failed: "] followed by the report,
    and when the simulation call itself throws, that error; in both cases
    nothing is signed or submitted.  When the wallet throws instead of
    signing (the user declines), the call throws that error and nothing is
    submitted.  The loading flag is cleared in each case. *)
Theorem submitting_call_stops_early
        (w : World) (isConnected : bool) (address : option string)
        (functionName : string) (inspects : bool) (args : string → list (Io ScArg))
        (op : Io string) (a : string) (tx : Tx) :
  submitting_call w isConnected address functionName inspects args op →
  connected_address isConnected address = Some a →
  SimulateTransaction tx ∈ fst (op []) →
  (∀ msg, server_simulateTransaction w tx = Ok (SimulationError msg) →
     op [] = ([SetLoading true; GetAccount a; SimulateTransaction tx;
               SetLoading false],
              Throw (parseError w (Error ("Simulation Failed: " +:+ msg)))))
  ∧ (∀ e, server_simulateTransaction w tx = Throw e →
       op [] = ([SetLoading true; GetAccount a; SimulateTransaction tx;
                 SetLoading false],
                Throw (parseError w e)))
  ∧ (∀ data preparedXdr e,
       server_simulateTransaction w tx = Ok (SimulationSuccess data) →
       assembleTransaction w tx (SimulationSuccess data) = Ok preparedXdr →
       signTransaction w preparedXdr = Throw e →
       op [] = ([SetLoading true; GetAccount a; SimulateTransaction tx;
                 SignTransaction preparedXdr; SetLoading false],
                Throw (parseError w e))).
Proof.
  intros Hcall Ha Hin.
  destruct (submitting_call_run _ _ _ _ _ _ _ a [] Hcall Ha)
    as (mid & r & Hpipe & Hrun).
  rewrite Hrun in Hin |- *. cbn [fst] in Hin.
  apply elem_of_bracketed in Hin; [| by intros b].
  destruct (pipeline_simulated _ _ _ _ _ _ _ Hpipe Hin)
    as (account & c & scargs & rest & _ & _ & _ & _ & -> & Hafter).
  apply after_build_cases in Hafter.
  split; [| split].
  - intros msg Hsim. rewrite Hsim in Hafter. by destruct Hafter as [-> ->].
  - intros e Hsim. rewrite Hsim in Hafter. by destruct Hafter as [-> ->].
  - intros data p e Hsim Hasm Hsign. rewrite Hsim, Hasm, Hsign in Hafter.
    by destruct Hafter as [-> ->].
Qed.

Lemma submitting_call_stops_early_witness :
  ∃ tx,
    SimulateTransaction tx
    ∈ fst (Rev2.pauseRecurringPayment stalled_world true (Some "GA5W") "3" [])
    ∧ snd (Rev2.pauseRecurringPayment stalled_world true (Some "GA5W") "3" [])
      = Throw (Error "Simulation Failed: HostError: Error(Contract, #3)").
Proof.
  eexists.
  assert (Hin : SimulateTransaction
                  (mkTx (mkAccount "GA5W" "7" None) "100" NETWORK_PASSPHRASE 30
                        CONTRACT_ID "pause_recurring_payment"
                        [ScAddress "GA5W"; ScInt 3 (Some "u64")])
                ∈ fst (Rev2.pauseRecurringPayment stalled_world true (Some "GA5W")
                         "3" [])).
  { do 2 apply list_elem_of_further. apply list_elem_of_here. }
  split; [exact Hin |].
  destruct (submitting_call_stops_early stalled_world true (Some "GA5W") _ _ _ _
              "GA5W" _ (submits_pauseRecurringPayment _ _ _ "3") eq_refl Hin)
    as (Hrefused & _).
  by rewrite (Hrefused "HostError: Error(Contract, #3)" eq_refl).
Defined.

(** X16. When a submitting call has submitted, its result is decided by the
    answer: if the submission throws, the call throws that error (through
    [parseError]); if the answer's status is ["PENDING"], the call returns
    the answer's hash.  For any other status, the calls that inspect the
    status ([proposeTransfer] and [rejectProposal] of the first revision,
    [executeProposal]) throw ["Transaction submission failed"], while the
    other calls of the second revision return the hash all the same. *)
Theorem submitting_call_result
        (w : World) (isConnected : bool) (address : option string)
        (functionName : string) (inspects : bool) (args : string → list (Io ScArg))
        (op : Io string) (a s : string) :
  submitting_call w isConnected address functionName inspects args op →
  connected_address isConnected address = Some a →
  SendTransaction s ∈ fst (op []) →
  (∀ e, server_sendTransaction w s = Throw e →
        snd (op []) = Throw (parseError w e))
  ∧ (∀ response, server_sendTransaction w s = Ok response →
       send_status response = "PENDING" →
       snd (op []) = Ok (hash response))
  ∧ (∀ response, server_sendTransaction w s = Ok response →
       send_status response ≠ "PENDING" →
       snd (op [])
       = if inspects
         then Throw (parseError w (Error "Transaction submission failed"))
         else Ok (hash response))
  ∧ (inspects = true →
     (∃ recipient token amount memo,
        op = Rev1.proposeTransfer w isConnected address recipient token amount memo)
     ∨ (∃ proposalId, op = Rev1.rejectProposal w isConnected address proposalId)
     ∨ (∃ proposalId, op = Rev2.executeProposal w isConnected address proposalId)).
Proof.
  intros Hcall Ha Hin.
  destruct (submitting_call_run _ _ _ _ _ _ _ a [] Hcall Ha)
    as (mid & r & Hpipe & Hrun).
  rewrite Hrun in Hin |- *. cbn [fst snd] in Hin |- *.
  apply elem_of_bracketed in Hin; [| by intros b].
  destruct (pipeline_sent _ _ _ _ _ _ _ Hpipe Hin)
    as (account & c & scargs & data & p & sx & Hfacts).
  cbv zeta in Hfacts. destruct Hfacts as (_ & _ & _ & _ & _ & _ & ->).
  split; [| split; [| split]].
  - by intros e ->.
  - intros response -> Hst. cbn. rewrite Hst. cbn. by rewrite andb_false_r.
  - intros response -> Hst. cbn. apply String.eqb_neq in Hst. rewrite Hst. cbn.
    by rewrite andb_true_r.
  - intros Hi. destruct Hcall; try discriminate;
      [left | right; left | right; right]; by repeat eexists.
Qed.

Lemma submitting_call_result_witness :
  snd (Rev2.executeProposal refusing_world true (Some "GA5W") 102 [])
  = Throw (Error "Transaction submission failed")
  ∧ snd (Rev2.rejectProposal refusing_world true (Some "GA5W") 102 [])
    = Ok "9c1e".
Proof.
  split.
  - destruct (submitting_call_result refusing_world true (Some "GA5W") _ _ _ _
                "GA5W" "signed:prepared:execute_proposal"
                (submits_executeProposal _ _ _ 102) eq_refl)
      as (_ & _ & Hother & _).
    { do 4 apply list_elem_of_further. apply list_elem_of_here. }
    by rewrite (Hother _ eq_refl).
  - destruct (submitting_call_result refusing_world true (Some "GA5W") _ _ _ _
                "GA5W" "signed:prepared:reject_proposal"
                (submits_rejectProposal_2 _ _ _ 102) eq_refl)
      as (_ & _ & Hother & _).
    { do 4 apply list_elem_of_further. apply list_elem_of_here. }
    by rewrite (Hother _ eq_refl).
Defined.

Lemma collect_head (w : World) (a : string) (rest : list (Io ScArg))
      (scargs : list ScArg) :
  quiet (collect (address_arg w a :: rest)) (Ok scargs) →
  ∃ a' tl, scargs = ScAddress a' :: tl ∧ Address_new w a = Ok a'.
Proof.
  intros Hq. specialize (Hq []).
  change (collect (address_arg w a :: rest))
    with (bind (address_arg w a)
               (fun x => bind (collect rest) (fun xs => ret (x :: xs)))) in Hq.
  unfold address_arg in Hq. unfold bind at 1 2 in Hq. unfold lift, ret at 1 in Hq.
  destruct (Address_new w a) as [a' |]; [| discriminate].
  unfold bind in Hq.
  destruct (collect rest []) as [t [tl | e]]; [| discriminate].
  injection Hq as _ <-. by exists a', tl.
Qed.

(** X17. The transaction a submitting call simulates: it invokes the
    call's contract function on the resolved [CONTRACT_ID], from the account
    fetched for the caller, with fee ["100"], time-out 30 and the test
    network's passphrase, and its first argument is the caller's own
    address. *)
Theorem submitting_call_transaction
        (w : World) (isConnected : bool) (address : option string)
        (functionName : string) (inspects : bool) (args : string → list (Io ScArg))
        (op : Io string) (a : string) (tx : Tx) :
  submitting_call w isConnected address functionName inspects args op →
  connected_address isConnected address = Some a →
  SimulateTransaction tx ∈ fst (op []) →
  tx_functionName tx = functionName
  ∧ tx_fee tx = "100"
  ∧ tx_timeout tx = 30
  ∧ tx_networkPassphrase tx = "Test SDF Network ; September 2015"
  ∧ server_getAccount w a = Ok (tx_source tx)
  ∧ Address_new w CONTRACT_ID = Ok (tx_contractAddress tx)
  ∧ ∃ caller others,
      tx_args tx = ScAddress caller :: others ∧ Address_new w a = Ok caller.
Proof.
  intros Hcall Ha Hin.
  destruct (submitting_call_run _ _ _ _ _ _ _ a [] Hcall Ha)
    as (mid & r & Hpipe & Hrun).
  rewrite Hrun in Hin. cbn [fst] in Hin.
  apply elem_of_bracketed in Hin; [| by intros b].
  destruct (pipeline_simulated _ _ _ _ _ _ _ Hpipe Hin)
    as (account & c & scargs & rest & -> & Hacc & Hc & Hargs & _ & _).
  apply submitting_call_shape in Hcall as (_ & Hhead & _).
  destruct (Hhead a) as [others Hothers]. rewrite Hothers in Hargs.
  apply collect_head in Hargs as (a' & tl & -> & Ha').
  repeat split; try done. by exists a', tl.
Qed.

Lemma submitting_call_transaction_witness :
  ∃ tx,
    SimulateTransaction tx
    ∈ fst (Rev1.rejectProposal online_world true (Some "GA5W") 102 [])
    ∧ tx_functionName tx = "reject_proposal"
    ∧ tx_args tx = [ScAddress "GA5W"; ScInt 102 (Some "u64")].
Proof.
  eexists.
  assert (Hin : SimulateTransaction
                  (mkTx (mkAccount "GA5W" "7" None) "100" NETWORK_PASSPHRASE 30
                        CONTRACT_ID "reject_proposal"
                        [ScAddress "GA5W"; ScInt 102 (Some "u64")])
                ∈ fst (Rev1.rejectProposal online_world true (Some "GA5W") 102 [])).
  { do 2 apply list_elem_of_further. apply list_elem_of_here. }
  split; [exact Hin |].
  destruct (submitting_call_transaction online_world true (Some "GA5W") _ _ _ _
              "GA5W" _ (submits_rejectProposal_1 _ _ _ 102) eq_refl Hin)
    as (Hfn & _).
  by split.
Defined.

(** Run a submitting call whose account and contract id are available. *)
Ltac run_submitting_call Ha Hacc Hc :=
  rewrite Ha, guarded_run; unfold submit, bind at 1;
  rewrite bind_perform, Hacc;
  rewrite (bind_quiet _ _ _ _ (quiet_lift _)), Hc;
  unfold address_arg, bind, lift, ret; cbn [fold_right].

(** X18. Arguments are checked after the account is fetched and before
    anything is simulated.  With a connected wallet, an available account,
    a readable contract id and a readable caller address: a recurring-payment
    call whose payment id [BigInt] refuses, and a [proposeTransfer] whose
    recipient [new Address] refuses or whose amount [BigInt] refuses, throw
    that conversion's error (through [parseError]) after the account call,
    and nothing is simulated, signed or submitted. *)
Theorem malformed_argument_refused_before_simulation
        (w : World) (isConnected : bool) (address : option string)
        (a caller contractAddress : string) (account : Account) (e : JsError)
        (trace : list Effect) :
  connected_address isConnected address = Some a →
  server_getAccount w a = Ok account →
  Address_new w CONTRACT_ID = Ok contractAddress →
  Address_new w a = Ok caller →
  (∀ paymentId, BigInt_of_string w paymentId = Throw e →
     ∀ op, op = Rev2.executeRecurringPayment w isConnected address paymentId
           ∨ op = Rev2.cancelRecurringPayment w isConnected address paymentId
           ∨ op = Rev2.pauseRecurringPayment w isConnected address paymentId →
       op trace = (trace ++ [SetLoading true; GetAccount a; SetLoading false],
                   Throw (parseError w e)))
  ∧ (∀ recipient token amount memo,
       Address_new w recipient = Throw e
       ∨ (∃ r t, Address_new w recipient = Ok r ∧ Address_new w token = Ok t
                 ∧ BigInt_of_string w amount = Throw e) →
       ∀ op, op = Rev1.proposeTransfer w isConnected address recipient token amount memo
             ∨ op = Rev2.proposeTransfer w isConnected address recipient token amount
                      memo →
         op trace = (trace ++ [SetLoading true; GetAccount a; SetLoading false],
                     Throw (parseError w e))).
Proof.
  intros Ha Hacc Hc Hcaller. split.
  - intros paymentId Hid op [-> | [-> | ->]];
      unfold Rev2.executeRecurringPayment, Rev2.cancelRecurringPayment,
        Rev2.pauseRecurringPayment;
      run_submitting_call Ha Hacc Hc; rewrite Hcaller, Hid; cbn;
      by rewrite <- !app_assoc.
  - intros recipient token amount memo Hbad op Hop.
    destruct Hbad as [Hr | (r & t & Hr & Ht & Hamount)];
      destruct Hop as [-> | ->];
      unfold Rev1.proposeTransfer, Rev2.proposeTransfer;
      run_submitting_call Ha Hacc Hc; rewrite Hcaller, Hr, ?Ht, ?Hamount; cbn;
      by rewrite <- !app_assoc.
Qed.

Lemma malformed_argument_refused_before_simulation_witness :
  Rev2.executeRecurringPayment online_world true (Some "GA5W") "next" []
  = ([SetLoading true; GetAccount "GA5W"; SetLoading false],
     Throw (Error "Cannot convert to a BigInt")).
Proof.
  destruct (malformed_argument_refused_before_simulation online_world true
              (Some "GA5W") "GA5W" "GA5W" CONTRACT_ID (mkAccount "GA5W" "7" None)
              (Error "Cannot convert to a BigInt") []
              eq_refl eq_refl eq_refl eq_refl) as [Hid _].
  apply (Hid "next" eq_refl). by left.
Defined.

(* --------------------------------------------------------------------- *)
(** ** The read queries of the second revision                             *)
(* --------------------------------------------------------------------- *)

Lemma find_first_native (pre post : list StellarBalance) (b : StellarBalance) :
  Forall (fun x => asset_type x ≠ "native") pre →
  asset_type b = "native" →
  List.find (fun x => (asset_type x =? "native")%string) (pre ++ b :: post) = Some b.
Proof.
  intros Hpre Hb. induction Hpre as [| x pre Hx _ IH]; cbn.
  - by rewrite Hb.
  - apply String.eqb_neq in Hx. by rewrite Hx.
Qed.

Lemma find_no_native (bs : list StellarBalance) :
  Forall (fun x => asset_type x ≠ "native") bs →
  List.find (fun x => (asset_type x =? "native")%string) bs = None.
Proof.
  induction 1 as [| x bs Hx _ IH]; [done |]. cbn.
  apply String.eqb_neq in Hx. by rewrite Hx.
Qed.

(** X19. [getDashboardStats] makes one outside call, for the account of
    the contract.  When that call throws, or the account it returns has no
    [balances], it logs to the console and returns the zeroed statistics.
    Otherwise it logs nothing and returns the fixed counts with, as total
    balance, the formatted balance of the first entry whose asset type is
    [native], or ["0"] when there is none. *)
Theorem getDashboardStats_cases (w : World) (trace : list Effect) :
  (∀ e, server_getAccount w CONTRACT_ID = Throw e →
        Rev2.getDashboardStats w trace
        = (trace ++ [GetAccount CONTRACT_ID;
                     ConsoleError "Failed to fetch dashboard stats:"],
           Ok (Rev2.mkStats "0" 0 0 0 0 "0/0")))
  ∧ (∀ account, server_getAccount w CONTRACT_ID = Ok account →
       balances account = None →
       Rev2.getDashboardStats w trace
       = (trace ++ [GetAccount CONTRACT_ID;
                    ConsoleError "Failed to fetch dashboard stats:"],
          Ok (Rev2.mkStats "0" 0 0 0 0 "0/0")))
  ∧ (∀ account pre b post,
       server_getAccount w CONTRACT_ID = Ok account →
       balances account = Some (pre ++ b :: post) →
       Forall (fun x => asset_type x ≠ "native") pre →
       asset_type b = "native" →
       Rev2.getDashboardStats w trace
       = (trace ++ [GetAccount CONTRACT_ID],
          Ok (Rev2.mkStats (formatBalance w (balance b)) 24 3 1 5 "3/5")))
  ∧ (∀ account bs,
       server_getAccount w CONTRACT_ID = Ok account →
       balances account = Some bs →
       Forall (fun x => asset_type x ≠ "native") bs →
       Rev2.getDashboardStats w trace
       = (trace ++ [GetAccount CONTRACT_ID], Ok (Rev2.mkStats "0" 24 3 1 5 "3/5"))).
Proof.
  unfold Rev2.getDashboardStats, try_catch.
  split; [| split; [| split]].
  - intros e He. rewrite bind_perform, He. cbn. by rewrite <- app_assoc.
  - intros account Hacc Hb. rewrite bind_perform, Hacc, Hb. cbn.
    by rewrite <- app_assoc.
  - intros account pre b post Hacc Hb Hpre Hnative.
    rewrite bind_perform, Hacc, Hb. by rewrite find_first_native.
  - intros account bs Hacc Hb Hnone.
    rewrite bind_perform, Hacc, Hb. by rewrite find_no_native.
Qed.

Lemma getDashboardStats_cases_witness :
  snd (Rev2.getDashboardStats funded_world []) = Ok (Rev2.mkStats "1250.5" 24 3 1 5 "3/5")
  ∧ snd (Rev2.getDashboardStats online_world [])
    = Ok (Rev2.mkStats "0" 0 0 0 0 "0/0").
Proof.
  destruct (getDashboardStats_cases funded_world []) as (_ & _ & Hnative & _).
  destruct (getDashboardStats_cases online_world []) as (_ & Hmissing & _).
  split.
  - by rewrite (Hnative _ [mkBalance "credit_alphanum4" "10"]
                  (mkBalance "native" "1250.5") [mkBalance "native" "3"]
                  eq_refl eq_refl ltac:(by repeat constructor) eq_refl).
  - by rewrite (Hmissing _ eq_refl eq_refl).
Defined.

(** X20. [getRecurringPayments] and [getRecurringPaymentHistory] do not
    depend on what the server answers.  The first makes one account call,
    whose failure it ignores, never logs, and always returns the three
    built-in payments; with respect to the current time exactly the second
    of them is due.  The second has no effect at all and returns two
    successful entries for the payment id it was given. *)
Theorem recurring_queries_are_built_in (w : World) (trace : list Effect) :
  Rev2.getRecurringPayments w trace
  = (trace ++ [GetAccount CONTRACT_ID], Ok (Rev2.mockPayments w))
  ∧ map Rev2.rp_id (Rev2.mockPayments w) = ["1"; "2"; "3"]
  ∧ map Rev2.rp_id
      (List.filter (fun p => Rev2.rp_nextPaymentTime p <=? Date_now w)
                   (Rev2.mockPayments w))
    = ["2"]
  ∧ (∀ paymentId,
       ∃ history,
         Rev2.getRecurringPaymentHistory w paymentId trace = (trace, Ok history)
         ∧ map Rev2.h_id history = [paymentId +:+ "-1"; paymentId +:+ "-2"]
         ∧ Forall (fun h => Rev2.h_paymentId h = paymentId
                            ∧ Rev2.h_success h = true
                            ∧ Rev2.h_executedAt h < Date_now w) history).
Proof.
  split; [| split; [| split]].
  - unfold Rev2.getRecurringPayments, try_catch, bind, perform, emit, modify,
      lift, ret.
    cbn. by destruct (server_getAccount w CONTRACT_ID).
  - reflexivity.
  - unfold Rev2.mockPayments. cbn [List.filter Rev2.rp_nextPaymentTime].
    destruct (Z.leb_spec (Date_now w + 86400000) (Date_now w)); [lia |].
    destruct (Z.leb_spec (Date_now w - 3600000) (Date_now w)); [| lia].
    reflexivity.
  - intros paymentId. eexists. split; [reflexivity |]. split; [reflexivity |].
    repeat constructor; cbn; lia.
Qed.

(* --------------------------------------------------------------------- *)
(** ** The proposal list, beyond the status                                *)
(* --------------------------------------------------------------------- *)

Section ProposalListMore.

Import Proposals.

(** X21. The bookkeeping of [handleRejectConfirm].  Without a proposal
    chosen it does nothing.  With one chosen it closes the modal, forgets
    the choice, keeps the selected proposal, and raises exactly one toast of
    type [proposal_rejected]: a success toast naming the proposal when the
    contract call returned, otherwise an error toast with the error's
    message, or ["Failed to reject"] when the message is empty.  Confirming
    again right after is without effect, so one click rejects at most
    once. *)
Theorem handleRejectConfirm_bookkeeping (rejectProposal : Z → Result string)
        (reason : option string) (st : State) :
  (rejectingId st = None → handleRejectConfirm rejectProposal reason st = st)
  ∧ (∀ rid, rejectingId st = Some rid →
       showRejectModal (handleRejectConfirm rejectProposal reason st) = false
       ∧ rejectingId (handleRejectConfirm rejectProposal reason st) = None
       ∧ selectedProposal (handleRejectConfirm rejectProposal reason st)
         = selectedProposal st
       ∧ toasts (handleRejectConfirm rejectProposal reason st)
         = toasts st
           ++ [ match rejectProposal rid with
                | Ok _ =>
                    mkToast "proposal_rejected"
                      ("Proposal #" +:+ pretty rid +:+ " rejected") "success"
                | Throw (Error m) =>
                    mkToast "proposal_rejected"
                      (if (m =? "")%string then "Failed to reject" else m) "error"
                end ])
  ∧ (∀ reason',
       handleRejectConfirm rejectProposal reason'
         (handleRejectConfirm rejectProposal reason st)
       = handleRejectConfirm rejectProposal reason st).
Proof.
  unfold handleRejectConfirm. split; [| split].
  - by intros ->.
  - intros rid ->. by destruct (rejectProposal rid) as [h | [m]].
  - intros reason'. destruct (rejectingId st) as [rid |] eqn:Hrid.
    + by destruct (rejectProposal rid) as [h | [m]].
    + by rewrite Hrid.
Qed.

Lemma handleRejectConfirm_bookkeeping_witness :
  toasts (handleRejectConfirm reject_fails None (handleRejectClick 101 initialState))
  = [mkToast "proposal_rejected" "Simulation Failed: unauthorized" "error"]
  ∧ handleRejectConfirm reject_ok None initialState = initialState.
Proof.
  destruct (handleRejectConfirm_bookkeeping reject_fails None
              (handleRejectClick 101 initialState)) as (_ & Hchosen & _).
  destruct (handleRejectConfirm_bookkeeping reject_ok None initialState)
    as (Hnone & _).
  split.
  - destruct (Hchosen 101 eq_refl) as (_ & _ & _ & Htoasts). exact Htoasts.
  - exact (Hnone eq_refl).
Defined.

(** X22. After a rejection that succeeded, the Reject button is shown for
    no proposal with the rejected id, whoever the user is and whatever the
    status of the proposal was before (the component does not look at it:
    an executed proposal becomes Rejected too); for every other proposal
    the button is shown exactly as before.  When no proposal has the id, the
    list is unchanged. *)
Theorem rejected_proposal_offers_no_reject
        (rejectProposal : Z → Result string) (reason : option string)
        (st : State) (rid : Z) (h : string)
        (isConnected : bool) (address : option string) (userRole : string) :
  rejectingId st = Some rid →
  rejectProposal rid = Ok h →
  (∀ (i : nat) p,
     proposals st !! i = Some p →
     ∃ p', proposals (handleRejectConfirm rejectProposal reason st) !! i = Some p'
           ∧ (id p = rid →
              status p' = Rejected
              ∧ rejectButtonShown isConnected address userRole p' = false)
           ∧ (id p ≠ rid →
              rejectButtonShown isConnected address userRole p'
              = rejectButtonShown isConnected address userRole p))
  ∧ ((∀ p, p ∈ proposals st → id p ≠ rid) →
     proposals (handleRejectConfirm rejectProposal reason st) = proposals st).
Proof.
  intros Hrid Hok. unfold handleRejectConfirm. rewrite Hrid, Hok. cbn [proposals].
  split.
  - intros i p Hp. rewrite list_lookup_fmap, Hp. cbn.
    eexists. split; [reflexivity |]. split.
    + intros Heq. apply Z.eqb_eq in Heq. by rewrite Heq.
    + intros Hne. apply Z.eqb_neq in Hne. by rewrite Hne.
  - intros Hnone. induction (proposals st) as [| p ps IH]; [done |]. cbn.
    assert (Hp : (id p =? rid) = false)
      by (apply Z.eqb_neq, Hnone; left).
    rewrite Hp. f_equal. apply IH. intros p' Hin. apply Hnone. by right.
Qed.

Lemma rejected_proposal_offers_no_reject_witness :
  map status
    (proposals (handleRejectConfirm reject_ok None (handleRejectClick 101 initialState)))
  = [Pending; Rejected]
  ∧ proposals (handleRejectConfirm reject_ok None (handleRejectClick 7 initialState))
    = mockProposals.
Proof.
  split; [reflexivity |].
  destruct (rejected_proposal_offers_no_reject reject_ok None
              (handleRejectClick 7 initialState) 7 "7f3a" true None "Admin"
              eq_refl eq_refl) as [_ Hnone].
  apply Hnone. intros p Hin.
  apply elem_of_cons in Hin as [-> | Hin]; [done |].
  apply list_elem_of_singleton in Hin as ->. done.
Defined.

(** X23. The component and the hook agree on the wallet.  Whenever the
    hook would refuse a call with ["Wallet not connected"], the component
    offers no Reject button; and should a rejection be confirmed in that
    state all the same, with the [rejectProposal] of either revision, no
    proposal changes and the toast is the error ["Wallet not connected"]. *)
Theorem reject_without_wallet
        (w : World) (isConnected : bool) (address : option string)
        (userRole : string) (reason : option string) (st : State) (rid : Z)
        (trace : list Effect) :
  connected_address isConnected address = None →
  rejectingId st = Some rid →
  (∀ p, canRejectProposal isConnected address userRole p = false
        ∧ rejectButtonShown isConnected address userRole p = false)
  ∧ (∀ rejectProposal,
       rejectProposal = (fun proposalId =>
                           snd (Rev1.rejectProposal w isConnected address proposalId
                                  trace))
       ∨ rejectProposal = (fun proposalId =>
                             snd (Rev2.rejectProposal w isConnected address proposalId
                                    trace)) →
       proposals (handleRejectConfirm rejectProposal reason st) = proposals st
       ∧ toasts (handleRejectConfirm rejectProposal reason st)
         = toasts st ++ [mkToast "proposal_rejected" "Wallet not connected" "error"]).
Proof.
  intros Hno Hrid. split.
  - intros p. unfold rejectButtonShown.
    assert (Hcan : canRejectProposal isConnected address userRole p = false).
    { unfold canRejectProposal, no_address. unfold connected_address, present in Hno.
      destruct isConnected; [| done]. cbn in *.
      destruct address as [a |]; [| done].
      by destruct (a =? "")%string. }
    rewrite Hcan. split; [done | apply andb_false_r].
  - intros rejectProposal [-> | ->]; unfold handleRejectConfirm;
      rewrite Hrid; unfold Rev1.rejectProposal, Rev2.rejectProposal;
      rewrite Hno; by split.
Qed.

Lemma reject_without_wallet_witness :
  toasts (handleRejectConfirm
            (fun proposalId =>
               snd (Rev2.rejectProposal online_world false (Some "GA5W") proposalId []))
            None (handleRejectClick 102 initialState))
  = [mkToast "proposal_rejected" "Wallet not connected" "error"].
Proof.
  destruct (reject_without_wallet online_world false (Some "GA5W") "Admin" None
              (handleRejectClick 102 initialState) 102 [] eq_refl eq_refl)
    as [_ Hconfirm].
  destruct (Hconfirm _ (or_intror eq_refl)) as [_ Htoasts].
  exact Htoasts.
Defined.

End ProposalListMore.

(* --------------------------------------------------------------------- *)
(** ** The two revisions side by side                                      *)
(* --------------------------------------------------------------------- *)

Lemma guarded_pair (w : World) (a functionName : string) (args : list (Io ScArg))
      (t : list Effect) :
  let checked := guarded w (bind (submit w a functionName args) hash_if_pending) in
  let unchecked := guarded w (bind (submit w a functionName args)
                                   (fun r => ret (hash r))) in
  fst (checked t) = fst (unchecked t)
  ∧ (snd (checked t) = snd (unchecked t)
     ∨ (∃ h, snd (unchecked t) = Ok h)
       ∧ snd (checked t)
         = Throw (parseError w (Error "Transaction submission failed"))).
Proof.
  cbv zeta. rewrite !guarded_run. unfold bind.
  destruct (submit w a functionName args (t ++ [SetLoading true]))
    as [t2 [response | e]]; [| by split; [| left]].
  unfold hash_if_pending, ret.
  destruct (negb (send_status response =? "PENDING")%string); cbn.
  - split; [done |]. right. split; [by eexists | done].
  - split; [done | by left].
Qed.

(** X24. [proposeTransfer] and [rejectProposal] in the two revisions: on
    the same inputs they have the same effects, and the same result except
    in one case, where the second revision returns a hash and the first
    throws ["Transaction submission failed"]. *)
Theorem revisions_differ_on_unaccepted_submission_only
        (w : World) (isConnected : bool) (address : option string)
        (trace : list Effect) :
  ∀ op1 op2 : Io string,
    (∃ recipient token amount memo,
       op1 = Rev1.proposeTransfer w isConnected address recipient token amount memo
       ∧ op2 = Rev2.proposeTransfer w isConnected address recipient token amount memo)
    ∨ (∃ proposalId,
         op1 = Rev1.rejectProposal w isConnected address proposalId
         ∧ op2 = Rev2.rejectProposal w isConnected address proposalId) →
    fst (op1 trace) = fst (op2 trace)
    ∧ (snd (op1 trace) = snd (op2 trace)
       ∨ (∃ h, snd (op2 trace) = Ok h)
         ∧ snd (op1 trace)
           = Throw (parseError w (Error "Transaction submission failed"))).
Proof.
  intros op1 op2 [(recipient & token & amount & memo & -> & ->)
                 | (proposalId & -> & ->)];
    unfold Rev1.proposeTransfer, Rev2.proposeTransfer, Rev1.rejectProposal,
      Rev2.rejectProposal;
    (destruct (connected_address isConnected address) as [a |];
     [apply guarded_pair | by split; [| left]]).
Qed.

Lemma revisions_differ_on_unaccepted_submission_only_witness :
  snd (Rev1.proposeTransfer refusing_world true (Some "GA5W") "GD26" "CTOK" "2500"
         "rent" [])
  = Throw (Error "Transaction submission failed")
  ∧ snd (Rev2.proposeTransfer refusing_world true (Some "GA5W") "GD26" "CTOK" "2500"
           "rent" [])
    = Ok "9c1e"
  ∧ fst (Rev1.proposeTransfer refusing_world true (Some "GA5W") "GD26" "CTOK" "2500"
           "rent" [])
    = fst (Rev2.proposeTransfer refusing_world true (Some "GA5W") "GD26" "CTOK" "2500"
             "rent" []).
Proof.
  split; [reflexivity |]. split; [reflexivity |].
  apply (revisions_differ_on_unaccepted_submission_only refusing_world true
           (Some "GA5W") []).
  left. by exists "GD26", "CTOK", "2500", "rent".
Defined.

Lemma length_flat_map_le {A B : Type} (f : A → list B) (l : list A) :
  (∀ x, length (f x) ≤ 1)%nat → (length (flat_map f l) ≤ length l)%nat.
Proof.
  intros Hf. induction l as [| x l IH]; [done |].
  cbn. rewrite length_app. specialize (Hf x). lia.
Qed.

(** X25. [getVaultEvents] in the two revisions: on the same inputs they
    make the same calls, and the pages they return have the same latest
    ledger, cursor and [hasMore]; the first revision's page never holds more
    activities than the second's. *)
Theorem getVaultEvents_revisions (decode : Decoder) (w : World)
        (from : option string) (limit : option Number) (trace : list Effect) :
  fst (Rev1.getVaultEvents decode w from limit trace)
  = fst (Rev2.getVaultEvents decode w from limit trace)
  ∧ ∃ page1 page2,
      snd (Rev1.getVaultEvents decode w from limit trace) = Ok page1
      ∧ snd (Rev2.getVaultEvents decode w from limit trace) = Ok page2
      ∧ latestLedger page1 = latestLedger page2
      ∧ cursor page1 = cursor page2
      ∧ hasMore page1 = hasMore page2
      ∧ (length (activities page1) ≤ length (activities page2))%nat.
Proof.
  rewrite Rev1_getVaultEvents_with, Rev2_getVaultEvents_with.
  rewrite !getVaultEvents_with_run. cbv zeta.
  destruct (rpc_getLatestLedger w) as [ld | e];
    [| split; [done |]; by eexists _, _].
  destruct (events_params from _ _) as [params | e];
    [| split; [done |]; by eexists _, _].
  destruct (rpc_getEvents w _) as [data | e];
    [| split; [done |]; by eexists _, _].
  destruct (data_error data); [split; [done |]; by eexists _, _ |].
  split; [done |]. eexists _, _. repeat (split; [reflexivity |]).
  cbn [activities]. rewrite length_map. apply length_flat_map_le.
  intros ev. destruct (topic0_of ev) as [t |]; [| cbn; lia].
  destruct (t =? "")%string; cbn; lia.
Qed.
